(** * DCDIU server: session engine, traversal, scanner and file streamer

    A shallow embedding of the server side of the Directory Content
    Detection & Inspection Utility:

    - [ClientHandler.cpp] (DCDIU_V4.0): [safe_send], [log], [hashPassword],
      [generateSalt], [authenticate], [handle];
    - [DirectoryTraverser.cpp] (DCDIU V3.0): [traverse];
    - [ContentScanner.cpp] (DCDIU_V4.0): [scan];
    - [FileInspector.cpp] (DCDIU V4.0): [inspect];
    - the other revisions of the three modules: [traverse] with exception
      handling, [scan] of DCDIU V2.0 and [inspect] without error handling;
    - [Logger.cpp] (DCDIU V4.0) and [ExceptionHandler.cpp] (DCDIU_V4.0);
    - [Client.cpp]: the command line and the response loop of
      [Client::start].

    The model, part by part:

    - strings are [std::string] values, sequences of 8-bit characters, and
      the operations the code calls on them keep their names;
    - the socket is what the peer has received so far; a [send] takes its
      whole buffer, returns an error, or raises [SIGPIPE], which ends the
      process of the session; each [recv] takes the next of the chunks the
      peer sends;
    - a call that sends returns or is where the process ends, and what is
      left then is kept: what the peer has received and what has reached
      the files;
    - an [ofstream] is the buffer of the stream and the file beneath it:
      what is inserted reaches the file when the buffer is written, at the
      latest when the stream is closed;
    - the file system is the set of answers of [opendir]/[readdir], [stat],
      [open] and [read]; it does not change while a command runs, and the
      two data files of the server, [data/users.txt] and [data/files.txt],
      are kept apart from it as parts of the state;
    - one session runs at a time, and the limits of the process on memory
      and on open descriptors are not reached;
    - an [int] counter is a [Z] that wraps at 32 bits;
    - exceptions are values: a [throw] that is caught in the same function
      is the branch that leaves the loop, one that is not is the [Throw]
      result of the function;
    - the system logger ([LOG], [ExceptionHandler::handle]), which only
      prints, is left out of the session engine and modelled on its own;
      the log of the session is kept. *)

From Stdlib Require Import String Ascii List ZArith Lia Bool Arith.
From Stdlib Require Import Permutation.
From Stdlib Require Import DecimalString.
From Equations Require Import Equations.
Import ListNotations.
Open Scope string_scope.

(* ===================================================================== *)
(** * Part I: definitions *)
(* ===================================================================== *)

(** ** The operations of [std::string] and of the streams the code uses *)

Module StdString.

(** [s.size()]. *)
Definition size (s : string) : nat := String.length s.

(** [s.substr(pos)]: throws [std::out_of_range] when [pos > s.size()]. *)
Definition substr_from (s : string) (pos : nat) : option string :=
  if (pos <=? size s)%nat then Some (substring pos (size s - pos) s)
  else None.

(** [s.substr(pos, len)]: the same exception, [len] is clamped. *)
Definition substr (s : string) (pos len : nat) : option string :=
  if (pos <=? size s)%nat then Some (substring pos len s) else None.

(** [s.compare(0, len, lit) == 0]: position 0 never throws, and the
    compared part of [s] is clamped to what [s] holds. *)
Definition compare0 (s : string) (len : nat) (lit : string) : bool :=
  String.eqb (substring 0 len s) lit.

(** [s.find(c, pos)], [None] standing for [npos]. *)
Fixpoint find_char (c : ascii) (pos : nat) (s : string) : option nat :=
  match s with
  | EmptyString => None
  | String a s' =>
      match pos with
      | O => if Ascii.eqb a c then Some 0
             else option_map S (find_char c 0 s')
      | S pos' => option_map S (find_char c pos' s')
      end
  end.

(** [s.find(pat)], [None] standing for [npos]. *)
Fixpoint find (pat s : string) : option nat :=
  if prefix pat s then Some 0
  else match s with
       | EmptyString => None
       | String _ s' => option_map S (find pat s')
       end.

(** [s.find_last_not_of(set)]. *)
Fixpoint find_last_not_of (set : ascii -> bool) (s : string) : option nat :=
  match s with
  | EmptyString => None
  | String a s' =>
      match find_last_not_of set s' with
      | Some i => Some (S i)
      | None => if set a then None else Some 0
      end
  end.

(** [s.erase(pos)]: keeps the first [pos] characters. *)
Definition erase_from (s : string) (pos : nat) : string := substring 0 pos s.

(** [std::string(buffer)] for a zero-filled [char] buffer: the characters
    before the first NUL. *)
Fixpoint c_string (buffer : string) : string :=
  match buffer with
  | EmptyString => EmptyString
  | String a rest =>
      if Ascii.eqb a "000"%char then EmptyString else String a (c_string rest)
  end.

(** One [getline(ss, field, delim)] on the text still unread: the field
    (the delimiter is extracted and dropped) and the text left.  At the end
    of the text the field is empty, as is the string a failed [getline]
    leaves untouched. *)
Fixpoint until_delim (delim : ascii) (s : string) : string * string :=
  match s with
  | EmptyString => (EmptyString, EmptyString)
  | String a s' =>
      if Ascii.eqb a delim then (EmptyString, s')
      else let '(l, r) := until_delim delim s' in (String a l, r)
  end.

(** [while (getline(in, line))]: every line of a text, in order.  A last
    line without its newline is still a line; an empty text has none. *)
Fixpoint lines (s : string) : list string :=
  match s with
  | EmptyString => []
  | String a s' =>
      if Ascii.eqb a "010"%char then EmptyString :: lines s'
      else match lines s' with
           | [] => [String a EmptyString]
           | l :: ls => String a l :: ls
           end
  end.

(** [std::to_string(int)]. *)
Definition to_string (z : Z) : string := NilZero.string_of_int (Z.to_int z).

End StdString.

(** The newline character and the end-of-response marker ([END_MARK]). *)
Definition nl : string := String "010"%char EmptyString.
Definition END_MARK : string := "<<END>>" ++ nl.
Definition BUFFER_SIZE : nat := 4096.
#[global] Arguments nl : simpl never.
#[global] Arguments END_MARK : simpl never.
#[global] Arguments BUFFER_SIZE : simpl never.

(** [int] is a 32-bit two's complement integer. *)
Definition INT_MAX : Z := 2147483647.
Definition int_wrap (z : Z) : Z := ((z + 2 ^ 31) mod 2 ^ 32 - 2 ^ 31)%Z.

(** ** The client socket *)

Module Socket.

(** What the socket has taken so far, which is what a peer that stays
    connected has received, and how long the peer keeps receiving:
    [credit = None] is a peer that stays connected, [credit = Some (n, e)]
    one that leaves.  For a peer that leaves, [n] more [send] calls
    succeed; the [e] calls after them return -1 with the error that is
    pending on the socket ([ECONNRESET] after a reset, [ETIMEDOUT]); every
    call after these gets [EPIPE]. *)
Record conn : Type := mkConn {
  delivered : string;
  credit : option (nat * nat)
}.

(** How a [send] ends: the buffer was taken, the call returned -1, or the
    call raised [SIGPIPE] and did not return. *)
Inductive sent : Type :=
| Taken (c : conn)
| Refused (c : conn)
| Raised.

(** [send(fd, data, size, 0)] on the blocking stream socket: the whole
    buffer is taken, or the call fails.  The flags are 0 in every call of
    the program and the program leaves [SIGPIPE] at its default, so a call
    that gets [EPIPE] raises the signal, which ends the process. *)
Definition send (c : conn) (data : string) : sent :=
  match credit c with
  | None => Taken (mkConn (delivered c ++ data) None)
  | Some (S n, e) => Taken (mkConn (delivered c ++ data) (Some (n, e)))
  | Some (O, S e) => Refused (mkConn (delivered c) (Some (O, e)))
  | Some (O, O) => Raised
  end.

(** What a call gives when the process can end inside it: the call
    returns, or the process was ended by the signal, and [w] is what is
    left at that point. *)
Inductive run (W A : Type) : Type :=
| Returns (a : A)
| Killed (w : W).
#[global] Arguments Returns {W A} a.
#[global] Arguments Killed {W A} w.

(** The rest of a function after a call that returned. *)
Definition bind {W A B : Type} (r : run W A) (rest : A -> run W B)
  : run W B :=
  match r with
  | Returns a => rest a
  | Killed w => Killed w
  end.

(** What is left when the call has returned or the process has ended. *)
Definition final {W : Type} (r : run W W) : W :=
  match r with
  | Returns w => w
  | Killed w => w
  end.

(** A [send] whose result is not looked at. *)
Definition send_on (c : conn) (data : string) : run conn conn :=
  match send c data with
  | Taken c' => Returns c'
  | Refused c' => Returns c'
  | Raised => Killed c
  end.

(** [safe_send]: loops until [totalSent] reaches [data.size()]; with a
    [send] that takes the whole buffer the loop body runs once, and not at
    all for empty data.  The boolean is the result. *)
Definition safe_send (c : conn) (data : string) : run conn (bool * conn) :=
  match data with
  | EmptyString => Returns (true, c)
  | _ =>
      match send c data with
      | Taken c' => Returns (true, c')
      | Refused c' => Returns (false, c')
      | Raised => Killed c
      end
  end.

(** What one [recv(client_fd, buffer, BUFFER_SIZE - 1, 0)] returns: some
    bytes (at most [BUFFER_SIZE - 1] of them), the end of the stream, or an
    error. *)
Inductive recv_result : Type :=
| Received (bytes : string)
| PeerClosed
| RecvFailed.

(** The return value of [recv]. *)
Definition received (r : recv_result) : Z :=
  match r with
  | Received bytes => Z.of_nat (String.length bytes)
  | PeerClosed => 0
  | RecvFailed => (-1)
  end.

(** The buffer after the call (it was zero-filled before). *)
Definition buffer_of (r : recv_result) : string :=
  match r with
  | Received bytes => bytes
  | _ => EmptyString
  end.

End Socket.

Notation "x <- r ;; rest" := (Socket.bind r (fun x => rest))
  (at level 61, r at next level, right associativity).

(** ** The file system as the server probes it *)

Module Posix.

(** The part of [st_mode] the traversal looks at. *)
Inductive file_kind : Type := S_IFDIR | S_IFREG | S_IFOTHER.

Definition S_ISDIR (k : file_kind) : bool :=
  match k with S_IFDIR => true | _ => false end.
Definition S_ISREG (k : file_kind) : bool :=
  match k with S_IFREG => true | _ => false end.

(** An open file: its bytes, the index of the [read] call that fails (if
    one does) and whether [close] fails. *)
Record file_image : Type := mkFile {
  f_bytes : string;
  f_read_error : option nat;
  f_close_error : bool
}.

(** [opendir] followed by the [readdir] loop gives the entry names in
    enumeration order; [stat] gives the kind; [open(path, O_RDONLY)] gives
    the file.  [None] is the failing call. *)
Record filesystem : Type := mkFS {
  opendir : string -> option (list string);
  stat : string -> option file_kind;
  open_rdonly : string -> option file_image
}.

Fixpoint take (n : nat) (s : string) : string :=
  match n, s with
  | S n', String a s' => String a (take n' s')
  | _, _ => EmptyString
  end.

Fixpoint drop (n : nat) (s : string) : string :=
  match n, s with
  | S n', String _ s' => drop n' s'
  | _, _ => s
  end.

Definition fails_at (err : option nat) (k : nat) : bool :=
  match err with
  | Some e => Nat.eqb e k
  | None => false
  end.

(** [while ((bytes = read(fd, buffer, bufsize)) > 0)]: the chunks the loop
    body sees, and whether the loop ended with [bytes == 0] ([true]) or with
    [bytes < 0] ([false]).  [k] counts the [read] calls made so far. *)
Equations? read_loop (bufsize k : nat) (err : option nat) (pending : string)
  : list string * bool by wf (String.length pending) lt :=
  read_loop bufsize k err pending with fails_at err k => {
    | true => ([], false)
    | false with bufsize, pending => {
        | O, _ => ([], true)
        | _, EmptyString => ([], true)
        | S n, String a s =>
            let r := read_loop (S n) (S k) err (drop n s) in
            (String a (take n s) :: fst r, snd r) } }.
Proof.
  clear. revert s. induction n as [|n IH]; intros [|b s]; simpl; try lia.
  specialize (IH s). lia.
Qed.

Definition read_all (bufsize : nat) (f : file_image) : list string * bool :=
  read_loop bufsize 0 (f_read_error f) (f_bytes f).

End Posix.

(** ** DirectoryTraverser::traverse (DCDIU V3.0) *)

Module DirectoryTraverser.
Import Socket Posix.

(** What a traversal reads and writes besides the file system: the client
    socket, the counter passed by reference and the file named by
    [outputFile] ([None] when it cannot be opened for writing; a file that
    can be opened is opened by every frame). *)
Record state : Type := mkState {
  sock : conn;
  fileCount : Z;
  outputFile : option string
}.

Definition set_sock (st : state) (c : conn) : state :=
  mkState c (fileCount st) (outputFile st).

(** [send(client_fd, msg.c_str(), msg.size(), 0)], its result unused. *)
Definition send_to (st : state) (msg : string) : run state state :=
  match send (sock st) msg with
  | Taken c => Returns (set_sock st c)
  | Refused c => Returns (set_sock st c)
  | Raised => Killed st
  end.

(** [fileCount++]. *)
Definition count_file (st : state) : state :=
  mkState (sock st) (int_wrap (fileCount st + 1)) (outputFile st).

(** The frame's own [ofstream out(outputFile, ios::app)].  The stream of
    the GNU C++ library, with which the server is built, has a buffer of
    [BUFSIZ] = 8192 characters of which it fills 8191.  Characters
    inserted with [<<] are kept in the buffer when they are fewer than
    1024 and fewer than the room left in it; otherwise the buffer and the
    characters are written to the end of the file in one [write], and the
    buffer is empty again.  What the buffer holds is [out]. *)
Definition STREAM_ROOM : Z := 8191.
Definition STREAM_CHUNK : Z := 1024.

Definition kept (out s : string) : bool :=
  (Z.of_nat (String.length s)
   <? Z.min STREAM_CHUNK (STREAM_ROOM - Z.of_nat (String.length out)))%Z.

(** One [write] at the end of the file; a stream that did not open writes
    nothing. *)
Definition append_out (st : state) (text : string) : state :=
  mkState (sock st) (fileCount st)
          (option_map (fun file => file ++ text) (outputFile st)).

(** [out << s]. *)
Definition insert (st : state) (out s : string) : state * string :=
  if kept out s then (st, out ++ s)
  else (append_out st (out ++ s), EmptyString).

(** [out.close()]: what is left in the buffer reaches the end of the file,
    so after what the subdirectories the frame went through have written.
    When the process is ended before, what is left in the buffer is
    lost. *)
Definition close_out (st : state) (out : string) : state :=
  append_out st out.

Definition is_dot (d_name : string) : bool :=
  String.eqb d_name "." || String.eqb d_name "..".

(** The [while ((entry = readdir(dir)) != nullptr)] loop of one frame.
    [recurse] is the recursive call, [out] the buffer of the frame's own
    output stream.  [None]: the recursion did not return. *)
Fixpoint entries_loop (fs : filesystem)
  (recurse : string -> state -> option (run state state))
  (basePath : string) (names : list string) (st : state) (out : string)
  : option (run state (state * string)) :=
  match names with
  | [] => Some (Returns (st, out))
  | d_name :: rest =>
      if is_dot d_name then entries_loop fs recurse basePath rest st out
      else
        let fullPath := basePath ++ "/" ++ d_name in
        match stat fs fullPath with
        | None => entries_loop fs recurse basePath rest st out
        | Some mode =>
            if S_ISDIR mode then
              match recurse fullPath st with
              | None => None
              | Some (Killed st') => Some (Killed st')
              | Some (Returns st') =>
                  entries_loop fs recurse basePath rest st' out
              end
            else if S_ISREG mode then
              match send_to (count_file st) ("File: " ++ fullPath ++ nl) with
              | Killed st' => Some (Killed st')
              | Returns st1 =>
                  let '(st2, out1) := insert st1 out fullPath in
                  let '(st3, out2) := insert st2 out1 nl in
                  entries_loop fs recurse basePath rest st3 out2
              end
            else entries_loop fs recurse basePath rest st out
        end
  end.

(** [traverse(basePath, client_fd, fileCount, outputFile)].  The recursion
    follows the file system, which may loop; [fuel] bounds its depth and
    [None] is a traversal that needs more. *)
Fixpoint traverse (fs : filesystem) (fuel : nat) (basePath : string)
  (st : state) : option (run state state) :=
  match fuel with
  | O => None
  | S fuel' =>
      match opendir fs basePath with
      | None => Some (send_to st ("ERROR: Cannot open directory" ++ nl))
      | Some names =>
          match send_to st ("Directory: " ++ basePath ++ nl) with
          | Killed st' => Some (Killed st')
          | Returns st1 =>
              match entries_loop fs (traverse fs fuel') basePath names st1
                                 EmptyString with
              | None => None
              | Some (Killed st') => Some (Killed st')
              | Some (Returns (st2, out)) => Some (Returns (close_out st2 out))
              end
          end
      end
  end.

End DirectoryTraverser.

(** ** Directory trees *)

Module Tree.
Import Socket Posix.

(** Whether a regular file can be opened for reading and, when it can, the
    index of the failing [read] (if one fails) and whether [close] fails. *)
Inductive access : Type :=
| Denied
| Granted (read_error : option nat) (close_error : bool).

(** A directory tree as it is reached from its root: regular files with
    their bytes, other kinds of file, entries whose metadata cannot be
    retrieved, directories that cannot be opened, and directories with their
    entries in enumeration order. *)
#[local] Set Warnings "-register-all".
Inductive tree : Type :=
| RegularFile (bytes : string) (perm : access)
| OtherFile
| NoMetadata
| LockedDir
| Directory (entries : list (string * tree)).

(** What [open(path, O_RDONLY)] gives for a regular file. *)
Definition opened (bytes : string) (perm : access) : option file_image :=
  match perm with
  | Denied => None
  | Granted read_error close_error =>
      Some (mkFile bytes read_error close_error)
  end.

Definition file_kind_eqb (a b : file_kind) : bool :=
  match a, b with
  | S_IFDIR, S_IFDIR | S_IFREG, S_IFREG | S_IFOTHER, S_IFOTHER => true
  | _, _ => false
  end.

Definition stat_is (fs : filesystem) (p : string) (k : file_kind) : bool :=
  match stat fs p with
  | Some k' => file_kind_eqb k k'
  | None => false
  end.

Definition option_nat_eqb (a b : option nat) : bool :=
  match a, b with
  | Some x, Some y => Nat.eqb x y
  | None, None => true
  | _, _ => false
  end.

Definition file_image_eqb (a b : file_image) : bool :=
  String.eqb (f_bytes a) (f_bytes b)
  && option_nat_eqb (f_read_error a) (f_read_error b)
  && Bool.eqb (f_close_error a) (f_close_error b).

Definition open_is (fs : filesystem) (p : string) (image : option file_image)
  : bool :=
  match open_rdonly fs p, image with
  | Some a, Some b => file_image_eqb a b
  | None, None => true
  | _, _ => false
  end.

Fixpoint names_eqb (a b : list string) : bool :=
  match a, b with
  | [], [] => true
  | x :: a', y :: b' => String.eqb x y && names_eqb a' b'
  | _, _ => false
  end.

Definition real_names (names : list string) : list string :=
  filter (fun n => negb (DirectoryTraverser.is_dot n)) names.

(** [entry_at fs t p]: probing the path [p] shows the tree [t]. *)
Fixpoint entry_at (fs : filesystem) (t : tree) (p : string) : bool :=
  match t with
  | RegularFile bytes perm =>
      stat_is fs p S_IFREG && open_is fs p (opened bytes perm)
  | OtherFile => stat_is fs p S_IFOTHER
  | NoMetadata => match stat fs p with None => true | Some _ => false end
  | LockedDir =>
      stat_is fs p S_IFDIR
      && match opendir fs p with None => true | Some _ => false end
  | Directory entries =>
      stat_is fs p S_IFDIR
      && match opendir fs p with
         | None => false
         | Some names =>
             names_eqb (map fst entries) (real_names names)
             && forallb (fun e => entry_at fs (snd e) (p ++ "/" ++ fst e))
                        entries
         end
  end.

(** [root_at fs t p]: the same for the root of a traversal, which is opened
    without being [stat]ed. *)
Definition root_at (fs : filesystem) (t : tree) (p : string) : bool :=
  match t with
  | LockedDir => match opendir fs p with None => true | Some _ => false end
  | Directory entries =>
      match opendir fs p with
      | None => false
      | Some names =>
          names_eqb (map fst entries) (real_names names)
          && forallb (fun e => entry_at fs (snd e) (p ++ "/" ++ fst e))
                     entries
      end
  | _ => false
  end.

(** The number of regular files reachable under a tree. *)
Fixpoint regular_files (t : tree) : Z :=
  match t with
  | RegularFile _ _ => 1
  | Directory entries =>
      fold_right (fun e acc => (regular_files (snd e) + acc)%Z) 0%Z entries
  | _ => 0
  end.

(** The nesting depth of the directories of a tree. *)
Fixpoint depth (t : tree) : nat :=
  match t with
  | Directory entries =>
      S (fold_right (fun e acc => Nat.max (depth (snd e)) acc) 0 entries)
  | LockedDir => 1
  | _ => 0
  end.

(** The regular files under a tree rooted at [p]: path, bytes and access,
    in enumeration order. *)
Fixpoint files_under (t : tree) (p : string)
  : list (string * (string * access)) :=
  match t with
  | RegularFile bytes perm => [(p, (bytes, perm))]
  | Directory entries =>
      flat_map (fun e => files_under (snd e) (p ++ "/" ++ fst e)) entries
  | _ => []
  end.

(** The messages a traversal sends for the tree at [p], in order. *)
Fixpoint messages (t : tree) (p : string) : list string :=
  match t with
  | RegularFile _ _ => ["File: " ++ p ++ nl]
  | Directory entries =>
      ("Directory: " ++ p ++ nl)
      :: flat_map (fun e => messages (snd e) (p ++ "/" ++ fst e)) entries
  | LockedDir => ["ERROR: Cannot open directory" ++ nl]
  | _ => []
  end.

(** The regular files directly in a directory. *)
Definition own_files (entries : list (string * tree)) (p : string)
  : list string :=
  flat_map (fun e => match snd e with
                     | RegularFile _ _ => [p ++ "/" ++ fst e]
                     | _ => []
                     end) entries.

(** The paths of the regular files of a tree in the order they reach the
    output file when every frame keeps its lines in the buffer of its
    stream until it closes it: the lines of a directory come after the
    ones of its subdirectories. *)
Fixpoint listing (t : tree) (p : string) : list string :=
  match t with
  | Directory entries =>
      (flat_map (fun e => listing (snd e) (p ++ "/" ++ fst e)) entries
       ++ own_files entries p)%list
  | _ => []
  end.

(** Path-per-line text. *)
Definition text_of (paths : list string) : string :=
  fold_right (fun path text => path ++ nl ++ text) EmptyString paths.

End Tree.

(** ** ContentScanner::scan (DCDIU_V4.0) *)

Module ContentScanner.
Import Socket Posix.

Definition concat_chunks (chunks : list string) : string :=
  fold_right String.append EmptyString chunks.

(** The body of [while (getline(in, filePath))], [matches] being the vector
    filled so far.  A [throw] leaves the loop for the [catch] block, which
    logs and falls through to [return matches]. *)
Fixpoint scan_loop (fs : filesystem) (pattern : string)
  (paths : list string) (matches : list string) : list string :=
  match paths with
  | [] => matches
  | filePath :: rest =>
      match open_rdonly fs filePath with
      | None => scan_loop fs pattern rest matches
      | Some fd =>
          let '(chunks, eof) := read_all 4096 fd in
          let content := concat_chunks chunks in
          if negb eof then matches
          else
            let matches' :=
              match StdString.find pattern content with
              | Some _ => (matches ++ [filePath])%list
              | None => matches
              end in
            if f_close_error fd then matches'
            else scan_loop fs pattern rest matches'
      end
  end.

(** [scan(inputFile, pattern)]; the argument is the text of the file named
    [inputFile], [None] when it cannot be opened. *)
Definition scan (fs : filesystem) (inputFile : option string)
  (pattern : string) : list string :=
  match inputFile with
  | None => []
  | Some text => scan_loop fs pattern (StdString.lines text) []
  end.

End ContentScanner.

(** ** FileInspector::inspect (DCDIU V4.0) *)

Module FileInspector.
Import Socket Posix.

(** The streaming loop: one [send] per chunk read, left at the first
    [send] that returns -1.  The boolean tells whether every chunk was
    taken. *)
Fixpoint send_chunks (c : conn) (chunks : list string)
  : run conn (bool * conn) :=
  match chunks with
  | [] => Returns (true, c)
  | chunk :: rest =>
      match send c chunk with
      | Taken c' => send_chunks c' rest
      | Refused c' => Returns (false, c')
      | Raised => Killed c
      end
  end.

(** [inspect(filePath, client_fd)].  Every [throw] is caught at the end of
    the function, which logs and returns. *)
Definition inspect (fs : filesystem) (filePath : string) (c : conn)
  : run conn conn :=
  match open_rdonly fs filePath with
  | None => send_on c ("ERROR: Cannot open file" ++ nl ++ END_MARK)
  | Some fd =>
      let '(chunks, eof) := read_all BUFFER_SIZE fd in
      streamed <- send_chunks c chunks ;;
      match streamed with
      | (false, c') => Returns c'
      | (true, c') =>
          if negb eof then Returns c'
          else if f_close_error fd then Returns c'
          else send_on c' END_MARK
      end
  end.

End FileInspector.

(** ** ClientHandler (DCDIU_V4.0) *)

Module ClientHandler.
Import Socket Posix StdString.

(** [data/users.txt]: its text ([None] while the file does not exist),
    whether it can be opened for reading, and whether it can be opened (or
    created) for appending. *)
Record store : Type := mkStore {
  text : option string;
  readable : bool;
  appendable : bool
}.

(** [ifstream usersFile("data/users.txt")]: the text when [is_open()]. *)
Definition read_store (u : store) : option string :=
  if readable u then text u else None.

(** [ofstream out("data/users.txt", ios::app)], [out << record],
    [out.close()]; [None] when the stream is not open. *)
Definition append_store (u : store) (record : string) : option store :=
  if appendable u then
    Some (mkStore (Some (match text u with
                         | Some t => t ++ record
                         | None => record
                         end))
                  (readable u) (appendable u))
  else None.

(** The members of a [ClientHandler] and the two data files it works on.
    [logFile] is the per-session log: [None] while the stream is not open,
    else the lines written so far. *)
Record session : Type := mkSession {
  client_fd : conn;
  username : string;
  logFile : option (list string);
  users_txt : store;
  files_txt : option string
}.

Definition set_client (s : session) (c : conn) : session :=
  mkSession c (username s) (logFile s) (users_txt s) (files_txt s).
Definition set_username (s : session) (u : string) : session :=
  mkSession (client_fd s) u (logFile s) (users_txt s) (files_txt s).
Definition set_logFile (s : session) (l : option (list string)) : session :=
  mkSession (client_fd s) (username s) l (users_txt s) (files_txt s).
Definition set_users (s : session) (u : store) : session :=
  mkSession (client_fd s) (username s) (logFile s) u (files_txt s).
Definition set_files (s : session) (f : option string) : session :=
  mkSession (client_fd s) (username s) (logFile s) (users_txt s) f.

(** [safe_send(client_fd, data)] with its result dropped. *)
Definition reply (s : session) (data : string) : run session session :=
  match safe_send (client_fd s) data with
  | Returns (_, c) => Returns (set_client s c)
  | Killed c => Killed (set_client s c)
  end.

(** [log(message)]. *)
Definition log (s : session) (message : string) : session :=
  match logFile s with
  | Some written => set_logFile s (Some (written ++ [message])%list)
  | None => s
  end.

(** [recv] takes the next result off the connection; a connection with
    nothing more to deliver has been closed by the peer. *)
Definition recv (inbox : list recv_result) : recv_result * list recv_result :=
  match inbox with
  | [] => (PeerClosed, [])
  | r :: rest => (r, rest)
  end.

Definition hex_digit (n : nat) : ascii :=
  match String.get n "0123456789abcdef" with
  | Some a => a
  | None => "0"%char
  end.

(** [ss << hex << setw(2) << setfill('0') << (int)byte] for an
    [unsigned char]. *)
Definition hex2 (byte : ascii) : string :=
  let v := nat_of_ascii byte in
  String (hex_digit (v / 16)) (String (hex_digit (v mod 16)) EmptyString).

Definition SHA256_DIGEST_LENGTH : nat := 32.

Definition charset : string :=
  "0123456789ABCDEFGHIJKLMNOPQRSTUVWXYZabcdefghijklmnopqrstuvwxyz".

(** [sizeof(charset)], which counts the terminating NUL. *)
Definition sizeof_charset : nat := S (String.length charset).

Definition char_at (s : string) (i : nat) : ascii :=
  match String.get i s with
  | Some a => a
  | None => "000"%char
  end.

(** [generateSalt()]; [rd i] is the [i]-th number the generator gives,
    which [dist] brings into [0, sizeof(charset) - 2]. *)
Definition generateSalt (rd : nat -> nat) : string :=
  fold_left (fun salt i =>
               salt ++ String (char_at charset (rd i mod (sizeof_charset - 1)))
                              EmptyString)
            (seq 0 16) EmptyString.

Definition is_crlf (a : ascii) : bool :=
  Ascii.eqb a "010"%char || Ascii.eqb a "013"%char.

(** [string(buffer)], then [find_last_not_of("\n\r")] and, when it finds a
    position, [erase(pos + 1)]. *)
Definition chomp (buffer : string) : string :=
  let s := c_string buffer in
  match find_last_not_of is_crlf s with
  | Some pos => erase_from s (pos + 1)
  | None => s
  end.

(** The three [getline] calls on one line of the store. *)
Definition parse_record (line : string) : string * string * string :=
  let '(storedUser, rest1) := until_delim ":"%char line in
  let '(storedSalt, storedHash) := until_delim ":"%char rest1 in
  (storedUser, storedSalt, storedHash).

Inductive verdict : Type := Match | Mismatch | NotFound.

Section Environment.

(** The file system, OpenSSL's [SHA256] ([None] for its null result, else
    the digest buffer) and whether the session log can be opened. *)
Variable fs : filesystem.
Variable SHA256 : string -> option string.
Variable log_opens : bool.

(** [hashPassword(password)]. *)
Definition hashPassword (password : string) : string :=
  match SHA256 password with
  | None => EmptyString
  | Some hash =>
      fold_left (fun ss i => ss ++ hex2 (char_at hash i))
                (seq 0 SHA256_DIGEST_LENGTH) EmptyString
  end.

(** The [while (getline(usersFile, line))] loop of [authenticate]: it
    returns at the first record whose user field is the user name. *)
Fixpoint lookup (user password : string) (records : list string) : verdict :=
  match records with
  | [] => NotFound
  | line :: rest =>
      let '(storedUser, storedSalt, storedHash) := parse_record line in
      if String.eqb storedUser user then
        if String.eqb (hashPassword (password ++ storedSalt)) storedHash
        then Match else Mismatch
      else lookup user password rest
  end.

(** [logFile.open(logPath, ios::app)]. *)
Definition open_log (s : session) : session :=
  if log_opens then
    match logFile s with
    | Some _ => s
    | None => set_logFile s (Some [])
    end
  else s.

(** [authenticate], from the opening of [data/users.txt] on. *)
Definition check_credentials (rd : nat -> nat) (password : string)
  (s : session) : run session (bool * session) :=
  let records :=
    match read_store (users_txt s) with
    | Some t => lines t
    | None => []
    end in
  match lookup (username s) password records with
  | Match =>
      let s1 := log (open_log s) "User authenticated" in
      s2 <- reply s1 ("Login successful" ++ nl) ;;
      Returns (true, s2)
  | Mismatch =>
      s1 <- reply s ("Incorrect password" ++ nl) ;;
      Returns (false, s1)
  | NotFound =>
      let salt := generateSalt rd in
      let hashed := hashPassword (password ++ salt) in
      match append_store (users_txt s)
                         (username s ++ ":" ++ salt ++ ":" ++ hashed ++ nl) with
      | None => Returns (false, s)
      | Some u =>
          let s1 := log (open_log (set_users s u))
                        "New user registered securely" in
          s2 <- reply s1 ("Account created" ++ nl) ;;
          Returns (true, s2)
      end
  end.

(** [authenticate()]: the result, what is left to receive, and the
    session. *)
Definition authenticate (rd : nat -> nat) (inbox : list recv_result)
  (s : session) : run session (bool * (list recv_result * session)) :=
  match safe_send (client_fd s) "Username: " with
  | Killed c => Killed (set_client s c)
  | Returns (false, c) => Returns (false, (inbox, set_client s c))
  | Returns (true, c) =>
      let s1 := set_client s c in
      let '(r1, inbox1) := recv inbox in
      if (received r1 <=? 0)%Z then Returns (false, (inbox1, s1))
      else
        let s2 := set_username s1 (chomp (buffer_of r1)) in
        match safe_send (client_fd s2) "Password: " with
        | Killed c' => Killed (set_client s2 c')
        | Returns (false, c') => Returns (false, (inbox1, set_client s2 c'))
        | Returns (true, c') =>
            let s3 := set_client s2 c' in
            let '(r2, inbox2) := recv inbox1 in
            if (received r2 <=? 0)%Z then Returns (false, (inbox2, s3))
            else
              let password := chomp (buffer_of r2) in
              checked <- check_credentials rd password s3 ;;
              Returns (fst checked, (inbox2, snd checked))
        end
  end.

(** The session when [authenticate] has returned or the process has
    ended. *)
Definition session_after
  (r : run session (bool * (list recv_result * session))) : session :=
  match r with
  | Returns (_, (_, s)) => s
  | Killed s => s
  end.

(** How one turn of the command loop ends: the loop goes on, [break], an
    exception leaves [handle], or the signal of a [send] ends the
    process. *)
Inductive flow : Type :=
| Next (s : session)
| Break (s : session)
| Throw (s : session)
| Kill (s : session).

(** The turn of a command whose last statement is a [safe_send]. *)
Definition answered (r : run session session) : option flow :=
  match r with
  | Returns s => Some (Next s)
  | Killed s => Some (Kill s)
  end.

(** [ofstream(fileList, ios::trunc).close()]. *)
Definition truncate (file : option string) : option string :=
  option_map (fun _ => EmptyString) file.

(** [DirectoryTraverser::traverse(path, client_fd, fileCount, fileList)]
    with [fileCount = 0] on the truncated list. *)
Definition run_traverse (fuel : nat) (path : string) (s : session)
  : option (run DirectoryTraverser.state DirectoryTraverser.state) :=
  DirectoryTraverser.traverse fs fuel path
    (DirectoryTraverser.mkState (client_fd s) 0 (truncate (files_txt s))).

Definition after_traverse (s : session) (t : DirectoryTraverser.state)
  : session :=
  set_files (set_client s (DirectoryTraverser.sock t))
            (DirectoryTraverser.outputFile t).

(** [for (const auto& file : matches) safe_send(client_fd, file + "\n")]. *)
Fixpoint reply_matches (s : session) (matches : list string)
  : run session session :=
  match matches with
  | [] => Returns s
  | file :: rest =>
      s' <- reply s (file ++ nl) ;;
      reply_matches s' rest
  end.

(** The [TRAVERSE] branch, from the truncation of the path list on.
    [None]: the traversal does not return with this [fuel]. *)
Definition traverse_command (fuel : nat) (path : string) (s : session)
  : option flow :=
  match run_traverse fuel path s with
  | None => None
  | Some (Killed t) => Some (Kill (after_traverse s t))
  | Some (Returns t) =>
      let summary :=
        nl ++ "Total Files: "
           ++ to_string (DirectoryTraverser.fileCount t) ++ nl in
      answered (s1 <- reply (after_traverse s t) summary ;;
                reply s1 END_MARK)
  end.

(** The [SEARCH] branch, from the truncation of the path list on. *)
Definition search_command (fuel : nat) (path pattern : string) (s : session)
  : option flow :=
  match run_traverse fuel path s with
  | None => None
  | Some (Killed t) => Some (Kill (after_traverse s t))
  | Some (Returns t) =>
      let s1 := after_traverse s t in
      let matches := ContentScanner.scan fs (files_txt s1) pattern in
      answered (s2 <- match matches with
                      | [] => reply s1 (nl ++ "No matches found" ++ nl)
                      | _ =>
                          s' <- reply s1 (nl ++ "Matched Files:" ++ nl) ;;
                          reply_matches s' matches
                      end ;;
                reply s2 END_MARK)
  end.

(** The [INSPECT] branch. *)
Definition inspect_command (path : string) (s : session) : option flow :=
  match FileInspector.inspect fs path (client_fd s) with
  | Returns c => Some (Next (set_client s c))
  | Killed c => Some (Kill (set_client s c))
  end.

(** The body of the command loop after [log("Command: " + command)]. *)
Definition dispatch (fuel : nat) (command : string) (s : session)
  : option flow :=
  if compare0 command 8 "TRAVERSE" then
    match substr_from command 9 with
    | None => Some (Throw s)
    | Some path => traverse_command fuel path s
    end
  else if compare0 command 6 "SEARCH" then
    match find_char " "%char 7 command with
    | None => Some (Next s)
    | Some spacePos =>
        match substr command 7 (spacePos - 7),
              substr_from command (spacePos + 1) with
        | Some path, Some pattern => search_command fuel path pattern s
        | _, _ => Some (Throw s)
        end
    end
  else if compare0 command 7 "INSPECT" then
    match substr_from command 8 with
    | None => Some (Throw s)
    | Some path => inspect_command path s
    end
  else if compare0 command 4 "EXIT" then
    Some (Break (log s "Session ended"))
  else
    answered (s1 <- reply s ("ERROR: Unknown command" ++ nl) ;;
              reply s1 END_MARK).

(** How [handle] ends: it closes the socket and returns, an exception
    leaves it, or the process is ended by the signal of a [send]. *)
Inductive ending : Type := Closed | Uncaught | Signalled.

(** The [while (true)] loop of [handle]. *)
Fixpoint command_loop (fuel : nat) (inbox : list recv_result) (s : session)
  : option (ending * session) :=
  match inbox with
  | [] => Some (Closed, s)
  | r :: rest =>
      if (received r <=? 0)%Z then Some (Closed, s)
      else
        let command := c_string (buffer_of r) in
        match dispatch fuel command (log s ("Command: " ++ command)) with
        | None => None
        | Some (Next s') => command_loop fuel rest s'
        | Some (Break s') => Some (Closed, s')
        | Some (Throw s') => Some (Uncaught, s')
        | Some (Kill s') => Some (Signalled, s')
        end
  end.

(** [handle()]. *)
Definition handle (fuel : nat) (rd : nat -> nat) (inbox : list recv_result)
  (s : session) : option (ending * session) :=
  match authenticate rd inbox s with
  | Killed s' => Some (Signalled, s')
  | Returns (false, (_, s')) => Some (Closed, s')
  | Returns (true, (inbox', s')) => command_loop fuel inbox' s'
  end.

End Environment.

End ClientHandler.

(** ** DirectoryTraverser::traverse, the revision with exception handling *)

Module DirectoryTraverserGuarded.
Import Socket Posix DirectoryTraverser.

(** The [catch] block of a frame: after [LOG(FATAL, ...)], which only
    prints, the text of the exception is sent, the result of the [send]
    unused. *)
Definition caught (st : state) (what : string) : run state state :=
  send_to st ("ERROR: " ++ what ++ nl).

Section Environment.

(** [strerror(errno)] after the [opendir] of a path has failed, and the
    name [outputFile] of the path list. *)
Variable strerror : string -> string.
Variable outputName : string.

(** The [readdir] loop of one frame.  The test on a [send] is [< 0]: a
    file whose message was refused is counted and not written
    ([continue]).  [out << fullPath << "\n"] goes through the buffer of the
    frame's stream as in [DirectoryTraverser.insert], and is taken not to
    fail. *)
Fixpoint entries_loop (fs : filesystem)
  (recurse : string -> state -> option (run state state))
  (basePath : string) (names : list string) (st : state) (out : string)
  : option (run state (state * string)) :=
  match names with
  | [] => Some (Returns (st, out))
  | d_name :: rest =>
      if is_dot d_name then entries_loop fs recurse basePath rest st out
      else
        let fullPath := basePath ++ "/" ++ d_name in
        match stat fs fullPath with
        | None => entries_loop fs recurse basePath rest st out
        | Some mode =>
            if S_ISDIR mode then
              match recurse fullPath st with
              | None => None
              | Some (Killed st') => Some (Killed st')
              | Some (Returns st') =>
                  entries_loop fs recurse basePath rest st' out
              end
            else if S_ISREG mode then
              let st1 := count_file st in
              match send (sock st1) ("File: " ++ fullPath ++ nl) with
              | Raised => Some (Killed st1)
              | Refused c =>
                  entries_loop fs recurse basePath rest (set_sock st1 c) out
              | Taken c =>
                  let '(st2, out1) := insert (set_sock st1 c) out fullPath in
                  let '(st3, out2) := insert st2 out1 nl in
                  entries_loop fs recurse basePath rest st3 out2
              end
            else entries_loop fs recurse basePath rest st out
        end
  end.

(** [traverse(basePath, client_fd, fileCount, outputFile)]: every [throw]
    is caught by the frame that raised it, which then returns. *)
Fixpoint traverse (fs : filesystem) (fuel : nat) (basePath : string)
  (st : state) : option (run state state) :=
  match fuel with
  | O => None
  | S fuel' =>
      match opendir fs basePath with
      | None =>
          Some (st1 <- send_to st ("ERROR: Cannot open directory: "
                                     ++ basePath ++ nl) ;;
                caught st1 ("opendir failed: " ++ strerror basePath))
      | Some names =>
          match outputFile st with
          | None =>
              Some (caught st ("Failed to open output file: " ++ outputName))
          | Some _ =>
              match send (sock st) ("Directory: " ++ basePath ++ nl) with
              | Raised => Some (Killed st)
              | Refused c =>
                  Some (caught (set_sock st c)
                               "send() failed while sending directory info")
              | Taken c =>
                  match entries_loop fs (traverse fs fuel') basePath names
                                     (set_sock st c) EmptyString with
                  | None => None
                  | Some (Killed st') => Some (Killed st')
                  | Some (Returns (st2, out)) =>
                      Some (Returns (close_out st2 out))
                  end
              end
          end
      end
  end.

End Environment.

End DirectoryTraverserGuarded.

(** ** ContentScanner::scan (DCDIU V2.0), without exception handling *)

Module ContentScannerPlain.
Import Socket Posix.

(** The body of [while (getline(in, filePath))]: the result of the last
    [read] and the one of [close] are not looked at. *)
Fixpoint scan_loop (fs : filesystem) (pattern : string)
  (paths : list string) (matches : list string) : list string :=
  match paths with
  | [] => matches
  | filePath :: rest =>
      match open_rdonly fs filePath with
      | None => scan_loop fs pattern rest matches
      | Some fd =>
          let content :=
            ContentScanner.concat_chunks (fst (read_all 4096 fd)) in
          scan_loop fs pattern rest
            match StdString.find pattern content with
            | Some _ => (matches ++ [filePath])%list
            | None => matches
            end
      end
  end.

Definition scan (fs : filesystem) (inputFile : option string)
  (pattern : string) : list string :=
  match inputFile with
  | None => []
  | Some text => scan_loop fs pattern (StdString.lines text) []
  end.

End ContentScannerPlain.

(** ** FileInspector::inspect, the revision without error handling *)

Module FileInspectorPlain.
Import Socket Posix.

(** The streaming loop: one [send] per chunk read, no result looked
    at. *)
Fixpoint send_each (c : conn) (chunks : list string) : run conn conn :=
  match chunks with
  | [] => Returns c
  | chunk :: rest =>
      c' <- send_on c chunk ;;
      send_each c' rest
  end.

(** [inspect(filePath, client_fd)]: one [send] per chunk read, then
    [close] and the end marker; no result is looked at but the one of
    [open]. *)
Definition inspect (fs : filesystem) (filePath : string) (c : conn)
  : run conn conn :=
  match open_rdonly fs filePath with
  | None => send_on c ("ERROR: Cannot open file" ++ nl ++ END_MARK)
  | Some fd =>
      c' <- send_each c (fst (read_all BUFFER_SIZE fd)) ;;
      send_on c' END_MARK
  end.

End FileInspectorPlain.

(** ** Logger and ExceptionHandler (DCDIU V4.0) *)

Module Logger.

(** [enum LogLevel { FATAL = 0, INFO = 1, WARNING = 2, DEBUG = 3 }]. *)
Inductive LogLevel : Type := FATAL | INFO | WARNING | DEBUG.

Definition value (level : LogLevel) : nat :=
  match level with FATAL => 0 | INFO => 1 | WARNING => 2 | DEBUG => 3 end.

(** The members of the [Logger] ([logFile] is the path its stream is open
    on, [None] while it is not open), the text of every file and what was
    written to [cout]. *)
Record logger : Type := mkLogger {
  logFile : option string;
  currentLevel : LogLevel;
  logFilePath : string;
  disk : string -> string;
  cout : string
}.

(** [file << text] on the stream open on [path], flushed. *)
Definition write (files : string -> string) (path text : string)
  : string -> string :=
  fun p => if String.eqb p path then files p ++ text else files p.

Definition levelToString (level : LogLevel) : string :=
  match level with
  | FATAL => "FATAL"
  | INFO => "INFO"
  | WARNING => "WARNING"
  | DEBUG => "DEBUG"
  end.

Section Environment.

(** Whether [open(path, ios::app)] succeeds. *)
Variable can_open : string -> bool.

Definition open (path : string) : option string :=
  if can_open path then Some path else None.

(** The constructor, on the files as they are. *)
Definition Logger (files : string -> string) : logger :=
  mkLogger (open "logs/default.log") INFO "logs/default.log" files
           EmptyString.

Definition setLogLevel (level : LogLevel) (lg : logger) : logger :=
  mkLogger (logFile lg) level (logFilePath lg) (disk lg) (cout lg).

Definition setLogFile (filePath : string) (lg : logger) : logger :=
  mkLogger (open filePath) (currentLevel lg) filePath (disk lg) (cout lg).

End Environment.

(** [log(level, operation, message, file, line, function)]; [now] is what
    [getCurrentTimestamp()] returns at the call. *)
Definition log (now : string) (level : LogLevel)
  (operation message file : string) (line : Z) (function : string)
  (lg : logger) : logger :=
  if (value level <=? value (currentLevel lg))%nat then
    let entry :=
      "[" ++ now ++ "] "
      ++ "[" ++ operation ++ "] "
      ++ "[" ++ levelToString level ++ "] "
      ++ "[" ++ file ++ ":" ++ StdString.to_string line ++ "] "
      ++ "[" ++ function ++ "] "
      ++ message in
    mkLogger (logFile lg) (currentLevel lg) (logFilePath lg)
             match logFile lg with
             | Some path => write (disk lg) path (entry ++ nl)
             | None => disk lg
             end
             (cout lg ++ entry ++ nl)
  else lg.

End Logger.

Module ExceptionHandler.

(** [handle(context)]; [errorMsg] is [strerror(errno)] at the call, [file]
    and [line] what [__FILE__] and [__LINE__] are at its [LOG]. *)
Definition handle (now errorMsg file : string) (line : Z) (context : string)
  (lg : Logger.logger) : Logger.logger :=
  let fullMessage := context ++ " | Error: " ++ errorMsg in
  Logger.log now Logger.WARNING "EXCEPTION" fullMessage file line "handle" lg.

End ExceptionHandler.

(** ** safe_send on a socket that takes a part of a buffer *)

Module PartialSend.

(** [safe_send(fd, data)] of the server and of the client, on a stream
    socket for which a [send] may take less than it is given, for calls of
    [send] that return.  [room] holds what the calls to come return at
    most: the number of bytes a call can take, or a value [<= 0] for a
    call that fails; a call fails when [room] is empty.  [delivered] is
    what the peer has received and [unsent] is
    [data.c_str() + totalSent].  The result is the boolean returned, what
    the peer has received then, and the calls left. *)
Fixpoint safe_send (room : list Z) (delivered unsent : string)
  : bool * (string * list Z) :=
  match unsent with
  | EmptyString => (true, (delivered, room))
  | String _ _ =>
      match room with
      | [] => (false, (delivered, []))
      | r :: rest =>
          if (r <=? 0)%Z then (false, (delivered, rest))
          else
            let sent := Nat.min (Z.to_nat r) (String.length unsent) in
            safe_send rest (delivered ++ Posix.take sent unsent)
                      (Posix.drop sent unsent)
      end
  end.

End PartialSend.

(** ** Client::start: the command line and the response loop *)

Module Client.

(** The client's [END_MARK] has no newline. *)
Definition END_MARK : string := "<<END>>".

(** The command built for a menu choice from the lines read with
    [getline]. *)
Definition command (choice : Z) (path pattern : string) : string :=
  if (choice =? 1)%Z then "TRAVERSE " ++ path
  else if (choice =? 2)%Z then "SEARCH " ++ path ++ " " ++ pattern
  else if (choice =? 3)%Z then "INSPECT " ++ path
  else "EXIT".

(** What one [recv(sock, buffer, BUFFER_SIZE - 1, 0)] of the client
    returns: bytes, 0, -1 with [errno == EINTR], or -1 with another
    error. *)
Inductive recv_event : Type :=
| Data (bytes : string)
| EndOfStream
| Interrupted
| Failed.

(** The inner [while (true)] loop: the response gathered when the loop is
    left and what is still to be received, [None] when the function
    returns from inside the loop.  A connection with nothing more to
    deliver has been closed by the peer. *)
Fixpoint response_loop (events : list recv_event) (response : string)
  : option (string * list recv_event) :=
  match events with
  | [] => Some (response, [])
  | Interrupted :: rest => response_loop rest response
  | Failed :: _ => None
  | EndOfStream :: rest => Some (response, rest)
  | Data EmptyString :: rest => Some (response, rest)
  | Data bytes :: rest =>
      let response' := response ++ bytes in
      match StdString.find END_MARK response' with
      | Some _ => Some (response', rest)
      | None => response_loop rest response'
      end
  end.

(** One turn of the main loop from [string response] on: what
    [cout << response] shows, before its [endl], and what is still to be
    received. *)
Definition receive_response (events : list recv_event)
  : option (string * list recv_event) :=
  match response_loop events EmptyString with
  | None => None
  | Some (response, rest) =>
      match StdString.find END_MARK response with
      | Some pos => Some (StdString.erase_from response pos, rest)
      | None => Some (response, rest)
      end
  end.

End Client.

(** ** Vocabulary of the properties *)

Module Props.
Import Socket Posix Tree.

(** [pat] occurs in [s]. *)
Definition contains (pat s : string) : Prop :=
  exists a b, s = a ++ pat ++ b.

(** The concatenation of a sequence of messages. *)
Definition join (msgs : list string) : string :=
  fold_right String.append EmptyString msgs.

(** Every character of [s] satisfies [ok]. *)
Fixpoint all_chars (ok : ascii -> bool) (s : string) : bool :=
  match s with
  | EmptyString => true
  | String a s' => ok a && all_chars ok s'
  end.

(** [c] does not occur in [s]. *)
Definition lacks (c : ascii) (s : string) : bool :=
  all_chars (fun a => negb (Ascii.eqb a c)) s.

Definition between (lo hi : nat) (a : ascii) : bool :=
  (lo <=? nat_of_ascii a)%nat && (nat_of_ascii a <=? hi)%nat.

(** The classes [0-9A-Za-z] and [0-9a-f]. *)
Definition is_alnum (a : ascii) : bool :=
  between 48 57 a || between 65 90 a || between 97 122 a.
Definition is_lower_hex (a : ascii) : bool :=
  between 48 57 a || between 97 102 a.

(** The text is empty or its last character is a newline. *)
Fixpoint fresh_line (t : string) : bool :=
  match t with
  | EmptyString => true
  | String a EmptyString => Ascii.eqb a "010"%char
  | String _ t' => fresh_line t'
  end.

(** No entry name of the tree holds a newline. *)
Fixpoint plain_names (t : tree) : bool :=
  match t with
  | Directory entries =>
      forallb (fun e => lacks "010"%char (fst e) && plain_names (snd e))
              entries
  | _ => true
  end.

(** No regular file of the tree that can be opened fails in [read] or in
    [close]. *)
Fixpoint sound_files (t : tree) : bool :=
  match t with
  | RegularFile _ (Granted read_error close_error) =>
      match read_error with None => negb close_error | Some _ => false end
  | Directory entries => forallb (fun e => sound_files (snd e)) entries
  | _ => true
  end.

(** The text of the store, empty while the file does not exist. *)
Definition store_text (u : ClientHandler.store) : string :=
  match ClientHandler.text u with
  | Some t => t
  | None => EmptyString
  end.

(** The user field of every record of the store, in order. *)
Definition user_field (line : string) : string :=
  fst (fst (ClientHandler.parse_record line)).

Definition users_of (u : ClientHandler.store) : list string :=
  map user_field (StdString.lines (store_text u)).

(** The store holds at most one record per user name, and its last line
    is ended. *)
Definition one_record_per_user (u : ClientHandler.store) : Prop :=
  NoDup (users_of u) /\ fresh_line (store_text u) = true.

(** The records [authenticate] scans. *)
Definition records_read (u : ClientHandler.store) : list string :=
  match ClientHandler.read_store u with
  | Some t => StdString.lines t
  | None => []
  end.

(** The digest as [hashPassword] prints it. *)
Definition hex_of (digest : string) : string :=
  join (map (fun i => ClientHandler.hex2 (ClientHandler.char_at digest i))
            (seq 0 ClientHandler.SHA256_DIGEST_LENGTH)).

(** The file at [path] opens and holds [pattern]. *)
Definition holds_pattern (fs : filesystem) (pattern path : string) : bool :=
  match open_rdonly fs path with
  | Some fd =>
      match StdString.find pattern (f_bytes fd) with
      | Some _ => true
      | None => false
      end
  | None => false
  end.

(** The regular file can be opened and its bytes hold [pattern]. *)
Definition opens_and_holds (pattern : string)
  (file : string * (string * access)) : bool :=
  match snd (snd file) with
  | Denied => false
  | Granted _ _ =>
      match StdString.find pattern (fst (snd file)) with
      | Some _ => true
      | None => false
      end
  end.


(** The file beneath the stream of a frame and the buffer of the stream
    after [out << s]. *)
Definition put (s : string) (stream : option string * string)
  : option string * string :=
  if DirectoryTraverser.kept (snd stream) s
  then (fst stream, snd stream ++ s)
  else (option_map (fun text => text ++ snd stream ++ s) (fst stream),
        EmptyString).

(** The path list after the frame of the tree at [p]: the frame inserts
    the path and the newline of each regular file of the directory into
    its stream, the frames of the subdirectories write in between, and the
    buffer is written when the frame closes the stream. *)
Fixpoint written (t : tree) (p : string) (file : option string)
  : option string :=
  match t with
  | Directory entries =>
      let '(file', out) :=
        fold_left
          (fun stream e =>
             match snd e with
             | RegularFile _ _ => put nl (put (p ++ "/" ++ fst e) stream)
             | _ => (written (snd e) (p ++ "/" ++ fst e) (fst stream),
                     snd stream)
             end) entries (file, EmptyString) in
      option_map (fun text => text ++ out) file'
  | _ => file
  end.

(** The same for one entry and for the entries of a directory. *)
Definition written_entry (p : string) (stream : option string * string)
  (e : string * tree) : option string * string :=
  match snd e with
  | RegularFile _ _ => put nl (put (p ++ "/" ++ fst e) stream)
  | _ => (written (snd e) (p ++ "/" ++ fst e) (fst stream), snd stream)
  end.

Definition written_entries (entries : list (string * tree)) (p : string)
  (stream : option string * string) : option string * string :=
  fold_left (written_entry p) entries stream.

(** The lines of these paths stay in the buffer of a stream until it is
    closed: each path is shorter than 1024 characters and the lines are
    shorter than 8191 characters together. *)
Definition fits (paths : list string) : bool :=
  forallb (fun path =>
             (Z.of_nat (String.length path)
              <? DirectoryTraverser.STREAM_CHUNK)%Z) paths
  && (Z.of_nat (String.length (text_of paths))
      <? DirectoryTraverser.STREAM_ROOM)%Z.

(** In every directory of the tree the lines of the regular files of the
    directory stay in the buffer of its frame. *)
Fixpoint lines_fit (t : tree) (p : string) : bool :=
  match t with
  | Directory entries =>
      fits (own_files entries p)
      && forallb (fun e => lines_fit (snd e) (p ++ "/" ++ fst e)) entries
  | _ => true
  end.



(** The state after a stretch of traversal, to a peer that stays
    connected, that sent [msgs], counted [n] files and left the path list
    as [file]. *)
Definition after (st : DirectoryTraverser.state) (msgs : list string) (n : Z)
  (file : option string) : DirectoryTraverser.state :=
  DirectoryTraverser.mkState
    (mkConn (delivered (DirectoryTraverser.sock st) ++ join msgs) None)
    (int_wrap (DirectoryTraverser.fileCount st + n))
    file.

Definition in_int (z : Z) : Prop := (- 2 ^ 31 <= z <= INT_MAX)%Z.

(** The regular files under the entries of a directory. *)
Definition sum_files (entries : list (string * tree)) : Z :=
  fold_right (fun e acc => (regular_files (snd e) + acc)%Z) 0%Z entries.

(** What the recursive call is known to do on the entries of a
    directory. *)
Definition walks (fs : filesystem) (fuel : nat) (t : tree) : Prop :=
  forall p st,
    root_at fs t p = true -> depth t <= fuel ->
    in_int (DirectoryTraverser.fileCount st) ->
    credit (DirectoryTraverser.sock st) = None ->
    DirectoryTraverser.traverse fs fuel p st
    = Some (Returns (after st (messages t p) (regular_files t)
                           (written t p (DirectoryTraverser.outputFile st)))).


(** The record a registration writes. *)
Definition new_record (SHA256 : string -> option string) (rd : nat -> nat)
  (user password : string) : string :=
  user ++ ":" ++ ClientHandler.generateSalt rd ++ ":"
       ++ ClientHandler.hashPassword SHA256
            (password ++ ClientHandler.generateSalt rd)
       ++ nl.

(** The store with a record appended. *)
Definition with_record (u : ClientHandler.store) (record : string)
  : ClientHandler.store :=
  ClientHandler.mkStore (Some (store_text u ++ record))
                        (ClientHandler.readable u)
                        (ClientHandler.appendable u).

(** The session when the rest of [authenticate] has returned or the
    process has ended in it. *)
Definition checked (r : run ClientHandler.session (bool * ClientHandler.session))
  : ClientHandler.session :=
  match r with
  | Returns (_, s) => s
  | Killed s => s
  end.

(** The session once both prompts were sent to a peer that stays
    connected and the user name was received. *)
Definition prompted (s : ClientHandler.session) (user : string)
  : ClientHandler.session :=
  let sent := delivered (ClientHandler.client_fd s) in
  ClientHandler.set_client
    (ClientHandler.set_username
       (ClientHandler.set_client s (mkConn (sent ++ "Username: ") None))
       user)
    (mkConn ((sent ++ "Username: ") ++ "Password: ") None).

End Props.

(** ** A sample file system, store and sessions *)

Module Samples.
Import Socket Posix Tree ClientHandler.

Definition assoc {A : Type} (table : list (string * A)) (p : string)
  : option A :=
  match List.find (fun e => String.eqb (fst e) p) table with
  | Some e => Some (snd e)
  | None => None
  end.

(** [/srv] holds two regular files (one of them cannot be opened), a
    subdirectory with one file, a dangling entry, a pipe and a directory
    that cannot be opened. *)
Definition srv_fs : filesystem :=
  mkFS
    (assoc [("/srv", ["."; ".."; "a.txt"; "docs"; "b.log"; "gone"; "pipe";
                      "vault"]);
            ("/srv/docs", [".."; "c.txt"; "."])])
    (assoc [("/srv/a.txt", S_IFREG); ("/srv/docs", S_IFDIR);
            ("/srv/b.log", S_IFREG); ("/srv/pipe", S_IFOTHER);
            ("/srv/vault", S_IFDIR); ("/srv/docs/c.txt", S_IFREG)])
    (assoc [("/srv/a.txt", mkFile "hello world" None false);
            ("/srv/docs/c.txt", mkFile "say hello" None false)]).

Definition srv_tree : tree :=
  Directory
    [("a.txt", RegularFile "hello world" (Granted None false));
     ("docs", Directory
                [("c.txt", RegularFile "say hello" (Granted None false))]);
     ("b.log", RegularFile "hello log" Denied);
     ("gone", NoMetadata);
     ("pipe", OtherFile);
     ("vault", LockedDir)].

(** A digest that is its input (padded or cut to the digest length), and a
    generator. *)
Definition toy_digest (s : string) : option string := Some s.
Definition toy_rd (i : nat) : nat := i * 7.

(** A session of a peer that stays connected, before any store exists. *)
Definition fresh_session : session :=
  mkSession (mkConn "" None) "" None (mkStore None true true) (Some "").

(** The same on a store that already has a record for [a]. *)
Definition stored (readable : bool) : session :=
  mkSession (mkConn "" None) "" None
            (mkStore (Some ("a:0123456789ABCDEF:00" ++ nl)) readable true)
            (Some "").

(** The same where the store cannot be opened for appending. *)
Definition sealed_session : session :=
  mkSession (mkConn "" None) "" None (mkStore None true false) (Some "").

(** [/odd] holds a file whose name has a newline in it, a file whose first
    [read] fails and, after them, a file that reads well; all three hold
    the text [key]. *)
Definition odd_fs : filesystem :=
  mkFS
    (assoc [("/odd", ["."; ".."; "x" ++ nl ++ "y"; "bad"; "good"])])
    (assoc [("/odd/x" ++ nl ++ "y", S_IFREG); ("/odd/bad", S_IFREG);
            ("/odd/good", S_IFREG)])
    (assoc [("/odd/x" ++ nl ++ "y", mkFile "key" None false);
            ("/odd/bad", mkFile "key" (Some 0) false);
            ("/odd/good", mkFile "key" None false)]).

(** [/big] holds eight regular files whose paths are 1023 characters
    long, and after them a subdirectory with one file; all nine hold the
    text [key]. *)
Fixpoint filled (n : nat) (c : ascii) : string :=
  match n with
  | O => EmptyString
  | S n' => String c (filled n' c)
  end.

Definition big_names : list string :=
  map (fun c => String c (filled 1017 "x"%char))
      ["a"; "b"; "c"; "d"; "e"; "f"; "g"; "h"]%char.

Definition big_fs : filesystem :=
  mkFS
    (assoc [("/big", (big_names ++ ["sub"])%list); ("/big/sub", ["s.txt"])])
    (assoc (map (fun name => (("/big/" ++ name)%string, S_IFREG)) big_names
            ++ [("/big/sub", S_IFDIR); ("/big/sub/s.txt", S_IFREG)])%list)
    (assoc (map (fun name =>
                   (("/big/" ++ name)%string, mkFile "key" None false))
                big_names
            ++ [("/big/sub/s.txt", mkFile "key" None false)])%list).

Definition big_tree : tree :=
  Directory
    (map (fun name => (name, RegularFile "key" (Granted None false)))
         big_names
     ++ [("sub", Directory
                   [("s.txt", RegularFile "key" (Granted None false))])])%list.

(** A session whose peer takes one more message and has gone then. *)
Definition leaving_session : session :=
  mkSession (mkConn "" (Some (1, 0))) "" None (mkStore None true true)
            (Some "old").

End Samples.


(** ** Vocabulary of the further properties *)

Module MoreProps.
Import Socket Posix Tree Props.


(** The account and the log of a session are those of another. *)
Definition same_account (s s' : ClientHandler.session) : Prop :=
  ClientHandler.users_txt s' = ClientHandler.users_txt s
  /\ ClientHandler.username s' = ClientHandler.username s
  /\ ClientHandler.logFile s' = ClientHandler.logFile s.

(** The connection when the streaming loop has ended or the process has
    ended in it. *)
Definition reached (r : run conn (bool * conn)) : conn :=
  match r with
  | Returns (_, c) => c
  | Killed c => c
  end.





(** The messages the traversal with exception handling sends for the tree
    at [p]: a directory that cannot be opened is announced with its path
    and then with the text of the exception. *)
Fixpoint guarded_messages (strerror : string -> string) (t : tree)
  (p : string) : list string :=
  match t with
  | RegularFile _ _ => ["File: " ++ p ++ nl]
  | Directory entries =>
      ("Directory: " ++ p ++ nl)
      :: flat_map (fun e => guarded_messages strerror (snd e)
                              (p ++ "/" ++ fst e)) entries
  | LockedDir =>
      ["ERROR: Cannot open directory: " ++ p ++ nl;
       "ERROR: " ++ ("opendir failed: " ++ strerror p) ++ nl]
  | _ => []
  end.

(** What the recursive call of the traversal with exception handling is
    known to do on the entries of a directory. *)
Definition guarded_walks (strerror : string -> string) (outputName : string)
  (fs : filesystem) (fuel : nat) (t : tree) : Prop :=
  forall p st,
    root_at fs t p = true -> depth t <= fuel ->
    in_int (DirectoryTraverser.fileCount st) ->
    credit (DirectoryTraverser.sock st) = None ->
    DirectoryTraverser.outputFile st <> None ->
    DirectoryTraverserGuarded.traverse strerror outputName fs fuel p st
    = Some (Returns (after st (guarded_messages strerror t p)
                           (regular_files t)
                           (written t p (DirectoryTraverser.outputFile st)))).

(** The number of newline characters of a text. *)
Fixpoint newlines (s : string) : nat :=
  match s with
  | EmptyString => 0
  | String a s' => (if Ascii.eqb a "010"%char then 1 else 0) + newlines s'
  end.

(** A call of the program on its logger. *)
Inductive logger_call : Type :=
| SetLogLevel (level : Logger.LogLevel)
| Log (now : string) (level : Logger.LogLevel)
      (operation message file : string) (line : Z) (function : string).

Definition run_call (lg : Logger.logger) (call : logger_call)
  : Logger.logger :=
  match call with
  | SetLogLevel level => Logger.setLogLevel level lg
  | Log now level operation message file line function =>
      Logger.log now level operation message file line function lg
  end.

Definition run_calls (calls : list logger_call) (lg : Logger.logger)
  : Logger.logger :=
  fold_left run_call calls lg.

(** The bytes a sequence of [recv] results carries. *)
Fixpoint data_of (events : list Client.recv_event) : string :=
  match events with
  | [] => EmptyString
  | Client.Data bytes :: rest => bytes ++ data_of rest
  | _ :: rest => data_of rest
  end.

End MoreProps.

(** ** More samples *)

Module MoreSamples.
Import Socket Posix Tree ClientHandler Samples.

(** A line ending as a terminal or a telnet client sends it. *)
Definition crlf : string := String "013"%char nl.

(** A session that is past its authentication, with its log open. *)
Definition logged_session : session :=
  mkSession (mkConn "" None) "a" (Some ["User authenticated"])
            (mkStore (Some ("a:0123456789ABCDEF:00" ++ nl)) true true)
            (Some "").

(** The state of a traversal at its start: to a peer that stays
    connected, to one whose connection was reset, and without a path
    list. *)
Definition walk_start : DirectoryTraverser.state :=
  DirectoryTraverser.mkState (mkConn "" None) 0 (Some "").
Definition walk_reset : DirectoryTraverser.state :=
  DirectoryTraverser.mkState (mkConn "" (Some (0, 1))) 0 (Some "").
Definition walk_unlisted : DirectoryTraverser.state :=
  DirectoryTraverser.mkState (mkConn "" None) 0 None.

(** The text of [errno] after an [opendir] without permission. *)
Definition denied (path : string) : string := "Permission denied".

(** The logger as [Server::start] sets it, on a disk where every file
    opens and none exists yet. *)
Definition server_logger : Logger.logger :=
  Logger.setLogLevel Logger.DEBUG
    (Logger.setLogFile (fun _ => true) "logs/server.log"
       (Logger.Logger (fun _ => true) (fun _ => EmptyString))).

(** The path list of [/srv] and the one of [/odd]. *)
Definition srv_list : string :=
  "/srv/docs/c.txt" ++ nl ++ "/srv/a.txt" ++ nl ++ "/srv/b.log" ++ nl.
Definition odd_list : string := "/odd/bad" ++ nl ++ "/odd/good" ++ nl.

(** Two passwords that differ after the 32 bytes a digest holds. *)
Definition long_password (last : string) : string :=
  "0123456789abcdef0123456789abcdef" ++ last.

End MoreSamples.

(* ===================================================================== *)
(** * Part II: properties *)
(* ===================================================================== *)

(** ** Facts about strings *)

Module StringFacts.
Import StdString Props.

Lemma append_nil_r (s : string) : s ++ "" = s.
Proof. induction s as [|a s IH]; simpl; congruence. Qed.

Lemma append_assoc (a b c : string) : (a ++ b) ++ c = a ++ b ++ c.
Proof. induction a as [|x a IH]; simpl; congruence. Qed.

Lemma length_append (a b : string) :
  String.length (a ++ b) = String.length a + String.length b.
Proof. induction a as [|x a IH]; simpl; congruence. Qed.

Lemma append_inv_head (a b c : string) : a ++ b = a ++ c -> b = c.
Proof. induction a as [|x a IH]; simpl; intros H; [assumption|]. injection H. auto. Qed.

Lemma substring_all (s : string) : substring 0 (String.length s) s = s.
Proof. induction s as [|a s IH]; simpl; congruence. Qed.

Lemma substring_skip (a s : string) (n : nat) :
  substring (String.length a) n (a ++ s) = substring 0 n s.
Proof. induction a as [|x a IH]; simpl; auto. Qed.

Lemma substring_prefix (a s : string) :
  substring 0 (String.length a) (a ++ s) = a.
Proof. induction a as [|x a IH]; simpl; [destruct s; reflexivity | congruence]. Qed.

(** [compare(0, len, lit) == 0] with [len] the length of [lit] is the
    prefix test. *)
Lemma compare0_prefix (lit s : string) :
  compare0 s (String.length lit) lit = true <-> exists rest, s = lit ++ rest.
Proof.
  unfold compare0. rewrite String.eqb_eq. split.
  - revert s. induction lit as [|x lit IH]; intros s H.
    + exists s. reflexivity.
    + destruct s as [|y s]; simpl in H; [discriminate|].
      injection H as -> H. destruct (IH s H) as [rest ->].
      exists rest. reflexivity.
  - intros [rest ->]. apply substring_prefix.
Qed.

Lemma substr_from_append (a b : string) :
  substr_from (a ++ b) (String.length a) = Some b.
Proof.
  unfold substr_from, size. rewrite length_append.
  replace (String.length a <=? String.length a + String.length b)%nat with true
    by (symmetry; apply Nat.leb_le; lia).
  replace (String.length a + String.length b - String.length a)
    with (String.length b) by lia.
  rewrite substring_skip, substring_all. reflexivity.
Qed.

Lemma substr_middle (a u r : string) :
  substr (a ++ u ++ r) (String.length a) (String.length u) = Some u.
Proof.
  unfold substr, size. rewrite length_append.
  replace (String.length a <=? String.length a + String.length (u ++ r))%nat
    with true by (symmetry; apply Nat.leb_le; lia).
  rewrite substring_skip, substring_prefix. reflexivity.
Qed.

Lemma prefix_spec (pat s : string) :
  prefix pat s = true <-> exists rest, s = pat ++ rest.
Proof.
  rewrite prefix_correct. fold (compare0 s (String.length pat) pat = true <-> exists rest, s = pat ++ rest).
  rewrite <- compare0_prefix. unfold compare0. rewrite String.eqb_eq. reflexivity.
Qed.

Lemma find_unfold (pat s : string) :
  find pat s = if prefix pat s then Some 0
               else match s with
                    | EmptyString => None
                    | String _ s' => option_map S (find pat s')
                    end.
Proof. destruct s; reflexivity. Qed.

(** [find] finds exactly the patterns that occur. *)
Lemma find_contains (pat s : string) :
  find pat s <> None <-> contains pat s.
Proof.
  unfold contains. induction s as [|x s IH]; rewrite find_unfold.
  - destruct (prefix pat "") eqn:E.
    + split; [intros _|intros _; discriminate].
      apply prefix_spec in E. destruct E as [rest E]. exists "", rest. exact E.
    + split; [congruence|]. intros [a [b H]]. exfalso.
      destruct a; [|discriminate]. simpl in H.
      assert (prefix pat "" = true) by (apply prefix_spec; eauto). congruence.
  - destruct (prefix pat (String x s)) eqn:E.
    + split; [intros _|intros _; discriminate].
      apply prefix_spec in E. destruct E as [rest E]. exists "", rest. exact E.
    + split.
      * intros H. destruct (find pat s) eqn:F; [|simpl in H; congruence].
        destruct IH as [IH _]. destruct IH as [a [b ->]]; [discriminate|].
        exists (String x a), b. reflexivity.
      * intros [a [b H]]. destruct a as [|y a].
        -- simpl in H. assert (prefix pat (String x s) = true)
             by (apply prefix_spec; eauto). congruence.
        -- simpl in H. injection H as -> ->.
           destruct IH as [_ IH]. destruct (find pat (a ++ pat ++ b)); [discriminate|].
           exfalso. apply IH; eauto.
Qed.

Lemma find_char_skip (c : ascii) (a s : string) :
  find_char c (String.length a) (a ++ s)
  = option_map (Nat.add (String.length a)) (find_char c 0 s).
Proof.
  induction a as [|x a IH]; simpl.
  - destruct (find_char c 0 s); reflexivity.
  - rewrite IH. destruct (find_char c 0 s); reflexivity.
Qed.

Lemma find_char_first (c : ascii) (u r : string) :
  lacks c u = true ->
  find_char c 0 (u ++ String c r) = Some (String.length u).
Proof.
  unfold lacks.
  induction u as [|x u IH]; simpl; intros H.
  - rewrite Ascii.eqb_refl. reflexivity.
  - apply andb_prop in H. destruct H as [Hx Hu].
    apply negb_true_iff in Hx. rewrite Hx, (IH Hu). reflexivity.
Qed.

Lemma until_delim_first (c : ascii) (u r : string) :
  lacks c u = true -> until_delim c (u ++ String c r) = (u, r).
Proof.
  unfold lacks.
  induction u as [|x u IH]; simpl; intros H.
  - rewrite Ascii.eqb_refl. reflexivity.
  - apply andb_prop in H. destruct H as [Hx Hu].
    apply negb_true_iff in Hx. rewrite Hx, (IH Hu). reflexivity.
Qed.

Lemma all_chars_append (ok : ascii -> bool) (a b : string) :
  all_chars ok (a ++ b) = all_chars ok a && all_chars ok b.
Proof.
  induction a as [|x a IH]; simpl; [reflexivity|].
  rewrite IH, andb_assoc. reflexivity.
Qed.

Lemma all_chars_weaken (ok ok' : ascii -> bool) (s : string) :
  (forall a, ok a = true -> ok' a = true) ->
  all_chars ok s = true -> all_chars ok' s = true.
Proof.
  intros W. induction s as [|x s IH]; simpl; [reflexivity|].
  intros H. apply andb_prop in H. destruct H as [Hx Hs].
  rewrite (W _ Hx), (IH Hs). reflexivity.
Qed.

(** A line without newline, followed by a newline, is the first line of
    any text that starts with it. *)
Lemma lines_cons (l rest : string) :
  lacks "010"%char l = true ->
  lines (l ++ nl ++ rest) = l :: lines rest.
Proof.
  unfold lacks, nl. induction l as [|x l IH]; intros H; [reflexivity|].
  cbn [all_chars] in H. apply andb_prop in H. destruct H as [Hx Hl].
  apply negb_true_iff in Hx.
  change (lines (String x (l ++ String "010" "" ++ rest))
          = String x l :: lines rest).
  cbn [lines]. rewrite Hx, (IH Hl). reflexivity.
Qed.

Lemma lines_unfold (a : ascii) (s : string) :
  lines (String a s)
  = if Ascii.eqb a "010"%char then "" :: lines s
    else match lines s with
         | [] => [String a ""]
         | l :: ls => String a l :: ls
         end.
Proof. reflexivity. Qed.

Lemma lines_nonempty (a : ascii) (s : string) : lines (String a s) <> [].
Proof.
  rewrite lines_unfold. destruct (Ascii.eqb a "010"); [discriminate|].
  destruct (lines s); discriminate.
Qed.

(** Appending to a text that ends its last line adds lines after the
    lines it has. *)
Lemma lines_append (t rest : string) :
  fresh_line t = true -> lines (t ++ rest) = (lines t ++ lines rest)%list.
Proof.
  induction t as [|x t IH]; intros H; [reflexivity|].
  destruct t as [|y t].
  - simpl in H. apply Ascii.eqb_eq in H. subst x. reflexivity.
  - assert (Ht : fresh_line (String y t) = true) by exact H.
    specialize (IH Ht).
    change (String x (String y t) ++ rest) with (String x (String y t ++ rest)).
    rewrite !(lines_unfold x), IH.
    destruct (Ascii.eqb x "010"); [reflexivity|].
    pose proof (lines_nonempty y t) as N.
    destruct (lines (String y t)); [congruence|reflexivity].
Qed.

Lemma fresh_line_append (t l : string) :
  fresh_line (t ++ l ++ nl) = true.
Proof.
  induction t as [|x t IH].
  - simpl. induction l as [|y l IHl]; [reflexivity|].
    simpl. destruct (l ++ nl) eqn:E; [destruct l; discriminate|exact IHl].
  - change (String x t ++ l ++ nl) with (String x (t ++ l ++ nl)).
    cbn [fresh_line]. destruct (t ++ l ++ nl) eqn:E; [|exact IH].
    destruct t; [destruct l|]; discriminate.
Qed.

End StringFacts.

(** ** The traversal against the tree it walks *)

Module TraversalFacts.
Import Socket Posix Tree Props DirectoryTraverser StringFacts.

(** Induction on trees, with the hypothesis for every entry of a
    directory. *)
Lemma tree_induction (P : tree -> Prop) :
  (forall bytes perm, P (RegularFile bytes perm)) ->
  P OtherFile -> P NoMetadata -> P LockedDir ->
  (forall entries, Forall (fun e => P (snd e)) entries ->
                   P (Directory entries)) ->
  forall t, P t.
Proof.
  intros Hreg Hother Hnometa Hlocked Hdir.
  fix IH 1. intros [bytes perm| | | |entries];
    [apply Hreg|exact Hother|exact Hnometa|exact Hlocked|].
  apply Hdir. revert entries.
  fix IHentries 1. intros [|e entries]; constructor.
  - apply IH.
  - apply IHentries.
Qed.

Lemma int_wrap_in_int (z : Z) : in_int z -> int_wrap z = z.
Proof.
  unfold in_int, int_wrap, INT_MAX. intros H.
  rewrite Z.mod_small; lia.
Qed.

Lemma int_wrap_range (z : Z) : in_int (int_wrap z).
Proof.
  unfold in_int, int_wrap, INT_MAX.
  pose proof (Z.mod_pos_bound (z + 2 ^ 31) (2 ^ 32)). lia.
Qed.

Lemma int_wrap_add (a b : Z) : int_wrap (int_wrap a + b) = int_wrap (a + b).
Proof.
  unfold int_wrap. f_equal.
  replace ((a + 2 ^ 31) mod 2 ^ 32 - 2 ^ 31 + b + 2 ^ 31)%Z
    with ((a + 2 ^ 31) mod 2 ^ 32 + b)%Z by lia.
  rewrite Zplus_mod_idemp_l. f_equal. lia.
Qed.

Lemma text_of_app (a b : list string) :
  text_of (a ++ b) = text_of a ++ text_of b.
Proof.
  induction a as [|x a IH]; simpl; [reflexivity|].
  rewrite IH, !append_assoc. reflexivity.
Qed.

Lemma join_app (a b : list string) : join (a ++ b) = join a ++ join b.
Proof.
  induction a as [|x a IH]; simpl; [reflexivity|].
  rewrite IH, append_assoc. reflexivity.
Qed.

Lemma after_nothing (st : state) :
  in_int (fileCount st) -> credit (sock st) = None ->
  after st [] 0 (outputFile st) = st.
Proof.
  intros H Hpeer. destruct st as [[d k] n file]; unfold after; simpl in *.
  subst k. rewrite Z.add_0_r, (int_wrap_in_int _ H), append_nil_r.
  reflexivity.
Qed.

Lemma after_after (st : state) (m1 m2 : list string) (n1 n2 : Z)
  (f1 f2 : option string) :
  after (after st m1 n1 f1) m2 n2 f2 = after st (m1 ++ m2) (n1 + n2) f2.
Proof.
  unfold after; simpl.
  rewrite join_app, int_wrap_add, Z.add_assoc, append_assoc. reflexivity.
Qed.

Lemma send_to_after (st : state) (msg : string) :
  in_int (fileCount st) -> credit (sock st) = None ->
  send_to st msg = Returns (after st [msg] 0 (outputFile st)).
Proof.
  intros H Hpeer. unfold send_to, send, after. rewrite Hpeer.
  cbn [set_sock join fold_right].
  rewrite Z.add_0_r, (int_wrap_in_int _ H), append_nil_r. reflexivity.
Qed.

Lemma count_file_after (st : state) :
  credit (sock st) = None -> count_file st = after st [] 1 (outputFile st).
Proof.
  intros Hpeer. destruct st as [[d k] n file]; unfold after, count_file.
  simpl in *. subst k. rewrite append_nil_r. reflexivity.
Qed.

Lemma after_in_int (st : state) (msgs : list string) (n : Z)
  (file : option string) : in_int (fileCount (after st msgs n file)).
Proof. apply int_wrap_range. Qed.

(** The stream of a frame, in the state of the traversal and on the path
    list. *)
Lemma insert_put (st : state) (out s : string) :
  insert st out s
  = (mkState (sock st) (fileCount st) (fst (put s (outputFile st, out))),
     snd (put s (outputFile st, out))).
Proof.
  unfold insert, put, append_out. cbn [fst snd].
  destruct (kept out s); [destruct st|]; reflexivity.
Qed.

Lemma put_kept (s out : string) (file : option string) :
  (Z.of_nat (String.length s) < STREAM_CHUNK)%Z ->
  (Z.of_nat (String.length (out ++ s)) < STREAM_ROOM)%Z ->
  put s (file, out) = (file, out ++ s).
Proof.
  intros Hs Hroom. unfold put, kept. cbn [fst snd].
  rewrite length_append in Hroom.
  destruct (Z.ltb_spec (Z.of_nat (String.length s))
              (Z.min STREAM_CHUNK (STREAM_ROOM - Z.of_nat (String.length out))));
    [reflexivity|lia].
Qed.

Lemma regular_files_nonneg (t : tree) : (0 <= regular_files t)%Z.
Proof.
  induction t as [| | | |entries IH] using tree_induction; simpl; try lia.
  induction IH as [|e es He _ IHes]; simpl; lia.
Qed.

Lemma sum_files_nonneg (entries : list (string * tree)) :
  (0 <= sum_files entries)%Z.
Proof.
  induction entries as [|e es IH]; simpl; [lia|].
  pose proof (regular_files_nonneg (snd e)). lia.
Qed.

Lemma names_eqb_eq (a b : list string) : names_eqb a b = true -> a = b.
Proof.
  revert b. induction a as [|x a IH]; intros [|y b] H; simpl in H;
    try discriminate; [reflexivity|].
  apply andb_prop in H. destruct H as [Hx Hab].
  apply String.eqb_eq in Hx. rewrite Hx, (IH _ Hab). reflexivity.
Qed.

Lemma stat_is_eq (fs : filesystem) (p : string) (k : file_kind) :
  stat_is fs p k = true -> stat fs p = Some k.
Proof.
  unfold stat_is. destruct (stat fs p) as [k'|]; [|discriminate].
  destruct k, k'; simpl; congruence.
Qed.

(** An entry that shows a directory is a root for the recursive call. *)
Lemma entry_at_root (fs : filesystem) (t : tree) (p : string) :
  entry_at fs t p = true ->
  match t with
  | LockedDir | Directory _ => stat fs p = Some S_IFDIR /\ root_at fs t p = true
  | RegularFile _ _ => stat fs p = Some S_IFREG
  | OtherFile => stat fs p = Some S_IFOTHER
  | NoMetadata => stat fs p = None
  end.
Proof.
  destruct t; cbn [entry_at root_at]; intros H.
  - apply andb_prop in H. destruct H as [H _]. apply stat_is_eq; exact H.
  - apply stat_is_eq; exact H.
  - destruct (stat fs p); [discriminate|reflexivity].
  - apply andb_prop in H. destruct H as [H1 H2]. split; [apply stat_is_eq|]; assumption.
  - apply andb_prop in H. destruct H as [H1 H2]. split; [apply stat_is_eq|]; assumption.
Qed.

Section Walk.

Variable fs : filesystem.

Lemma traverse_unfold (fuel : nat) (p : string) (st : state) :
  traverse fs (S fuel) p st
  = match opendir fs p with
    | None => Some (send_to st ("ERROR: Cannot open directory" ++ nl))
    | Some names =>
        match send_to st ("Directory: " ++ p ++ nl) with
        | Killed st' => Some (Killed st')
        | Returns st1 =>
            match entries_loop fs (traverse fs fuel) p names st1 "" with
            | None => None
            | Some (Killed st') => Some (Killed st')
            | Some (Returns (st2, out)) => Some (Returns (close_out st2 out))
            end
        end
    end.
Proof. reflexivity. Qed.

Lemma entries_loop_cons
  (recurse : string -> state -> option (run state state))
  (base d_name : string) (rest : list string) (st : state) (out : string) :
  entries_loop fs recurse base (d_name :: rest) st out
  = if is_dot d_name then entries_loop fs recurse base rest st out
    else
      match stat fs (base ++ "/" ++ d_name) with
      | None => entries_loop fs recurse base rest st out
      | Some mode =>
          if S_ISDIR mode then
            match recurse (base ++ "/" ++ d_name) st with
            | None => None
            | Some (Killed st') => Some (Killed st')
            | Some (Returns st') => entries_loop fs recurse base rest st' out
            end
          else if S_ISREG mode then
            match send_to (count_file st)
                          ("File: " ++ (base ++ "/" ++ d_name) ++ nl) with
            | Killed st' => Some (Killed st')
            | Returns st1 =>
                let '(st2, out1) := insert st1 out (base ++ "/" ++ d_name) in
                let '(st3, out2) := insert st2 out1 nl in
                entries_loop fs recurse base rest st3 out2
            end
          else entries_loop fs recurse base rest st out
      end.
Proof. reflexivity. Qed.

Lemma entries_loop_tree (fuel : nat) (base : string) :
  forall (names : list string) (entries : list (string * tree))
         (st : state) (out : string),
    Forall (fun e => walks fs fuel (snd e)) entries ->
    map fst entries = real_names names ->
    forallb (fun e => entry_at fs (snd e) (base ++ "/" ++ fst e)) entries = true ->
    (forall e, In e entries -> depth (snd e) <= fuel) ->
    in_int (fileCount st) ->
    credit (sock st) = None ->
    entries_loop fs (traverse fs fuel) base names st out
    = Some (Returns
              (after st
                 (flat_map (fun e => messages (snd e) (base ++ "/" ++ fst e))
                           entries)
                 (sum_files entries)
                 (fst (written_entries entries base (outputFile st, out))),
               snd (written_entries entries base (outputFile st, out)))).
Proof.
  induction names as [|d_name names IH];
    intros entries st out Hw Hn Hat Hd Hc Hpeer.
  - destruct entries; [|discriminate]. simpl.
    rewrite (after_nothing _ Hc Hpeer). reflexivity.
  - rewrite entries_loop_cons. unfold real_names in Hn. cbn [filter] in Hn.
    destruct (is_dot d_name) eqn:Edot; cbn [negb] in Hn.
    + apply IH; assumption.
    + destruct entries as [|[n t] entries]; [discriminate|].
      cbn [map fst] in Hn. injection Hn as -> Hn.
      cbn [forallb snd fst] in Hat. apply andb_prop in Hat. destruct Hat as [Ht Hat].
      inversion Hw as [|? ? Hwt Hw']; subst. cbn [snd] in Hwt.
      assert (Hdt : depth t <= fuel) by (apply (Hd (d_name, t)); left; reflexivity).
      assert (Hd' : forall e, In e entries -> depth (snd e) <= fuel)
        by (intros e He; apply Hd; right; exact He).
      pose proof (entry_at_root fs t _ Ht) as Hroot.
      cbn [flat_map sum_files fold_right snd fst].
      fold (sum_files entries).
      unfold written_entries. cbn [fold_left].
      fold (written_entries entries base
              (written_entry base (outputFile st, out) (d_name, t))).
      destruct t as [bytes perm| | | |sub].
      * rewrite Hroot. cbn [S_ISDIR S_ISREG].
        rewrite (count_file_after _ Hpeer).
        rewrite send_to_after by (try apply after_in_int; reflexivity).
        rewrite after_after, !insert_put.
        cbn [sock fileCount outputFile after fst snd].
        match goal with
        | |- entries_loop _ _ _ _ ?st3 _ = _ =>
            change st3
              with (after st ["File: " ++ (base ++ "/" ++ d_name) ++ nl] 1
                      (fst (put nl (put (base ++ "/" ++ d_name)
                                        (outputFile st, out)))))
        end.
        rewrite (IH entries); try assumption; try apply after_in_int;
          try reflexivity.
        rewrite after_after. cbn [messages regular_files app after outputFile].
        unfold written_entry. cbn [snd fst].
        rewrite <- surjective_pairing. reflexivity.
      * rewrite Hroot. cbn [S_ISDIR S_ISREG].
        rewrite (IH entries); try assumption.
        cbn [messages regular_files app]. reflexivity.
      * rewrite Hroot.
        rewrite (IH entries); try assumption.
        cbn [messages regular_files app]. reflexivity.
      * destruct Hroot as [Hstat Hroot]. rewrite Hstat. cbn [S_ISDIR].
        rewrite (Hwt _ st Hroot Hdt Hc Hpeer).
        rewrite (IH entries); try assumption; try apply after_in_int;
          try reflexivity.
        rewrite after_after. reflexivity.
      * destruct Hroot as [Hstat Hroot]. rewrite Hstat. cbn [S_ISDIR].
        rewrite (Hwt _ st Hroot Hdt Hc Hpeer).
        rewrite (IH entries); try assumption; try apply after_in_int;
          try reflexivity.
        rewrite after_after. reflexivity.
Qed.

Lemma depth_entry (entries : list (string * tree)) (e : string * tree) :
  In e entries ->
  depth (snd e)
  <= fold_right (fun e acc => Nat.max (depth (snd e)) acc) 0 entries.
Proof.
  induction entries as [|x entries IH]; intros H; [contradiction|].
  destruct H as [->|H]; simpl; [lia|]. specialize (IH H). lia.
Qed.

Lemma written_directory (entries : list (string * tree)) (p : string)
  (file : option string) :
  written (Directory entries) p file
  = option_map
      (fun text => text ++ snd (written_entries entries p (file, "")))
      (fst (written_entries entries p (file, ""))).
Proof.
  cbn [written]. fold (written_entry p).
  fold (written_entries entries p (file, "")).
  destruct (written_entries entries p (file, "")). reflexivity.
Qed.

(** With fuel for the depth of the tree, the traversal returns to a peer
    that stays connected, having sent the messages of the tree, counted its
    regular files and written the path list through the streams of its
    frames. *)
Lemma traverse_tree (t : tree) : forall fuel, walks fs fuel t.
Proof.
  induction t as [bytes perm| | | |entries IH] using tree_induction;
    intros fuel p st Hroot Hdepth Hc Hpeer; try discriminate.
  - destruct fuel as [|fuel]; [simpl in Hdepth; lia|].
    rewrite traverse_unfold. cbn [root_at] in Hroot.
    destruct (opendir fs p); [discriminate|].
    rewrite (send_to_after _ _ Hc Hpeer). reflexivity.
  - destruct fuel as [|fuel]; [simpl in Hdepth; lia|].
    rewrite traverse_unfold. cbn [root_at] in Hroot.
    destruct (opendir fs p) as [names|]; [|discriminate].
    apply andb_prop in Hroot. destruct Hroot as [Hn Hat].
    apply names_eqb_eq in Hn.
    rewrite (send_to_after _ _ Hc Hpeer).
    rewrite (entries_loop_tree fuel p names entries).
    + rewrite written_directory. unfold close_out, append_out.
      cbn [after sock fileCount outputFile].
      cbn [messages regular_files app join fold_right].
      fold (sum_files entries).
      rewrite Z.add_0_r, int_wrap_add.
      unfold after. cbn [sock fileCount delivered join fold_right].
      rewrite append_nil_r, !append_assoc. reflexivity.
    + apply Forall_forall. intros e He.
      rewrite Forall_forall in IH. apply IH. exact He.
    + exact Hn.
    + exact Hat.
    + intros e He. apply depth_entry in He. cbn [depth] in Hdepth. lia.
    + apply after_in_int.
    + reflexivity.
Qed.

End Walk.

(** When the lines of every directory stay in the buffer of its frame, the
    path list grows by the listing of the tree. *)
Lemma text_of_cons (path : string) (paths : list string) :
  text_of (path :: paths) = path ++ nl ++ text_of paths.
Proof. reflexivity. Qed.

Lemma written_entries_fit (p : string) (file : option string) :
  forall (entries : list (string * tree)) (out : string),
    Forall (fun e => forall q f,
              lines_fit (snd e) q = true ->
              written (snd e) q f
              = option_map (fun text => text ++ text_of (listing (snd e) q)) f)
           entries ->
    forallb (fun path => (Z.of_nat (String.length path) <? STREAM_CHUNK)%Z)
            (own_files entries p) = true ->
    (Z.of_nat (String.length (out ++ text_of (own_files entries p)))
     < STREAM_ROOM)%Z ->
    forallb (fun e => lines_fit (snd e) (p ++ "/" ++ fst e)) entries = true ->
    written_entries entries p (file, out)
    = (option_map
         (fun text =>
            text ++ text_of (flat_map (fun e => listing (snd e)
                                                  (p ++ "/" ++ fst e))
                                      entries)) file,
       out ++ text_of (own_files entries p)).
Proof.
  intros entries. revert file.
  induction entries as [|[name t] entries IH];
    intros file out Hsub Hshort Hroom Hfit.
  - cbn. rewrite append_nil_r. destruct file; cbn; [rewrite append_nil_r|];
      reflexivity.
  - inversion Hsub as [|? ? Ht Hsub']; subst. cbn [snd] in Ht.
    cbn [forallb snd fst] in Hfit. apply andb_prop in Hfit.
    destruct Hfit as [Hfit_t Hfit].
    unfold written_entries. cbn [fold_left].
    fold (written_entries entries p (written_entry p (file, out) (name, t))).
    unfold written_entry. cbn [snd fst flat_map].
    assert (Hother : forall kind : tree,
              own_files ((name, kind) :: entries) p
              = (match kind with
                 | RegularFile _ _ => [(p ++ "/" ++ name)%string]
                 | _ => []
                 end ++ own_files entries p)%list) by reflexivity.
    rewrite Hother in Hshort, Hroom. rewrite Hother.
    destruct t as [bytes perm| | | |sub].
    + cbn [app forallb] in Hshort. apply andb_prop in Hshort.
      destruct Hshort as [Hpath Hshort]. apply Z.ltb_lt in Hpath.
      cbn [app] in Hroom. rewrite text_of_cons in Hroom.
      rewrite !length_append in Hroom.
      assert (Hnl : String.length nl = 1) by reflexivity.
      rewrite Hnl in Hroom.
      rewrite put_kept; [|exact Hpath|rewrite !length_append; lia].
      rewrite put_kept;
        [|unfold STREAM_CHUNK; rewrite Hnl; lia
         |rewrite !length_append, Hnl; lia].
      rewrite IH; try assumption.
      * cbn [listing app]. rewrite text_of_cons, !append_assoc. reflexivity.
      * rewrite !length_append, Hnl. lia.
    + cbn [written listing app]. cbn [app] in Hshort, Hroom.
      apply IH; assumption.
    + cbn [written listing app]. cbn [app] in Hshort, Hroom.
      apply IH; assumption.
    + cbn [written listing app]. cbn [app] in Hshort, Hroom.
      apply IH; assumption.
    + cbn [app] in Hshort, Hroom.
      rewrite (Ht _ _ Hfit_t). rewrite IH; try assumption.
      destruct file; cbn [option_map]; [|reflexivity].
      rewrite text_of_app, append_assoc. reflexivity.
Qed.

Lemma written_fit (t : tree) :
  forall p file,
    lines_fit t p = true ->
    written t p file
    = option_map (fun text => text ++ text_of (listing t p)) file.
Proof.
  induction t as [bytes perm| | | |entries IH] using tree_induction;
    intros p file Hfit;
    try (cbn; destruct file; cbn; [rewrite append_nil_r|]; reflexivity).
  rewrite written_directory. cbn [lines_fit] in Hfit.
  apply andb_prop in Hfit. destruct Hfit as [Hown Hsub].
  unfold fits in Hown. apply andb_prop in Hown.
  destruct Hown as [Hshort Hroom]. apply Z.ltb_lt in Hroom.
  rewrite (written_entries_fit p file entries "" IH Hshort Hroom Hsub).
  cbn [fst snd listing]. destruct file; cbn [option_map]; [|reflexivity].
  rewrite text_of_app, append_assoc. reflexivity.
Qed.

End TraversalFacts.

(** ** What reaches a peer that stays connected *)

Module SocketFacts.
Import Socket Tree Props StringFacts.

Lemma send_connected (c : conn) (data : string) :
  credit c = None -> send c data = Taken (mkConn (delivered c ++ data) None).
Proof. unfold send. intros ->. reflexivity. Qed.

Lemma send_on_connected (c : conn) (data : string) :
  credit c = None ->
  send_on c data = Returns (mkConn (delivered c ++ data) None).
Proof. intros H. unfold send_on. now rewrite (send_connected _ _ H). Qed.

Lemma safe_send_connected (c : conn) (data : string) :
  credit c = None ->
  safe_send c data = Returns (true, mkConn (delivered c ++ data) None).
Proof.
  intros H. destruct data as [|a data].
  - simpl. rewrite append_nil_r. destruct c as [d k]. simpl in H. subst k.
    reflexivity.
  - unfold safe_send. now rewrite (send_connected _ _ H).
Qed.

End SocketFacts.

(** ** Failures inside a traversal *)

Module ContainmentFacts.
Import Socket Posix Tree Props DirectoryTraverser StringFacts TraversalFacts.

Lemma flat_map_middle (A B : Type) (f : A -> list B) (before later : list A)
  (x : A) :
  flat_map f (before ++ x :: later)
  = (flat_map f before ++ f x ++ flat_map f later)%list.
Proof. rewrite flat_map_app. reflexivity. Qed.

Lemma sum_files_middle (before later : list (string * tree))
  (e : string * tree) :
  sum_files (before ++ e :: later)
  = (sum_files before + regular_files (snd e) + sum_files later)%Z.
Proof.
  induction before as [|x before IH].
  - cbn [app sum_files fold_right]. fold (sum_files later). lia.
  - change (sum_files ((x :: before) ++ e :: later))
      with (regular_files (snd x) + sum_files (before ++ e :: later))%Z.
    change (sum_files (x :: before))
      with (regular_files (snd x) + sum_files before)%Z.
    rewrite IH. lia.
Qed.

(** An entry that is no regular file and under which nothing is listed
    leaves the path list as it is. *)
Lemma written_entries_middle (p : string) (before later : list (string * tree))
  (e : string * tree) (stream : option string * string) :
  (forall file, written_entry p file e = file) ->
  written_entries (before ++ e :: later) p stream
  = written_entries (before ++ later) p stream.
Proof.
  intros He. unfold written_entries. rewrite !fold_left_app.
  cbn [fold_left]. rewrite He. reflexivity.
Qed.

(** C8. A directory that cannot be opened makes [traverse] announce the
    error to the peer and return, the counter and the path list being as
    they were.  When it is an entry of a directory that is traversed, or
    when the [stat] of an entry fails, the traversal of that directory
    goes on and returns: the peer receives the lines of the entries before
    it, the announcement [ERROR: Cannot open directory] for the directory
    (nothing for the entry without metadata) and then the lines of the
    entries after it; the counter has grown by the regular files under the
    other entries, and the path list is the one of the directory without
    the entry.  The peer stays connected. *)
Theorem traversal_failures_are_contained
  (fs : filesystem) (fuel : nat) (basePath name : string)
  (before later : list (string * tree)) (st : state) :
  credit (sock st) = None ->
  in_int (fileCount st) ->
  (opendir fs basePath = None ->
   traverse fs (S fuel) basePath st
   = Some (Returns
             (mkState (mkConn (delivered (sock st)
                               ++ "ERROR: Cannot open directory" ++ nl) None)
                      (fileCount st) (outputFile st))))
  /\ (forall failing : tree,
        failing = LockedDir \/ failing = NoMetadata ->
        root_at fs (Directory (before ++ (name, failing) :: later)) basePath
        = true ->
        depth (Directory (before ++ (name, failing) :: later)) <= fuel ->
        exists st',
          traverse fs fuel basePath st = Some (Returns st')
          /\ delivered (sock st')
             = delivered (sock st) ++ "Directory: " ++ basePath ++ nl
               ++ join (flat_map (fun e => messages (snd e)
                                             (basePath ++ "/" ++ fst e))
                                 before)
               ++ match failing with
                  | LockedDir => "ERROR: Cannot open directory" ++ nl
                  | _ => ""
                  end
               ++ join (flat_map (fun e => messages (snd e)
                                             (basePath ++ "/" ++ fst e))
                                 later)
          /\ credit (sock st') = None
          /\ fileCount st'
             = int_wrap (fileCount st + sum_files before + sum_files later)
          /\ outputFile st'
             = written (Directory (before ++ later)) basePath
                       (outputFile st)).
Proof.
  intros Hpeer Hc. split.
  - intros H. rewrite traverse_unfold, H.
    rewrite (send_to_after _ _ Hc Hpeer). unfold after.
    cbn [join fold_right]. rewrite Z.add_0_r, (int_wrap_in_int _ Hc).
    rewrite append_nil_r. reflexivity.
  - intros failing Hfailing Hroot Hdepth.
    rewrite (traverse_tree fs _ fuel basePath st Hroot Hdepth Hc Hpeer).
    eexists. split; [reflexivity|].
    cbn [after sock fileCount outputFile delivered credit].
    cbn [messages regular_files].
    fold (sum_files (before ++ (name, failing) :: later)).
    rewrite flat_map_middle, sum_files_middle, !written_directory.
    rewrite (written_entries_middle basePath before later (name, failing))
      by (intros file; destruct Hfailing as [-> | ->]; destruct file;
          reflexivity).
    cbn [join fold_right snd fst]. rewrite !join_app.
    destruct Hfailing as [-> | ->];
      cbn [messages regular_files join fold_right];
      rewrite ?append_nil_r, ?Z.add_0_r, ?append_assoc; repeat split;
      f_equal; lia.
Qed.

End ContainmentFacts.

(** ** The commands of a session *)

Module CommandFacts.
Import Socket Posix Tree Props StdString StringFacts SocketFacts.
Import DirectoryTraverser TraversalFacts ClientHandler.

Lemma reply_connected (s : session) (data : string) :
  credit (client_fd s) = None ->
  reply s data
  = Returns (set_client s (mkConn (delivered (client_fd s) ++ data) None)).
Proof.
  intros H. unfold reply. rewrite (safe_send_connected _ _ H). reflexivity.
Qed.

(** The traversal a command runs, on a directory that shows a tree: it
    returns to a peer that stays connected, and leaves the messages and the
    count of the tree and the path list its frames have written. *)
Lemma run_traverse_tree (fs : filesystem) (t : tree) (root : string)
  (fuel : nat) (s : session) :
  root_at fs t root = true -> depth t <= fuel ->
  credit (client_fd s) = None ->
  run_traverse fs fuel root s
  = Some (Returns
            (after (mkState (client_fd s) 0 (truncate (files_txt s)))
                   (messages t root) (regular_files t)
                   (written t root (truncate (files_txt s))))).
Proof.
  intros Hroot Hdepth Hpeer. unfold run_traverse.
  apply traverse_tree; try assumption.
  unfold in_int, INT_MAX; cbn [fileCount]; lia.
Qed.

(** The [TRAVERSE] branch on such a directory. *)
Lemma traverse_command_tree (fs : filesystem) (t : tree) (root : string)
  (fuel : nat) (s : session) :
  root_at fs t root = true -> depth t <= fuel ->
  credit (client_fd s) = None ->
  traverse_command fs fuel root s
  = Some (Next (mkSession
                  (mkConn (delivered (client_fd s) ++ join (messages t root)
                           ++ (nl ++ "Total Files: "
                                  ++ to_string (int_wrap (regular_files t))
                                  ++ nl)
                           ++ END_MARK) None)
                  (username s) (logFile s) (users_txt s)
                  (written t root (truncate (files_txt s))))).
Proof.
  intros Hroot Hdepth Hpeer. unfold traverse_command.
  rewrite (run_traverse_tree fs t root fuel s Hroot Hdepth Hpeer).
  cbv zeta. rewrite reply_connected by reflexivity.
  cbn [bind]. rewrite reply_connected by reflexivity.
  cbn [answered after_traverse set_files set_client client_fd after sock
       fileCount outputFile delivered username logFile users_txt files_txt].
  rewrite Z.add_0_l, !append_assoc. reflexivity.
Qed.

(** C1. On a directory that shows the tree [T] (so without cycles), with
    fuel for its depth, a [TRAVERSE] line for its root is answered, to a
    peer that stays connected, by the messages of the traversal, the
    summary with the number of regular files reachable under the root, and
    the end marker; the number is within [int]. *)
Theorem traverse_reports_the_regular_files
  (fs : filesystem) (T : tree) (root : string) (sep : ascii)
  (fuel : nat) (s : session) :
  root_at fs T root = true ->
  depth T <= fuel ->
  (regular_files T <= INT_MAX)%Z ->
  credit (client_fd s) = None ->
  exists s',
    dispatch fs fuel ("TRAVERSE" ++ String sep root) s = Some (Next s')
    /\ delivered (client_fd s')
       = delivered (client_fd s) ++ join (messages T root)
         ++ nl ++ "Total Files: " ++ to_string (regular_files T) ++ nl
         ++ END_MARK.
Proof.
  intros Hroot Hdepth Hmax Hpeer. unfold dispatch.
  assert (Hverb : compare0 ("TRAVERSE" ++ String sep root) 8 "TRAVERSE" = true)
    by (apply (compare0_prefix "TRAVERSE"); eexists; reflexivity).
  rewrite Hverb.
  change ("TRAVERSE" ++ String sep root)
    with (("TRAVERSE" ++ String sep "") ++ root).
  change 9 with (String.length ("TRAVERSE" ++ String sep "")).
  rewrite substr_from_append.
  rewrite (traverse_command_tree fs T root fuel s Hroot Hdepth Hpeer).
  eexists. split; [reflexivity|].
  cbn [client_fd delivered].
  rewrite int_wrap_in_int, !append_assoc; [reflexivity|].
  pose proof (regular_files_nonneg T). unfold in_int, INT_MAX in *. lia.
Qed.

End CommandFacts.

(** ** Reading and streaming a file *)

Module StreamFacts.
Import Socket Posix Props StdString StringFacts SocketFacts.
Import FileInspector ClientHandler.

Lemma take_drop (n : nat) (s : string) : take n s ++ drop n s = s.
Proof.
  revert s. induction n as [|n IH]; intros [|a s]; simpl; try reflexivity.
  rewrite IH. reflexivity.
Qed.

Lemma read_loop_unfold (bufsize k : nat) (err : option nat) (pending : string) :
  read_loop bufsize k err pending
  = if fails_at err k then ([], false)
    else match bufsize, pending with
         | O, _ => ([], true)
         | _, EmptyString => ([], true)
         | S n, String a s =>
             let r := read_loop (S n) (S k) err (drop n s) in
             (String a (take n s) :: fst r, snd r)
         end.
Proof.
  simp read_loop. destruct (fails_at err k); cbn.
  - reflexivity.
  - destruct bufsize, pending; reflexivity.
Qed.

Lemma drop_length (n : nat) (s : string) :
  String.length (drop n s) <= String.length s.
Proof.
  revert s. induction n as [|n IH]; intros [|a s]; simpl; try lia.
  specialize (IH s). lia.
Qed.

(** Reading a file whose [read] never fails ends at end of file with the
    bytes of the file, whatever the (positive) buffer size. *)
Lemma read_loop_sound (bufsize : nat) :
  0 < bufsize ->
  forall (len k : nat) (pending : string),
    String.length pending <= len ->
    read_loop bufsize k None pending
    = (fst (read_loop bufsize k None pending), true)
    /\ join (fst (read_loop bufsize k None pending)) = pending.
Proof.
  intros Hpos. induction len as [|len IH]; intros k pending Hlen;
    rewrite read_loop_unfold; cbn [fails_at];
    destruct bufsize as [|n]; try lia;
    destruct pending as [|a s]; try (split; reflexivity).
  - simpl in Hlen. lia.
  - cbv zeta. cbn [fst snd join fold_right].
    assert (Hs : String.length (drop n s) <= len)
      by (pose proof (drop_length n s); simpl in Hlen; lia).
    destruct (IH (S k) (drop n s) Hs) as [IH1 IH2].
    rewrite IH1. cbn [fst snd]. split; [reflexivity|].
    fold (join (fst (read_loop (S n) (S k) None (drop n s)))).
    rewrite IH2. cbn [append]. rewrite take_drop. reflexivity.
Qed.

Lemma read_all_sound (bytes : string) (close_error : bool) :
  exists chunks,
    read_all BUFFER_SIZE (mkFile bytes None close_error) = (chunks, true)
    /\ join chunks = bytes.
Proof.
  unfold read_all. cbn [f_read_error f_bytes].
  assert (Hpos : 0 < BUFFER_SIZE) by (unfold BUFFER_SIZE; lia).
  destruct (read_loop_sound BUFFER_SIZE Hpos (String.length bytes) 0 bytes
              (le_n _)) as [H1 H2].
  eexists. split; [exact H1|exact H2].
Qed.

Lemma send_chunks_connected (chunks : list string) (c : conn) :
  credit c = None ->
  send_chunks c chunks
  = Returns (true, mkConn (delivered c ++ join chunks) None).
Proof.
  revert c. induction chunks as [|chunk chunks IH]; intros c H.
  - simpl. rewrite append_nil_r. destruct c as [d k]. simpl in H. subst k.
    reflexivity.
  - cbn [send_chunks]. rewrite (send_connected _ _ H).
    rewrite IH by reflexivity. cbn [delivered join fold_right].
    rewrite append_assoc. reflexivity.
Qed.

Lemma inspect_missing (fs : filesystem) (path : string) (c : conn) :
  credit c = None -> open_rdonly fs path = None ->
  inspect fs path c
  = Returns (mkConn (delivered c ++ "ERROR: Cannot open file" ++ nl
                                 ++ END_MARK) None).
Proof.
  intros Hpeer Hopen. unfold inspect. rewrite Hopen.
  apply (send_on_connected _ _ Hpeer).
Qed.

Lemma inspect_sound (fs : filesystem) (path bytes : string) (c : conn) :
  credit c = None -> open_rdonly fs path = Some (mkFile bytes None false) ->
  inspect fs path c = Returns (mkConn (delivered c ++ bytes ++ END_MARK) None).
Proof.
  intros Hpeer Hopen. unfold inspect. rewrite Hopen.
  destruct (read_all_sound bytes false) as [chunks [Hread Hjoin]].
  rewrite Hread, (send_chunks_connected _ _ Hpeer).
  cbn [bind negb f_close_error]. rewrite send_on_connected by reflexivity.
  cbn [delivered]. rewrite Hjoin, append_assoc. reflexivity.
Qed.

Lemma dispatch_inspect (fs : filesystem) (fuel : nat) (command path : string)
  (s : session) :
  compare0 command 7 "INSPECT" = true ->
  substr_from command 8 = Some path ->
  dispatch fs fuel command s = inspect_command fs path s.
Proof.
  intros Hverb Hpath. unfold dispatch.
  assert (H1 : compare0 command 8 "TRAVERSE" = false).
  { apply (compare0_prefix "INSPECT") in Hverb. destruct Hverb as [r ->].
    reflexivity. }
  assert (H2 : compare0 command 6 "SEARCH" = false).
  { apply (compare0_prefix "INSPECT") in Hverb. destruct Hverb as [r ->].
    reflexivity. }
  rewrite H1, H2, Hverb, Hpath. reflexivity.
Qed.

(** C5. For a peer that stays connected: a path that cannot be opened is
    answered by the error line and the end marker and nothing else; a file
    that opens and whose reads and close succeed is answered by its bytes,
    whatever their number, and the end marker; [inspect] returns in both
    cases.  The [INSPECT] line that carries the path is answered by just
    that. *)
Theorem inspect_streams_the_file
  (fs : filesystem) (path : string) (sep : ascii) (s : session) :
  credit (client_fd s) = None ->
  (open_rdonly fs path = None ->
   inspect fs path (client_fd s)
   = Returns (mkConn (delivered (client_fd s)
                      ++ "ERROR: Cannot open file" ++ nl ++ END_MARK) None))
  /\ (forall bytes,
        open_rdonly fs path = Some (mkFile bytes None false) ->
        inspect fs path (client_fd s)
        = Returns (mkConn (delivered (client_fd s) ++ bytes ++ END_MARK)
                          None))
  /\ dispatch fs 0 ("INSPECT" ++ String sep path) s
     = match inspect fs path (client_fd s) with
       | Returns c => Some (Next (set_client s c))
       | Killed c => Some (Kill (set_client s c))
       end.
Proof.
  intros Hpeer. repeat split.
  - intros Hopen. apply (inspect_missing _ _ _ Hpeer Hopen).
  - intros bytes Hopen. apply (inspect_sound _ _ _ _ Hpeer Hopen).
  - apply dispatch_inspect.
    + apply (compare0_prefix "INSPECT"). eexists. reflexivity.
    + change ("INSPECT" ++ String sep path)
        with (("INSPECT" ++ String sep "") ++ path).
      change 8 with (String.length ("INSPECT" ++ String sep "")).
      apply substr_from_append.
Qed.

End StreamFacts.

(** ** The command loop *)

Module DispatchFacts.
Import Socket Posix Tree Props StdString StringFacts SocketFacts.
Import DirectoryTraverser TraversalFacts FileInspector ClientHandler.
Import CommandFacts StreamFacts.

(** A line that begins with one verb does not begin with another. *)
Ltac other_verb H :=
  match type of H with
  | compare0 _ _ ?lit = true =>
      let r := fresh "r" in
      let E := fresh "E" in
      pose proof H as E; apply (compare0_prefix lit) in E;
      destruct E as [r ->]; reflexivity
  end.

Lemma search_is_not_traverse (command : string) :
  compare0 command 6 "SEARCH" = true ->
  compare0 command 8 "TRAVERSE" = false.
Proof. intros H. other_verb H. Qed.

Lemma dispatch_search_ignored (fs : filesystem) (fuel : nat)
  (command : string) (s : session) :
  compare0 command 6 "SEARCH" = true ->
  find_char " "%char 7 command = None ->
  dispatch fs fuel command s = Some (Next s).
Proof.
  intros Hverb Hspace. unfold dispatch.
  rewrite (search_is_not_traverse _ Hverb), Hverb, Hspace. reflexivity.
Qed.

Lemma dispatch_exit (fs : filesystem) (fuel : nat) (command : string)
  (s : session) :
  compare0 command 4 "EXIT" = true ->
  dispatch fs fuel command s = Some (Break (log s "Session ended")).
Proof.
  intros Hverb. unfold dispatch.
  assert (H1 : compare0 command 8 "TRAVERSE" = false) by other_verb Hverb.
  assert (H2 : compare0 command 6 "SEARCH" = false) by other_verb Hverb.
  assert (H3 : compare0 command 7 "INSPECT" = false) by other_verb Hverb.
  rewrite H1, H2, H3, Hverb. reflexivity.
Qed.

Lemma received_data (bytes : string) :
  0 < String.length bytes -> (received (Received bytes) <=? 0)%Z = false.
Proof. intros H. apply Z.leb_gt. cbn [received]. lia. Qed.

Lemma log_keeps_client (s : session) (message : string) :
  client_fd (log s message) = client_fd s.
Proof. unfold log. destruct (logFile s); reflexivity. Qed.

(** One turn of the loop of [handle] on a chunk of data: the line is
    logged and dispatched. *)
Lemma command_loop_received (fs : filesystem) (fuel : nat) (bytes : string)
  (rest : list recv_result) (s : session) :
  0 < String.length bytes ->
  command_loop fs fuel (Received bytes :: rest) s
  = match dispatch fs fuel (c_string bytes)
            (log s ("Command: " ++ c_string bytes)) with
    | None => None
    | Some (Next s') => command_loop fs fuel rest s'
    | Some (Break s') => Some (Closed, s')
    | Some (Throw s') => Some (Uncaught, s')
    | Some (Kill s') => Some (Signalled, s')
    end.
Proof.
  intros Hdata. cbn [command_loop]. rewrite (received_data _ Hdata).
  reflexivity.
Qed.

(** C9. A received line that starts with [SEARCH] and has no space from
    offset 7 on sends nothing: the loop goes on with what is received next,
    the session being as before but for the line added to its log, and the
    socket in particular as it was. *)
Theorem search_without_pattern_is_ignored
  (fs : filesystem) (fuel : nat) (bytes : string)
  (rest : list recv_result) (s : session) :
  0 < String.length bytes ->
  compare0 (c_string bytes) 6 "SEARCH" = true ->
  find_char " "%char 7 (c_string bytes) = None ->
  command_loop fs fuel (Received bytes :: rest) s
  = command_loop fs fuel rest (log s ("Command: " ++ c_string bytes))
  /\ client_fd (log s ("Command: " ++ c_string bytes)) = client_fd s.
Proof.
  intros Hdata Hverb Hspace. split; [|apply log_keeps_client].
  cbn [command_loop]. rewrite (received_data _ Hdata). cbn [buffer_of].
  rewrite (dispatch_search_ignored _ _ _ _ Hverb Hspace). reflexivity.
Qed.

(** C10, at the line that is the verb alone: the eight bytes [TRAVERSE]
    pass the prefix test, [substr(9)] throws, and the exception leaves
    [handle] with nothing traversed and nothing sent. *)
Theorem bare_traverse_line_throws
  (fs : filesystem) (fuel : nat) (rest : list recv_result) (s : session) :
  command_loop fs fuel (Received "TRAVERSE" :: rest) s
  = Some (Uncaught, log s "Command: TRAVERSE").
Proof. reflexivity. Qed.

(** Lines that begin with [EXIT] end the session whatever follows the four
    bytes. *)
Lemma exit_prefix_ends_the_session
  (fs : filesystem) (fuel : nat) (bytes : string)
  (rest : list recv_result) (s : session) :
  0 < String.length bytes ->
  compare0 (c_string bytes) 4 "EXIT" = true ->
  command_loop fs fuel (Received bytes :: rest) s
  = Some (Closed, log (log s ("Command: " ++ c_string bytes)) "Session ended").
Proof.
  intros Hdata Hverb. cbn [command_loop].
  rewrite (received_data _ Hdata). cbn [buffer_of].
  rewrite (dispatch_exit _ _ _ _ Hverb). reflexivity.
Qed.

Lemma dispatch_traverse (fs : filesystem) (fuel : nat)
  (command path : string) (s : session) :
  compare0 command 8 "TRAVERSE" = true ->
  substr_from command 9 = Some path ->
  dispatch fs fuel command s = traverse_command fs fuel path s.
Proof. intros Hverb Hpath. unfold dispatch. rewrite Hverb, Hpath. reflexivity. Qed.

Lemma dispatch_search (fs : filesystem) (fuel spacePos : nat)
  (command path pattern : string) (s : session) :
  compare0 command 6 "SEARCH" = true ->
  find_char " "%char 7 command = Some spacePos ->
  substr command 7 (spacePos - 7) = Some path ->
  substr_from command (spacePos + 1) = Some pattern ->
  dispatch fs fuel command s = search_command fs fuel path pattern s.
Proof.
  intros Hverb Hspace Hpath Hpattern. unfold dispatch.
  rewrite (search_is_not_traverse _ Hverb), Hverb, Hspace, Hpath, Hpattern.
  reflexivity.
Qed.









End DispatchFacts.

(** ** The scan of a traversed tree *)

Module ScanFacts.
Import Socket Posix Tree Props StdString StringFacts SocketFacts.
Import DirectoryTraverser TraversalFacts ContentScanner ClientHandler.
Import CommandFacts StreamFacts DispatchFacts.

Lemma lines_text_of (paths : list string) :
  Forall (fun path => lacks "010"%char path = true) paths ->
  lines (text_of paths) = paths.
Proof.
  induction 1 as [|path paths Hpath _ IH]; [reflexivity|].
  cbn [text_of fold_right]. fold (text_of paths).
  rewrite (lines_cons _ _ Hpath), IH. reflexivity.
Qed.

(** With files that read and close without failure the scan keeps, in
    order, the paths that open and hold the pattern. *)
Lemma scan_loop_filter (fs : filesystem) (pattern : string) :
  forall (paths matches : list string),
    (forall path fd, In path paths -> open_rdonly fs path = Some fd ->
                     f_read_error fd = None /\ f_close_error fd = false) ->
    scan_loop fs pattern paths matches
    = (matches ++ filter (holds_pattern fs pattern) paths)%list.
Proof.
  induction paths as [|path paths IH]; intros matches Hsound.
  - simpl. rewrite app_nil_r. reflexivity.
  - cbn [scan_loop filter]. unfold holds_pattern at 1.
    assert (Hrest : forall p fd, In p paths -> open_rdonly fs p = Some fd ->
                                 f_read_error fd = None /\ f_close_error fd = false)
      by (intros p fd Hp; apply Hsound; right; exact Hp).
    destruct (open_rdonly fs path) as [fd|] eqn:Hopen.
    + destruct (Hsound path fd (or_introl eq_refl) Hopen) as [Hread Hclose].
      destruct fd as [bytes read_error close_error].
      cbn [f_read_error f_close_error f_bytes] in *. subst.
      destruct (read_all_sound bytes false) as [chunks [Hchunks Hjoin]].
      change (read_all 4096 (mkFile bytes None false))
        with (read_all BUFFER_SIZE (mkFile bytes None false)).
      rewrite Hchunks. cbn [negb f_close_error].
      change (concat_chunks chunks) with (join chunks). rewrite Hjoin.
      rewrite (IH _ Hrest).
      destruct (find pattern bytes); [|reflexivity].
      rewrite <- app_assoc. reflexivity.
    + apply IH. exact Hrest.
Qed.











Lemma search_line_parts (sep : ascii) (root pattern : string) :
  lacks " "%char root = true ->
  let command := "SEARCH" ++ String sep (root ++ " " ++ pattern) in
  compare0 command 6 "SEARCH" = true
  /\ exists spacePos,
       find_char " "%char 7 command = Some spacePos
       /\ substr command 7 (spacePos - 7) = Some root
       /\ substr_from command (spacePos + 1) = Some pattern.
Proof.
  intros Hroot command. split.
  - apply (compare0_prefix "SEARCH"). eexists. reflexivity.
  - exists (7 + String.length root). repeat split.
    + change command with (("SEARCH" ++ String sep "") ++ root ++ String " " pattern).
      change 7 with (String.length ("SEARCH" ++ String sep "")) at 1.
      rewrite find_char_skip, (find_char_first _ _ _ Hroot). reflexivity.
    + replace (7 + String.length root - 7) with (String.length root) by lia.
      change command with (("SEARCH" ++ String sep "") ++ root ++ String " " pattern).
      change 7 with (String.length ("SEARCH" ++ String sep "")).
      apply substr_middle.
    + replace command with ((("SEARCH" ++ String sep "") ++ root ++ " ") ++ pattern)
        by (unfold command; rewrite !append_assoc; reflexivity).
      replace (7 + String.length root + 1)
        with (String.length (("SEARCH" ++ String sep "") ++ root ++ " "))
        by (rewrite !length_append; simpl; lia).
      apply substr_from_append.
Qed.


End ScanFacts.

(** ** The credential store *)

Module StoreFacts.
Import Socket Props StdString StringFacts SocketFacts ClientHandler.

Lemma fold_append_chars (f : nat -> ascii) (l : list nat) :
  forall acc,
    fold_left (fun salt i => salt ++ String (f i) "") l acc
    = acc ++ join (map (fun i => String (f i) "") l).
Proof.
  induction l as [|i l IH]; intros acc; cbn [fold_left map join fold_right].
  - rewrite append_nil_r. reflexivity.
  - rewrite IH, append_assoc. reflexivity.
Qed.

Lemma fold_append_strings (f : nat -> string) (l : list nat) :
  forall acc,
    fold_left (fun ss i => ss ++ f i) l acc = acc ++ join (map f l).
Proof.
  induction l as [|i l IH]; intros acc; cbn [fold_left map join fold_right].
  - rewrite append_nil_r. reflexivity.
  - rewrite IH, append_assoc. reflexivity.
Qed.

Lemma join_length (width : nat) (parts : list string) :
  Forall (fun part => String.length part = width) parts ->
  String.length (join parts) = width * List.length parts.
Proof.
  induction 1 as [|part parts Hpart _ IH]; [simpl; lia|].
  cbn [join fold_right List.length]. fold (join parts).
  rewrite length_append, Hpart, IH. lia.
Qed.

Lemma join_all_chars (ok : ascii -> bool) (parts : list string) :
  Forall (fun part => all_chars ok part = true) parts ->
  all_chars ok (join parts) = true.
Proof.
  induction 1 as [|part parts Hpart _ IH]; [reflexivity|].
  cbn [join fold_right]. fold (join parts).
  rewrite all_chars_append, Hpart, IH. reflexivity.
Qed.

Lemma charset_is_alnum (k : nat) :
  k < sizeof_charset - 1 -> is_alnum (char_at charset k) = true.
Proof.
  intros H.
  assert (Hall : forallb (fun k => is_alnum (char_at charset k))
                         (seq 0 (sizeof_charset - 1)) = true)
    by (vm_compute; reflexivity).
  rewrite forallb_forall in Hall. apply Hall. apply in_seq.
  simpl in *. lia.
Qed.

(** The salt is sixteen characters of [0-9A-Za-z]. *)
Lemma generateSalt_shape (rd : nat -> nat) :
  String.length (generateSalt rd) = 16
  /\ all_chars is_alnum (generateSalt rd) = true.
Proof.
  unfold generateSalt. rewrite fold_append_chars. cbn [append]. split.
  - rewrite (join_length 1).
    + rewrite length_map, length_seq. reflexivity.
    + apply Forall_forall. intros part Hpart. apply in_map_iff in Hpart.
      destruct Hpart as [i [<- _]]. reflexivity.
  - apply join_all_chars. apply Forall_forall. intros part Hpart.
    apply in_map_iff in Hpart. destruct Hpart as [i [<- _]].
    cbn [all_chars]. rewrite charset_is_alnum; [reflexivity|].
    apply Nat.mod_upper_bound. discriminate.
Qed.

Lemma hex_digit_is_hex (k : nat) : is_lower_hex (hex_digit k) = true.
Proof. do 16 (destruct k as [|k]; [reflexivity|]). reflexivity. Qed.

Lemma hex_of_shape (digest : string) :
  String.length (hex_of digest) = 64
  /\ all_chars is_lower_hex (hex_of digest) = true.
Proof.
  unfold hex_of. split.
  - rewrite (join_length 2).
    + rewrite length_map, length_seq. reflexivity.
    + apply Forall_forall. intros part Hpart. apply in_map_iff in Hpart.
      destruct Hpart as [i [<- _]]. reflexivity.
  - apply join_all_chars. apply Forall_forall. intros part Hpart.
    apply in_map_iff in Hpart. destruct Hpart as [i [<- _]].
    unfold hex2. cbn [all_chars]. rewrite !hex_digit_is_hex. reflexivity.
Qed.

(** [hashPassword] prints the digest it is given, and nothing when it is
    given none. *)
Lemma hashPassword_digest (SHA256 : string -> option string)
  (password digest : string) :
  SHA256 password = Some digest ->
  hashPassword SHA256 password = hex_of digest.
Proof.
  intros H. unfold hashPassword, hex_of. rewrite H.
  rewrite fold_append_strings. reflexivity.
Qed.

Lemma hashPassword_chars (SHA256 : string -> option string) (password : string) :
  all_chars is_lower_hex (hashPassword SHA256 password) = true.
Proof.
  destruct (SHA256 password) as [digest|] eqn:E.
  - rewrite (hashPassword_digest _ _ _ E). apply hex_of_shape.
  - unfold hashPassword. rewrite E. reflexivity.
Qed.

Lemma alnum_lacks (c : ascii) (s : string) :
  is_alnum c = false -> all_chars is_alnum s = true -> lacks c s = true.
Proof.
  intros Hc. apply all_chars_weaken. intros a Ha.
  apply negb_true_iff. apply Ascii.eqb_neq. intros ->. congruence.
Qed.

Lemma hex_lacks (c : ascii) (s : string) :
  is_lower_hex c = false -> all_chars is_lower_hex s = true -> lacks c s = true.
Proof.
  intros Hc. apply all_chars_weaken. intros a Ha.
  apply negb_true_iff. apply Ascii.eqb_neq. intros ->. congruence.
Qed.

(** A record written by [authenticate] is read back field by field when
    the user name holds no colon. *)
Lemma parse_written_record (user salt hashed : string) :
  lacks ":"%char user = true -> all_chars is_alnum salt = true ->
  parse_record (user ++ ":" ++ salt ++ ":" ++ hashed) = (user, salt, hashed).
Proof.
  intros Huser Hsalt. unfold parse_record.
  change (user ++ ":" ++ salt ++ ":" ++ hashed)
    with (user ++ String ":" (salt ++ String ":" hashed)).
  rewrite (until_delim_first _ _ _ Huser).
  rewrite (until_delim_first _ _ _ (alnum_lacks ":" salt eq_refl Hsalt)).
  reflexivity.
Qed.

Lemma written_record_one_line (user salt hashed : string) :
  lacks "010"%char user = true -> all_chars is_alnum salt = true ->
  all_chars is_lower_hex hashed = true ->
  lacks "010"%char (user ++ ":" ++ salt ++ ":" ++ hashed) = true.
Proof.
  intros Huser Hsalt Hhash. unfold lacks in *.
  rewrite !all_chars_append, Huser.
  fold (lacks "010" salt). rewrite (alnum_lacks "010" salt eq_refl Hsalt).
  fold (lacks "010" hashed). rewrite (hex_lacks "010" hashed eq_refl Hhash).
  reflexivity.
Qed.

Section Lookup.

Variable SHA256 : string -> option string.

Lemma lookup_cons (user password line : string) (rest : list string) :
  lookup SHA256 user password (line :: rest)
  = if String.eqb (user_field line) user then
      if String.eqb (hashPassword SHA256
                       (password ++ snd (fst (parse_record line))))
                    (snd (parse_record line))
      then Match else Mismatch
    else lookup SHA256 user password rest.
Proof.
  cbn [lookup]. unfold user_field.
  destruct (parse_record line) as [[u sa] h]. reflexivity.
Qed.

(** The scan finds nothing exactly when no record has the user name in its
    user field. *)
Lemma lookup_not_found (user password : string) (records : list string) :
  lookup SHA256 user password records = NotFound
  <-> ~ In user (map user_field records).
Proof.
  induction records as [|line records IH].
  - simpl. tauto.
  - rewrite lookup_cons. cbn [map In].
    destruct (String.eqb_spec (user_field line) user) as [E|E].
    + split.
      * destruct (String.eqb _ _); discriminate.
      * intros H. exfalso. apply H. left. exact E.
    + rewrite IH. tauto.
Qed.

Lemma lookup_app (user password : string) (before rest : list string) :
  lookup SHA256 user password before = NotFound ->
  lookup SHA256 user password (before ++ rest)
  = lookup SHA256 user password rest.
Proof.
  induction before as [|line before IH]; intros H; [reflexivity|].
  cbn [app]. rewrite lookup_cons in *.
  destruct (String.eqb (user_field line) user).
  - destruct (String.eqb _ _); discriminate.
  - apply IH. exact H.
Qed.

End Lookup.

End StoreFacts.
(** ** Authentication *)

Module AuthFacts.
Import Socket Props StdString StringFacts SocketFacts ClientHandler StoreFacts.
Import CommandFacts.

Section Auth.

Variable SHA256 : string -> option string.
Variable log_opens : bool.

Lemma open_log_keeps (s : session) :
  client_fd (open_log log_opens s) = client_fd s
  /\ users_txt (open_log log_opens s) = users_txt s
  /\ username (open_log log_opens s) = username s.
Proof.
  unfold open_log. destruct log_opens; [destruct (logFile s)|]; repeat split.
Qed.

Lemma log_keeps (s : session) (message : string) :
  client_fd (log s message) = client_fd s
  /\ users_txt (log s message) = users_txt s
  /\ username (log s message) = username s.
Proof. unfold log. destruct (logFile s); repeat split. Qed.

Lemma records_read_readable (u : store) :
  readable u = true -> records_read u = lines (store_text u).
Proof.
  intros H. unfold records_read, read_store, store_text. rewrite H.
  destruct (text u); reflexivity.
Qed.

Lemma append_store_appendable (u : store) (record : string) :
  appendable u = true -> append_store u record = Some (with_record u record).
Proof.
  intros H. unfold append_store, with_record, store_text. rewrite H.
  destruct (text u); reflexivity.
Qed.

(** An answer changes the socket of the session and nothing else. *)
Lemma reply_cases (s : session) (data : string) :
  exists c, reply s data = Returns (set_client s c)
            \/ reply s data = Killed (set_client s c).
Proof.
  unfold reply. destruct (safe_send (client_fd s) data) as [[ok c]|c];
    exists c; [left|right]; reflexivity.
Qed.

(** The answer after the log was opened and written, to a peer that stays
    connected. *)
Lemma reply_logged (s : session) (message data : string) :
  credit (client_fd s) = None ->
  reply (log (open_log log_opens s) message) data
  = Returns (set_client (log (open_log log_opens s) message)
                        (mkConn (delivered (client_fd s) ++ data) None)).
Proof.
  intros H.
  destruct (log_keeps (open_log log_opens s) message) as [E _].
  destruct (open_log_keeps s) as [E' _].
  rewrite reply_connected by (rewrite E, E'; exact H).
  rewrite E, E'. reflexivity.
Qed.

Lemma delivered_set_client (s : session) (d : string)
  (k : option (nat * nat)) :
  delivered (client_fd (set_client s (mkConn d k))) = d.
Proof. reflexivity. Qed.

(** The three ways [authenticate] ends once it has the user name and the
    password. *)
Lemma check_credentials_cases (rd : nat -> nat) (password : string)
  (s : session) :
  match lookup SHA256 (username s) password (records_read (users_txt s)) with
  | Match =>
      check_credentials SHA256 log_opens rd password s
      = (s2 <- reply (log (open_log log_opens s) "User authenticated")
                     ("Login successful" ++ nl) ;;
         Returns (true, s2))
  | Mismatch =>
      check_credentials SHA256 log_opens rd password s
      = (s1 <- reply s ("Incorrect password" ++ nl) ;;
         Returns (false, s1))
  | NotFound =>
      check_credentials SHA256 log_opens rd password s
      = if appendable (users_txt s) then
          s2 <- reply (log (open_log log_opens
                              (set_users s (with_record (users_txt s)
                                 (new_record SHA256 rd (username s) password))))
                           "New user registered securely")
                      ("Account created" ++ nl) ;;
          Returns (true, s2)
        else Returns (false, s)
  end.
Proof.
  unfold check_credentials. fold (records_read (users_txt s)).
  destruct (lookup SHA256 (username s) password (records_read (users_txt s)));
    try reflexivity.
  fold (new_record SHA256 rd (username s) password).
  destruct (appendable (users_txt s)) eqn:E.
  - rewrite (append_store_appendable _ _ E). reflexivity.
  - unfold append_store. rewrite E. reflexivity.
Qed.

(** What a registration leaves: the record, the shape of its salt and of
    its hash, and the answer. *)
Lemma check_credentials_registers
  (rd : nat -> nat) (password digest : string) (s : session) :
  lookup SHA256 (username s) password (records_read (users_txt s)) = NotFound ->
  appendable (users_txt s) = true ->
  SHA256 (password ++ generateSalt rd) = Some digest ->
  credit (client_fd s) = None ->
  exists s',
    check_credentials SHA256 log_opens rd password s = Returns (true, s')
    /\ text (users_txt s')
       = Some (store_text (users_txt s)
               ++ username s ++ ":" ++ generateSalt rd ++ ":"
               ++ hex_of digest ++ nl)
    /\ String.length (generateSalt rd) = 16
    /\ all_chars is_alnum (generateSalt rd) = true
    /\ String.length (hex_of digest) = 64
    /\ all_chars is_lower_hex (hex_of digest) = true
    /\ delivered (client_fd s')
       = delivered (client_fd s) ++ "Account created" ++ nl.
Proof.
  intros Hscan Happend Hdigest Hpeer.
  pose proof (check_credentials_cases rd password s) as Hcases.
  rewrite Hscan, Happend in Hcases.
  rewrite reply_logged in Hcases by exact Hpeer. cbn [bind] in Hcases.
  eexists. split; [exact Hcases|].
  destruct (generateSalt_shape rd) as [Hlen Hchars].
  destruct (hex_of_shape digest) as [Hhlen Hhchars].
  repeat split; try assumption.
  cbn [set_client users_txt].
  destruct (log_keeps (open_log log_opens
              (set_users s (with_record (users_txt s)
                 (new_record SHA256 rd (username s) password))))
              "New user registered securely") as [_ [-> _]].
  destruct (open_log_keeps
              (set_users s (with_record (users_txt s)
                 (new_record SHA256 rd (username s) password)))) as [_ [-> _]].
  cbn [set_users users_txt with_record text]. unfold new_record.
  rewrite (hashPassword_digest _ _ _ Hdigest). reflexivity.
Qed.

Lemma authenticate_connected (rd : nat -> nat) (bu bw : string)
  (rest : list recv_result) (s : session) :
  credit (client_fd s) = None ->
  0 < String.length bu -> 0 < String.length bw ->
  authenticate SHA256 log_opens rd (Received bu :: Received bw :: rest) s
  = (checked <- check_credentials SHA256 log_opens rd (chomp bw)
                  (prompted s (chomp bu)) ;;
     Returns (fst checked, (rest, snd checked))).
Proof.
  intros Hpeer Hu Hw. unfold authenticate.
  rewrite (safe_send_connected _ _ Hpeer). cbn [recv].
  rewrite (DispatchFacts.received_data _ Hu).
  cbn [set_username set_client client_fd buffer_of].
  rewrite safe_send_connected by reflexivity. cbn [recv delivered].
  rewrite (DispatchFacts.received_data _ Hw). cbn [buffer_of].
  reflexivity.
Qed.

Lemma lookup_after_registration (rd : nat -> nat)
  (user registered tried more : string) (u : store) :
  lacks ":"%char user = true -> lacks "010"%char user = true ->
  fresh_line (store_text u) = true ->
  ~ In user (users_of u) ->
  lookup SHA256 user tried
    (lines (store_text (with_record u (new_record SHA256 rd user registered)) ++ more))
  = if String.eqb (hashPassword SHA256 (tried ++ generateSalt rd))
                  (hashPassword SHA256 (registered ++ generateSalt rd))
    then Match else Mismatch.
Proof.
  intros Hcolon Hnl Hfresh Hnew.
  destruct (generateSalt_shape rd) as [_ Hsalt].
  pose proof (hashPassword_chars SHA256 (registered ++ generateSalt rd)) as Hhash.
  unfold with_record, store_text at 1. cbn [text]. fold (store_text u).
  unfold new_record.
  replace ((store_text u
            ++ user ++ ":" ++ generateSalt rd ++ ":"
            ++ hashPassword SHA256 (registered ++ generateSalt rd) ++ nl)
           ++ more)
    with (store_text u
          ++ (user ++ ":" ++ generateSalt rd ++ ":"
              ++ hashPassword SHA256 (registered ++ generateSalt rd))
          ++ nl ++ more)
    by (rewrite !append_assoc; reflexivity).
  rewrite (lines_append _ _ Hfresh).
  rewrite (lines_cons _ _ (written_record_one_line _ _ _ Hnl Hsalt Hhash)).
  rewrite lookup_app by (apply lookup_not_found; exact Hnew).
  rewrite lookup_cons. unfold user_field.
  rewrite (parse_written_record _ _ _ Hcolon Hsalt). cbn [fst snd].
  rewrite String.eqb_refl. reflexivity.
Qed.

Lemma prompted_fields (s : session) (user : string) :
  username (prompted s user) = user
  /\ users_txt (prompted s user) = users_txt s
  /\ client_fd (prompted s user)
     = mkConn (delivered (client_fd s) ++ "Username: " ++ "Password: ") None.
Proof. unfold prompted. rewrite append_assoc. repeat split. Qed.

(** C7, as the code has it.  When the scan finds no record for the user
    name received, the store can be opened for appending and [SHA256] gives
    a digest, [authenticate] appends one line [username:salt:hash] with a
    salt of sixteen characters of [0-9A-Za-z] and the digest of password
    and salt printed as sixty-four lowercase hexadecimal digits, answers
    [Account created] to a peer that stays connected, and succeeds. *)
Theorem registration_appends_one_record
  (rd : nat -> nat) (bu bw digest : string) (rest : list recv_result)
  (s : session) :
  0 < String.length bu -> 0 < String.length bw ->
  lookup SHA256 (chomp bu) (chomp bw) (records_read (users_txt s)) = NotFound ->
  appendable (users_txt s) = true ->
  SHA256 (chomp bw ++ generateSalt rd) = Some digest ->
  credit (client_fd s) = None ->
  exists s',
    authenticate SHA256 log_opens rd (Received bu :: Received bw :: rest) s
    = Returns (true, (rest, s'))
    /\ text (users_txt s')
       = Some (store_text (users_txt s)
               ++ chomp bu ++ ":" ++ generateSalt rd ++ ":"
               ++ hex_of digest ++ nl)
    /\ String.length (generateSalt rd) = 16
    /\ all_chars is_alnum (generateSalt rd) = true
    /\ String.length (hex_of digest) = 64
    /\ all_chars is_lower_hex (hex_of digest) = true
    /\ delivered (client_fd s')
       = delivered (client_fd s) ++ "Username: " ++ "Password: "
         ++ "Account created" ++ nl.
Proof.
  intros Hu Hw Hscan Happend Hdigest Hpeer.
  rewrite (authenticate_connected rd bu bw rest s Hpeer Hu Hw).
  destruct (prompted_fields s (chomp bu)) as [Pu [Ps Pc]].
  destruct (check_credentials_registers rd (chomp bw) digest
              (prompted s (chomp bu)))
    as [s' [Hrun [Htext [Hsalt [Halnum [Hhex [Hhexchars Hsent]]]]]]].
  - rewrite Pu, Ps. exact Hscan.
  - rewrite Ps. exact Happend.
  - exact Hdigest.
  - rewrite Pc. reflexivity.
  - exists s'. rewrite Hrun. cbn [bind fst snd].
    rewrite Pu, Ps in Htext. rewrite Pc in Hsent. cbn [delivered] in Hsent.
    rewrite !append_assoc in Hsent.
    repeat split; assumption.
Qed.

(** C3, as the code has it.  For a user name without colon and newline, on
    a store that can be read and whose last line is ended: after the
    connection that registered the user with password [W] (it received
    [Account created]), a connection that sends the same user name and
    [W], on the store as it then was and whatever was appended to it since,
    is answered [Login successful] and authenticated; one that sends a
    password [W'] other than [W] (their salted digests differing) is
    answered [Incorrect password] and refused. *)
Theorem registered_user_logs_in
  (rd rd' : nat -> nat) (bu bw bw' more : string) (s s1 s2 : session) :
  0 < String.length bu -> 0 < String.length bw -> 0 < String.length bw' ->
  lacks ":"%char (chomp bu) = true ->
  lacks "010"%char (chomp bu) = true ->
  chomp bw' <> chomp bw ->
  (hashPassword SHA256 (chomp bw' ++ generateSalt rd)
   = hashPassword SHA256 (chomp bw ++ generateSalt rd) ->
   chomp bw' = chomp bw) ->
  credit (client_fd s) = None ->
  readable (users_txt s) = true ->
  fresh_line (store_text (users_txt s)) = true ->
  authenticate SHA256 log_opens rd [Received bu; Received bw] s
  = Returns (true, ([], s1)) ->
  delivered (client_fd s1)
  = delivered (client_fd s) ++ "Username: " ++ "Password: "
    ++ "Account created" ++ nl ->
  credit (client_fd s2) = None ->
  readable (users_txt s2) = true ->
  store_text (users_txt s2) = store_text (users_txt s1) ++ more ->
  (exists s3,
     authenticate SHA256 log_opens rd' [Received bu; Received bw] s2
     = Returns (true, ([], s3))
     /\ delivered (client_fd s3)
        = delivered (client_fd s2) ++ "Username: " ++ "Password: "
          ++ "Login successful" ++ nl)
  /\ (exists s3,
        authenticate SHA256 log_opens rd' [Received bu; Received bw'] s2
        = Returns (false, ([], s3))
        /\ delivered (client_fd s3)
           = delivered (client_fd s2) ++ "Username: " ++ "Password: "
             ++ "Incorrect password" ++ nl).
Proof.
  intros Hu Hw Hw' Hcolon Hnl Hother Hdigest Hpeer Hread Hfresh Hreg Hsent
         Hpeer2 Hread2 Hstore2.
  rewrite (authenticate_connected rd bu bw [] s Hpeer Hu Hw) in Hreg.
  destruct (prompted_fields s (chomp bu)) as [Pu [Ps Pc]].
  destruct (prompted_fields s2 (chomp bu)) as [Pu2 [Ps2 Pc2]].
  assert (Hc1 : credit (client_fd (prompted s (chomp bu))) = None)
    by (rewrite Pc; reflexivity).
  assert (Hc2 : credit (client_fd (prompted s2 (chomp bu))) = None)
    by (rewrite Pc2; reflexivity).
  pose proof (check_credentials_cases rd (chomp bw) (prompted s (chomp bu)))
    as Hcases.
  rewrite Pu, Ps in Hcases.
  assert (Hs1 : users_txt s1
                = with_record (users_txt s) (new_record SHA256 rd (chomp bu) (chomp bw))
                /\ ~ In (chomp bu) (users_of (users_txt s))).
  { destruct (lookup SHA256 (chomp bu) (chomp bw) (records_read (users_txt s)))
      eqn:Hscan.
    - exfalso. rewrite Hcases in Hreg.
      rewrite (reply_logged _ _ _ Hc1) in Hreg. cbn [bind fst snd] in Hreg.
      apply (f_equal session_after) in Hreg. cbn [session_after] in Hreg.
      rewrite <- Hreg, delivered_set_client, Pc in Hsent.
      cbn [delivered] in Hsent. rewrite !append_assoc in Hsent.
      do 3 apply append_inv_head in Hsent. discriminate.
    - rewrite Hcases in Hreg. rewrite (reply_connected _ _ Hc1) in Hreg.
      discriminate.
    - destruct (appendable (users_txt s));
        [|rewrite Hcases in Hreg; discriminate].
      rewrite Hcases in Hreg.
      rewrite reply_logged in Hreg by exact Hc1.
      cbn [bind fst snd] in Hreg.
      apply (f_equal session_after) in Hreg. cbn [session_after] in Hreg.
      rewrite <- Hreg.
      split.
      + cbn [set_client users_txt].
        match goal with
        | |- users_txt (log ?x ?m) = _ =>
            destruct (log_keeps x m) as [_ [-> _]]
        end.
        match goal with
        | |- users_txt (open_log _ ?x) = _ =>
            destruct (open_log_keeps x) as [_ [-> _]]
        end.
        reflexivity.
      + apply (lookup_not_found SHA256 _ (chomp bw)).
        rewrite <- (records_read_readable _ Hread). exact Hscan. }
  destruct Hs1 as [Hs1 Hnew].
  assert (Hlookup : forall tried,
            lookup SHA256 (chomp bu) tried (records_read (users_txt s2))
            = if String.eqb (hashPassword SHA256 (tried ++ generateSalt rd))
                            (hashPassword SHA256 (chomp bw ++ generateSalt rd))
              then Match else Mismatch).
  { intros tried. rewrite (records_read_readable _ Hread2), Hstore2, Hs1.
    apply lookup_after_registration; assumption. }
  split.
  - rewrite (authenticate_connected rd' bu bw [] s2 Hpeer2 Hu Hw).
    pose proof (check_credentials_cases rd' (chomp bw) (prompted s2 (chomp bu)))
      as Hc.
    rewrite Pu2, Ps2, Hlookup, String.eqb_refl in Hc. rewrite Hc.
    rewrite (reply_logged _ _ _ Hc2). cbn [bind fst snd].
    eexists. split; [reflexivity|].
    rewrite delivered_set_client, Pc2. cbn [delivered].
    rewrite !append_assoc. reflexivity.
  - rewrite (authenticate_connected rd' bu bw' [] s2 Hpeer2 Hu Hw').
    pose proof (check_credentials_cases rd' (chomp bw') (prompted s2 (chomp bu)))
      as Hc.
    rewrite Pu2, Ps2, Hlookup in Hc.
    destruct (String.eqb_spec
                (hashPassword SHA256 (chomp bw' ++ generateSalt rd))
                (hashPassword SHA256 (chomp bw ++ generateSalt rd))) as [E|E];
      [exfalso; exact (Hother (Hdigest E))|].
    rewrite Hc. rewrite (reply_connected _ _ Hc2). cbn [bind fst snd].
    eexists. split; [reflexivity|].
    rewrite delivered_set_client, Pc2. cbn [delivered].
    rewrite !append_assoc. reflexivity.
Qed.

Lemma users_after_registration (rd : nat -> nat) (user password : string)
  (u : store) :
  lacks "010"%char user = true ->
  fresh_line (store_text u) = true ->
  lines (store_text (with_record u (new_record SHA256 rd user password)))
  = (lines (store_text u)
     ++ [(user ++ ":" ++ generateSalt rd ++ ":"
          ++ hashPassword SHA256 (password ++ generateSalt rd))%string])%list.
Proof.
  intros Hnl Hfresh.
  destruct (generateSalt_shape rd) as [_ Hsalt].
  pose proof (hashPassword_chars SHA256 (password ++ generateSalt rd)) as Hhash.
  unfold with_record, store_text at 1. cbn [text]. fold (store_text u).
  unfold new_record.
  replace (store_text u
           ++ user ++ ":" ++ generateSalt rd ++ ":"
           ++ hashPassword SHA256 (password ++ generateSalt rd) ++ nl)
    with (store_text u
          ++ (user ++ ":" ++ generateSalt rd ++ ":"
              ++ hashPassword SHA256 (password ++ generateSalt rd))
          ++ nl ++ "")
    by (rewrite !append_assoc, append_nil_r; reflexivity).
  rewrite (lines_append _ _ Hfresh).
  rewrite (lines_cons _ _ (written_record_one_line _ _ _ Hnl Hsalt Hhash)).
  reflexivity.
Qed.

Lemma NoDup_snoc (l : list string) (x : string) :
  NoDup l -> ~ In x l -> NoDup (l ++ [x]).
Proof.
  induction 1 as [|y l Hy Hl IH]; intros Hx; cbn [app].
  - constructor; [intros []|constructor].
  - constructor.
    + rewrite in_app_iff. intros [H|[H|[]]]; [exact (Hy H)|].
      apply Hx. left. symmetry. exact H.
    + apply IH. intros H. apply Hx. right. exact H.
Qed.

Ltac store_unchanged :=
  repeat split; try assumption;
  try (let H := fresh in intros H; exfalso; apply H; reflexivity).

(** The session after an answer, whether the call returned or not. *)
Lemma checked_reply (s : session) (data : string) (ok : bool) :
  exists c,
    checked (s' <- reply s data ;; Returns (ok, s')) = set_client s c.
Proof.
  destruct (reply_cases s data) as [c [-> | ->]]; exists c; reflexivity.
Qed.

(** What [authenticate] does to the store once it has the user name and
    the password. *)
Lemma check_credentials_store (rd : nat -> nat) (password : string)
  (s : session) :
  one_record_per_user (users_txt s) ->
  readable (users_txt s) = true ->
  lacks ":"%char (username s) = true ->
  lacks "010"%char (username s) = true ->
  one_record_per_user
    (users_txt (checked (check_credentials SHA256 log_opens rd password s)))
  /\ readable
       (users_txt (checked (check_credentials SHA256 log_opens rd password s)))
     = true
  /\ username (checked (check_credentials SHA256 log_opens rd password s))
     = username s
  /\ (users_txt (checked (check_credentials SHA256 log_opens rd password s))
      <> users_txt s ->
      ~ In (username s) (users_of (users_txt s))).
Proof.
  intros [Hunique Hfresh] Hread Hcolon Hnl.
  pose proof (check_credentials_cases rd password s) as Hcases.
  destruct (lookup SHA256 (username s) password (records_read (users_txt s)))
    eqn:Hscan.
  - rewrite Hcases.
    destruct (checked_reply (log (open_log log_opens s) "User authenticated")
                ("Login successful" ++ nl) true) as [c ->].
    cbn [set_client users_txt username].
    destruct (log_keeps (open_log log_opens s) "User authenticated")
      as [_ [-> ->]].
    destruct (open_log_keeps s) as [_ [-> ->]].
    store_unchanged.
  - rewrite Hcases.
    destruct (checked_reply s ("Incorrect password" ++ nl) false) as [c ->].
    cbn [set_client users_txt username]. store_unchanged.
  - assert (Hnew : ~ In (username s) (users_of (users_txt s))).
    { apply (lookup_not_found SHA256 _ password).
      rewrite <- (records_read_readable _ Hread). exact Hscan. }
    destruct (appendable (users_txt s)); rewrite Hcases;
      [|cbn [checked]; store_unchanged].
    match goal with
    | |- context [reply ?x ?d] =>
        destruct (checked_reply x d true) as [c ->]
    end.
    cbn [set_client users_txt username].
    match goal with
    | |- context [log ?x ?m] => destruct (log_keeps x m) as [_ [-> ->]]
    end.
    match goal with
    | |- context [open_log _ ?x] => destruct (open_log_keeps x) as [_ [-> ->]]
    end.
    cbn [set_users users_txt username].
    repeat split; try assumption; try (intros _; exact Hnew).
    + unfold users_of.
      rewrite (users_after_registration _ _ _ _ Hnl Hfresh), map_app.
      cbn [map]. unfold user_field at 2.
      destruct (generateSalt_shape rd) as [_ Hsalt].
      rewrite (parse_written_record _ _ _ Hcolon Hsalt). cbn [fst].
      apply NoDup_snoc; assumption.
    + unfold with_record, store_text at 1. cbn [text]. unfold new_record.
      replace (store_text (users_txt s)
               ++ username s ++ ":" ++ generateSalt rd ++ ":"
               ++ hashPassword SHA256 (password ++ generateSalt rd) ++ nl)
        with (store_text (users_txt s)
              ++ (username s ++ ":" ++ generateSalt rd ++ ":"
                  ++ hashPassword SHA256 (password ++ generateSalt rd))
              ++ nl)
        by (rewrite !append_assoc; reflexivity).
      apply fresh_line_append.
Qed.

(** The session after the rest of [authenticate]. *)
Lemma session_after_checked (r : run session (bool * session))
  (inbox : list recv_result) :
  session_after (c <- r ;; Returns (fst c, (inbox, snd c))) = checked r.
Proof. destruct r as [[ok s]|s]; reflexivity. Qed.

(** C6, as the code has it.  With a store that can be read, an
    authentication whose user name holds no colon and no newline leaves a
    store with at most one record per user name (and an ended last line) as
    such a store, whether it returns or the process is ended in it; and
    when it has changed the store, no record of the store had the user name
    in its user field. *)
Theorem authentication_keeps_one_record_per_user
  (rd : nat -> nat) (inbox : list recv_result) (s : session) :
  one_record_per_user (users_txt s) ->
  readable (users_txt s) = true ->
  (forall bytes rest, inbox = Received bytes :: rest ->
     lacks ":"%char (chomp bytes) = true
     /\ lacks "010"%char (chomp bytes) = true) ->
  let s' := session_after (authenticate SHA256 log_opens rd inbox s) in
  one_record_per_user (users_txt s')
  /\ readable (users_txt s') = true
  /\ (users_txt s' <> users_txt s ->
      ~ In (username s') (users_of (users_txt s))).
Proof.
  intros Hinv Hread Hplain. unfold authenticate.
  assert (Hsame : forall x : session,
            users_txt x = users_txt s ->
            one_record_per_user (users_txt x)
            /\ readable (users_txt x) = true
            /\ (users_txt x <> users_txt s ->
                ~ In (username x) (users_of (users_txt s)))).
  { intros x E. rewrite E. repeat split; try assumption; try apply Hinv.
    congruence. }
  destruct (safe_send (client_fd s) "Username: ") as [[[|] c]|c];
    [|apply Hsame; reflexivity|apply Hsame; reflexivity].
  destruct inbox as [|r1 inbox1]; cbn [recv];
    [apply Hsame; reflexivity|].
  destruct (received r1 <=? 0)%Z eqn:E1; [apply Hsame; reflexivity|].
  destruct r1 as [bytes| |]; try discriminate. cbn [buffer_of].
  destruct (Hplain bytes inbox1 eq_refl) as [Hcolon Hnl].
  destruct (safe_send (client_fd (set_username (set_client s c) (chomp bytes)))
                      "Password: ") as [[[|] c']|c'];
    [|apply Hsame; reflexivity|apply Hsame; reflexivity].
  destruct inbox1 as [|r2 inbox2]; cbn [recv];
    [apply Hsame; reflexivity|].
  destruct (received r2 <=? 0)%Z eqn:E2; [apply Hsame; reflexivity|].
  set (s3 := set_client (set_username (set_client s c) (chomp bytes)) c').
  destruct (check_credentials_store rd (chomp (buffer_of r2)) s3)
    as [H1 [H2 [H3 H4]]]; try assumption.
  cbv zeta. rewrite session_after_checked.
  rewrite H3. repeat split; try apply H1; assumption.
Qed.

End Auth.

End AuthFacts.
(** ** The code on the sample file system and sessions *)

Module Examples.
Import Socket Posix Tree Props StdString ClientHandler Samples.

(** C1 on [/srv]: three regular files. *)
Lemma traverse_reports_the_regular_files_witness :
  root_at srv_fs srv_tree "/srv" = true
  /\ depth srv_tree <= 2
  /\ (regular_files srv_tree <= INT_MAX)%Z
  /\ credit (client_fd fresh_session) = None
  /\ exists s',
       dispatch srv_fs 2 "TRAVERSE /srv" fresh_session = Some (Next s')
       /\ delivered (client_fd s')
          = delivered (client_fd fresh_session)
            ++ join (messages srv_tree "/srv")
            ++ nl ++ "Total Files: " ++ to_string (regular_files srv_tree)
            ++ nl ++ END_MARK.
Proof.
  split; [vm_compute; reflexivity|].
  split; [vm_compute; lia|].
  split; [vm_compute; discriminate|].
  split; [reflexivity|].
  apply (CommandFacts.traverse_reports_the_regular_files
           srv_fs srv_tree "/srv" " "%char 2 fresh_session).
  - vm_compute. reflexivity.
  - vm_compute. lia.
  - vm_compute. discriminate.
  - reflexivity.
Defined.


(** C2 fails on [/big] as well, where every file opens and holds the
    pattern: the eighth path fills the buffer of the stream and is written
    without its newline, the frame of the subdirectory writes its line
    after it, and the newline follows when the stream of [/big] is closed.
    The path list has one line made of two paths and an empty line; the
    scan finds neither file, and seven of the nine are reported. *)
Lemma search_misses_the_files_of_a_large_directory :
  root_at big_fs big_tree "/big" = true
  /\ plain_names big_tree = true
  /\ sound_files big_tree = true
  /\ lines_fit big_tree "/big" = false
  /\ map fst (filter (opens_and_holds "key") (files_under big_tree "/big"))
     = (map (fun name => ("/big/" ++ name)%string) big_names
        ++ ["/big/sub/s.txt"])%list
  /\ exists s',
       dispatch big_fs 2 "SEARCH /big key" fresh_session = Some (Next s')
       /\ ContentScanner.scan big_fs (files_txt s') "key"
          = map (fun name => "/big/" ++ name) (firstn 7 big_names)
       /\ option_map (fun text => skipn 7 (lines text)) (files_txt s')
          = Some [("/big/" ++ nth 7 big_names "") ++ "/big/sub/s.txt"; ""].
Proof.
  split; [vm_compute; reflexivity|].
  split; [vm_compute; reflexivity|].
  split; [vm_compute; reflexivity|].
  split; [vm_compute; reflexivity|].
  split; [vm_compute; reflexivity|].
  eexists. split; [vm_compute; reflexivity|].
  split; vm_compute; reflexivity.
Qed.


(** C3 fails for the user name [a:b]: the connection that registered it
    with [pw] received [Account created], and so does the next one with the
    same user name and password, and so does one with another password,
    which is authenticated too. *)
Lemma colon_user_is_registered_again :
  let first :=
    authenticate toy_digest true toy_rd [Received "a:b"; Received "pw"]
                 fresh_session in
  let later (password : string) :=
    authenticate toy_digest true toy_rd [Received "a:b"; Received password]
      (mkSession (mkConn "" None) "" None (users_txt (session_after first))
                 (Some "")) in
  first = Returns (true, ([], session_after first))
  /\ delivered (client_fd (session_after first))
     = "Username: " ++ "Password: " ++ "Account created" ++ nl
  /\ later "pw" = Returns (true, ([], session_after (later "pw")))
  /\ delivered (client_fd (session_after (later "pw")))
     = "Username: " ++ "Password: " ++ "Account created" ++ nl
  /\ later "other" = Returns (true, ([], session_after (later "other")))
  /\ delivered (client_fd (session_after (later "other")))
     = "Username: " ++ "Password: " ++ "Account created" ++ nl.
Proof. vm_compute. repeat split. Qed.

(** C3 for [alice], whose second connection finds the store with one
    more record. *)
Lemma registered_user_logs_in_witness :
  let first :=
    authenticate toy_digest true toy_rd
                 [Received "alice"; Received ("secret" ++ nl)] fresh_session in
  let s1 := session_after first in
  let s2 := mkSession (mkConn "" None) "" None
                      (mkStore (Some (store_text (users_txt s1)
                                      ++ "carol:zzzzzzzzzzzzzzzz:00" ++ nl))
                               true true)
                      (Some "") in
  first = Returns (true, ([], s1))
  /\ (exists s3,
        authenticate toy_digest true toy_rd
          [Received "alice"; Received ("secret" ++ nl)] s2
        = Returns (true, ([], s3))
        /\ delivered (client_fd s3)
           = delivered (client_fd s2) ++ "Username: " ++ "Password: "
             ++ "Login successful" ++ nl)
  /\ (exists s3,
        authenticate toy_digest true toy_rd
          [Received "alice"; Received "guess"] s2
        = Returns (false, ([], s3))
        /\ delivered (client_fd s3)
           = delivered (client_fd s2) ++ "Username: " ++ "Password: "
             ++ "Incorrect password" ++ nl).
Proof.
  intros first s1 s2. split; [vm_compute; reflexivity|].
  apply (AuthFacts.registered_user_logs_in toy_digest true toy_rd toy_rd
           "alice" ("secret" ++ nl) "guess"
           ("carol:zzzzzzzzzzzzzzzz:00" ++ nl) fresh_session s1 s2).
  - vm_compute. lia.
  - vm_compute. lia.
  - vm_compute. lia.
  - vm_compute. reflexivity.
  - vm_compute. reflexivity.
  - vm_compute. discriminate.
  - vm_compute. discriminate.
  - reflexivity.
  - reflexivity.
  - reflexivity.
  - vm_compute. reflexivity.
  - vm_compute. reflexivity.
  - reflexivity.
  - reflexivity.
  - reflexivity.
Defined.



(** C5 on [/srv/a.txt] and on a path that does not open. *)
Lemma inspect_streams_the_file_witness :
  credit (client_fd fresh_session) = None
  /\ open_rdonly srv_fs "/srv/a.txt" = Some (mkFile "hello world" None false)
  /\ FileInspector.inspect srv_fs "/srv/a.txt" (client_fd fresh_session)
     = Returns (mkConn (delivered (client_fd fresh_session)
                        ++ "hello world" ++ END_MARK) None)
  /\ open_rdonly srv_fs "/srv/b.log" = None
  /\ FileInspector.inspect srv_fs "/srv/b.log" (client_fd fresh_session)
     = Returns (mkConn (delivered (client_fd fresh_session)
                        ++ "ERROR: Cannot open file" ++ nl ++ END_MARK) None).
Proof.
  split; [reflexivity|]. split; [reflexivity|]. split.
  - apply (StreamFacts.inspect_streams_the_file
             srv_fs "/srv/a.txt" " "%char fresh_session); reflexivity.
  - split; [reflexivity|].
    apply (StreamFacts.inspect_streams_the_file
             srv_fs "/srv/b.log" " "%char fresh_session); reflexivity.
Defined.

(** C6 fails for the user name [a:b]: two connections in a row, on a store
    that is empty at first, each find no record for it and each append one.
    The store ends with two records written for [a:b], both read back with
    the user field [a]. *)
Lemma second_record_for_a_user :
  let first :=
    users_txt (session_after (authenticate toy_digest true toy_rd
                                [Received "a:b"; Received "pw"]
                                fresh_session)) in
  let second :=
    users_txt (session_after (authenticate toy_digest true toy_rd
                                [Received "a:b"; Received "pw"]
                                (mkSession (mkConn "" None) "" None first
                                           (Some "")))) in
  NoDup (users_of (users_txt fresh_session))
  /\ NoDup (users_of first)
  /\ map (substring 0 4) (lines (store_text second)) = ["a:b:"; "a:b:"]
  /\ users_of second = ["a"; "a"]
  /\ ~ NoDup (users_of second).
Proof.
  intros first second.
  assert (E0 : users_of (users_txt fresh_session) = []) by reflexivity.
  assert (E1 : users_of first = ["a"]) by (vm_compute; reflexivity).
  assert (E2 : users_of second = ["a"; "a"]) by (vm_compute; reflexivity).
  rewrite E0, E1, E2. repeat split.
  - constructor.
  - constructor; [intros []|constructor].
  - intros H. inversion H as [|x l Hin _]; subst. apply Hin. left. reflexivity.
Qed.

(** A store that cannot be opened for reading is scanned as an empty one:
    the user [a], who has a record, gets a second one. *)
Lemma unreadable_store_registers_again :
  users_of (users_txt (session_after
                         (authenticate toy_digest true toy_rd
                            [Received "a"; Received "pw"] (stored false))))
  = ["a"; "a"].
Proof. vm_compute. reflexivity. Qed.

(** On a store whose last line is not ended the record of a registration
    continues that line, and the user is not found afterwards. *)
Lemma unended_store_hides_the_record :
  let unended :=
    mkSession (mkConn "" None) "" None (mkStore (Some "x") true true)
              (Some "") in
  let first :=
    authenticate toy_digest true toy_rd [Received "eve"; Received "pw"]
                 unended in
  let later :=
    authenticate toy_digest true toy_rd [Received "eve"; Received "pw"]
      (mkSession (mkConn "" None) "" None (users_txt (session_after first))
                 (Some "")) in
  users_of (users_txt (session_after first)) = ["xeve"]
  /\ delivered (client_fd (session_after later))
     = "Username: " ++ "Password: " ++ "Account created" ++ nl.
Proof. vm_compute. split; reflexivity. Qed.

(** C6 for a registration on a store that has a record: the store has two
    records then. *)
Lemma authentication_keeps_one_record_per_user_witness :
  let s' := session_after (authenticate toy_digest true toy_rd
                             [Received "alice"; Received "pw"]
                             (stored true)) in
  one_record_per_user (users_txt (stored true))
  /\ readable (users_txt (stored true)) = true
  /\ users_of (users_txt s') = ["a"; "alice"]
  /\ one_record_per_user (users_txt s')
  /\ readable (users_txt s') = true
  /\ (users_txt s' <> users_txt (stored true) ->
      ~ In (username s') (users_of (users_txt (stored true)))).
Proof.
  intros s'.
  assert (Hone : one_record_per_user (users_txt (stored true))).
  { split; [|reflexivity].
    assert (E : users_of (users_txt (stored true)) = ["a"])
      by (vm_compute; reflexivity).
    rewrite E. constructor; [intros []|constructor]. }
  split; [exact Hone|]. split; [reflexivity|].
  split; [vm_compute; reflexivity|].
  apply (AuthFacts.authentication_keeps_one_record_per_user
           toy_digest true toy_rd
           [Received "alice"; Received "pw"] (stored true)).
  - exact Hone.
  - reflexivity.
  - intros bytes rest H. injection H as <- _. vm_compute. split; reflexivity.
Defined.

(** C7 fails when the store cannot be opened for appending: the scan finds
    no record for [bob], and [authenticate] fails after its two prompts,
    without a record and without an answer. *)
Lemma registration_fails_on_a_sealed_store :
  let run :=
    authenticate toy_digest true toy_rd [Received "bob"; Received "pw"]
                 sealed_session in
  lookup toy_digest "bob" "pw" (records_read (users_txt sealed_session))
  = NotFound
  /\ run = Returns (false, ([], session_after run))
  /\ users_txt (session_after run) = users_txt sealed_session
  /\ delivered (client_fd (session_after run)) = "Username: " ++ "Password: ".
Proof. vm_compute. repeat split. Qed.

(** C7 for [bob] on an empty store. *)
Lemma registration_appends_one_record_witness :
  let salt := generateSalt toy_rd in
  lookup toy_digest (chomp "bob") (chomp "pw")
         (records_read (users_txt fresh_session)) = NotFound
  /\ appendable (users_txt fresh_session) = true
  /\ toy_digest (chomp "pw" ++ salt) = Some ("pw" ++ salt)
  /\ exists s',
       authenticate toy_digest true toy_rd [Received "bob"; Received "pw"]
                    fresh_session
       = Returns (true, ([], s'))
       /\ text (users_txt s')
          = Some (store_text (users_txt fresh_session)
                  ++ chomp "bob" ++ ":" ++ salt ++ ":"
                  ++ hex_of ("pw" ++ salt) ++ nl)
       /\ String.length salt = 16
       /\ all_chars is_alnum salt = true
       /\ String.length (hex_of ("pw" ++ salt)) = 64
       /\ all_chars is_lower_hex (hex_of ("pw" ++ salt)) = true
       /\ delivered (client_fd s')
          = delivered (client_fd fresh_session) ++ "Username: "
            ++ "Password: " ++ "Account created" ++ nl.
Proof.
  intros salt.
  split; [reflexivity|]. split; [reflexivity|]. split; [reflexivity|].
  apply (AuthFacts.registration_appends_one_record toy_digest true toy_rd
           "bob" "pw" ("pw" ++ salt) [] fresh_session).
  - vm_compute. lia.
  - vm_compute. lia.
  - reflexivity.
  - reflexivity.
  - reflexivity.
  - reflexivity.
Defined.

(** C8 on [/srv], where the entry [gone] has no metadata and the
    directory [vault], the last entry, cannot be opened: the peer receives
    the lines of the entries before [vault] and then the announcement, the
    three regular files are counted, and the traversal of [/srv/vault]
    alone announces the error and leaves the counter at 2. *)
Lemma traversal_failures_are_contained_witness :
  let st := DirectoryTraverser.mkState (mkConn "" None) 2%Z (Some "") in
  credit (DirectoryTraverser.sock st) = None
  /\ in_int (DirectoryTraverser.fileCount st)
  /\ DirectoryTraverser.traverse srv_fs 1 "/srv/vault" st
     = Some (Returns (DirectoryTraverser.mkState
                        (mkConn ("ERROR: Cannot open directory" ++ nl) None)
                        2%Z (Some "")))
  /\ exists st',
       DirectoryTraverser.traverse srv_fs 2 "/srv" st = Some (Returns st')
       /\ delivered (DirectoryTraverser.sock st')
          = "Directory: /srv" ++ nl ++ "File: /srv/a.txt" ++ nl
            ++ "Directory: /srv/docs" ++ nl ++ "File: /srv/docs/c.txt" ++ nl
            ++ "File: /srv/b.log" ++ nl
            ++ "ERROR: Cannot open directory" ++ nl
       /\ DirectoryTraverser.fileCount st' = 5%Z.
Proof.
  intros st.
  assert (Hc : in_int (DirectoryTraverser.fileCount st))
    by (unfold in_int, INT_MAX; cbn; lia).
  split; [reflexivity|]. split; [exact Hc|].
  destruct (ContainmentFacts.traversal_failures_are_contained
              srv_fs 0 "/srv/vault" "" [] [] st eq_refl Hc) as [Hroot _].
  destruct (ContainmentFacts.traversal_failures_are_contained
              srv_fs 2 "/srv" "vault"
              [("a.txt", RegularFile "hello world" (Granted None false));
               ("docs", Directory
                          [("c.txt",
                            RegularFile "say hello" (Granted None false))]);
               ("b.log", RegularFile "hello log" Denied);
               ("gone", NoMetadata);
               ("pipe", OtherFile)]
              [] st eq_refl Hc) as [_ Hentry].
  split; [apply Hroot; reflexivity|].
  destruct (Hentry LockedDir (or_introl eq_refl))
    as (st' & Hrun & Hsent & _ & Hcount & _).
  - vm_compute. reflexivity.
  - vm_compute. lia.
  - exists st'. split; [exact Hrun|]. split; [exact Hsent|exact Hcount].
Defined.

(** C9 on the line [SEARCH /srv], followed by an unknown verb that is
    answered. *)
Lemma search_without_pattern_is_ignored_witness :
  0 < String.length "SEARCH /srv"
  /\ compare0 (c_string "SEARCH /srv") 6 "SEARCH" = true
  /\ find_char " "%char 7 (c_string "SEARCH /srv") = None
  /\ command_loop srv_fs 2 [Received "SEARCH /srv"; Received "PING"]
                  fresh_session
     = command_loop srv_fs 2 [Received "PING"]
         (log fresh_session ("Command: " ++ c_string "SEARCH /srv"))
  /\ client_fd (log fresh_session ("Command: " ++ c_string "SEARCH /srv"))
     = client_fd fresh_session.
Proof.
  split; [vm_compute; lia|]. split; [reflexivity|]. split; [reflexivity|].
  apply (DispatchFacts.search_without_pattern_is_ignored
           srv_fs 2 "SEARCH /srv" [Received "PING"] fresh_session).
  - vm_compute. lia.
  - reflexivity.
  - reflexivity.
Defined.

(** The scan of [/odd] for [key]: the file with a newline in its name is
    listed as two paths that do not open, and the read that fails ends the
    scan before the file that follows, so nothing is reported. *)
Lemma scan_of_odd_names_and_failed_reads :
  exists s',
    dispatch odd_fs 1 "SEARCH /odd key" fresh_session = Some (Next s')
    /\ files_txt s'
       = Some ("/odd/x" ++ nl ++ "y" ++ nl ++ "/odd/bad" ++ nl
               ++ "/odd/good" ++ nl)
    /\ ContentScanner.scan odd_fs (files_txt s') "key" = [].
Proof. eexists. repeat split; vm_compute; reflexivity. Qed.

(** A file that opens and whose first [read] fails (a directory, for one)
    gets no byte at all from [INSPECT], no end marker either. *)
Lemma inspect_with_a_failed_read_sends_nothing :
  dispatch odd_fs 0 "INSPECT /odd/bad" fresh_session
  = Some (Next fresh_session).
Proof. reflexivity. Qed.

(** The line that is the verb [INSPECT] alone throws like the verb
    [TRAVERSE] alone. *)
Lemma bare_inspect_line_throws :
  command_loop srv_fs 2 [Received "INSPECT"; Received "PING"] fresh_session
  = Some (Uncaught, log fresh_session "Command: INSPECT").
Proof. reflexivity. Qed.

(** A peer that has gone ends the session: the [send] of the first
    [File:] line of a traversal raises [SIGPIPE], the process ends there,
    no later line is received, and the path list, truncated before the
    traversal, never gets the path that was in the buffer of the stream. *)
Lemma a_peer_that_left_ends_the_session :
  exists s',
    command_loop srv_fs 2 [Received "TRAVERSE /srv"; Received "EXIT"]
                 leaving_session
    = Some (Signalled, s')
    /\ delivered (client_fd s') = "Directory: /srv" ++ nl
    /\ files_txt s' = Some "".
Proof. eexists. repeat split; vm_compute; reflexivity. Qed.

End Examples.

(* ===================================================================== *)
(** * Part III: further properties of the code *)
(* ===================================================================== *)

(** ** The handshake and the credential store *)

Module AccountFacts.
Import Socket Props StdString StringFacts SocketFacts ClientHandler StoreFacts.

Lemma c_string_plain (s : string) :
  lacks "000"%char s = true -> c_string s = s.
Proof.
  unfold lacks. induction s as [|a s IH]; simpl; [reflexivity|].
  intros H. apply andb_prop in H. destruct H as [Ha Hs].
  destruct (Ascii.eqb a "000"); [discriminate|]. now rewrite IH.
Qed.

Lemma find_last_not_of_none (set : ascii -> bool) (t : string) :
  all_chars set t = true -> find_last_not_of set t = None.
Proof.
  induction t as [|a t IH]; simpl; [reflexivity|].
  intros H. apply andb_prop in H. destruct H as [Ha Ht].
  now rewrite (IH Ht), Ha.
Qed.

Lemma find_last_not_of_last (set : ascii -> bool) (s : string) (a : ascii)
  (t : string) :
  set a = false -> all_chars set t = true ->
  find_last_not_of set (s ++ String a t) = Some (String.length s).
Proof.
  intros Ha Ht. induction s as [|b s IH]; simpl.
  - now rewrite (find_last_not_of_none _ _ Ht), Ha.
  - now rewrite IH.
Qed.

Lemma crlf_is_not_nul (t : string) :
  all_chars is_crlf t = true -> lacks "000"%char t = true.
Proof.
  apply all_chars_weaken. intros a. unfold is_crlf.
  destruct (Ascii.eqb_spec a "010") as [->|_]; [reflexivity|].
  destruct (Ascii.eqb_spec a "013") as [->|_]; [reflexivity|discriminate].
Qed.

(** X1. [authenticate] strips the line ending of what it receives: a name
    that holds no NUL and ends in a character other than CR and LF is
    received as it is, whatever run of CR and LF follows it. A buffer that
    holds nothing but CR and LF is kept as it is: it is not made empty. *)
Theorem chomp_strips_the_line_ending (name : string) (last : ascii)
  (ending : string) :
  lacks "000"%char (name ++ String last "") = true ->
  is_crlf last = false ->
  all_chars is_crlf ending = true ->
  chomp (name ++ String last ending) = name ++ String last ""
  /\ chomp ending = ending.
Proof.
  intros Hnul Hlast Hend. pose proof (crlf_is_not_nul _ Hend) as Hnul'.
  split; unfold chomp.
  - assert (Hall : lacks "000"%char (name ++ String last ending) = true).
    { unfold lacks in *. rewrite all_chars_append in *.
      apply andb_prop in Hnul. destruct Hnul as [H1 H2]. rewrite H1.
      simpl in *. rewrite andb_true_r in H2. now rewrite H2, Hnul'. }
    rewrite (c_string_plain _ Hall).
    rewrite (find_last_not_of_last _ _ _ _ Hlast Hend).
    unfold erase_from.
    replace (name ++ String last ending)
      with ((name ++ String last "") ++ ending)
      by (rewrite append_assoc; reflexivity).
    replace (String.length name + 1)
      with (String.length (name ++ String last ""))
      by (rewrite length_append; reflexivity).
    apply substring_prefix.
  - rewrite (c_string_plain _ Hnul').
    now rewrite (find_last_not_of_none _ _ Hend).
Qed.

Section Account.

Variable SHA256 : string -> option string.
Variable log_opens : bool.

Lemma received_something (r : recv_result) :
  (received r <=? 0)%Z = false ->
  exists bytes, r = Received bytes /\ bytes <> "".
Proof.
  destruct r as [bytes| |]; simpl; try discriminate.
  intros H. exists bytes. split; [reflexivity|]. intros ->. discriminate.
Qed.

(** [authenticate] ends before it looks at the store, or hands the two
    answers to the rest of the function. *)
Lemma authenticate_stages (rd : nat -> nat) (inbox : list recv_result)
  (s : session) :
  let r := authenticate SHA256 log_opens rd inbox s in
  (((exists rest s', r = Returns (false, (rest, s')))
    \/ (exists s', r = Killed s'))
   /\ users_txt (session_after r) = users_txt s
   /\ logFile (session_after r) = logFile s)
  \/ (exists bu bw rest s3,
        inbox = Received bu :: Received bw :: rest
        /\ bu <> "" /\ bw <> ""
        /\ users_txt s3 = users_txt s /\ logFile s3 = logFile s
        /\ username s3 = chomp bu
        /\ r = (c <- check_credentials SHA256 log_opens rd (chomp bw) s3 ;;
                Returns (fst c, (rest, snd c)))).
Proof.
  unfold authenticate.
  destruct (safe_send (client_fd s) "Username: ") as [[[|] c]|c];
    [|left; split; [left; eexists; eexists; reflexivity|split; reflexivity]
     |left; split; [right; eexists; reflexivity|split; reflexivity]].
  destruct inbox as [|r1 inbox1];
    [left; split; [left; eexists; eexists; reflexivity|split; reflexivity]|]. cbn [recv].
  destruct (received r1 <=? 0)%Z eqn:E1;
    [left; split; [left; eexists; eexists; reflexivity|split; reflexivity]|].
  destruct (received_something _ E1) as (bu & -> & Hbu).
  cbn [buffer_of set_username set_client client_fd].
  destruct (safe_send c "Password: ") as [[[|] c']|c'];
    [|left; split; [left; eexists; eexists; reflexivity|split; reflexivity]
     |left; split; [right; eexists; reflexivity|split; reflexivity]].
  destruct inbox1 as [|r2 inbox2];
    [left; split; [left; eexists; eexists; reflexivity|split; reflexivity]|]. cbn [recv].
  destruct (received r2 <=? 0)%Z eqn:E2;
    [left; split; [left; eexists; eexists; reflexivity|split; reflexivity]|].
  destruct (received_something _ E2) as (bw & -> & Hbw).
  cbn [buffer_of]. right.
  exists bu, bw, inbox2,
    (mkSession c' (chomp bu) (logFile s) (users_txt s) (files_txt s)).
  repeat split; assumption.
Qed.

(** X2. [authenticate] succeeds only after it has received two non-empty
    answers: when the peer closes, a [recv] fails or an answer is empty, it
    returns false, or the process is ended by the signal of a prompt sent
    to a peer that has gone, and it has touched neither the credential
    store nor the session log. *)
Theorem authentication_needs_both_answers (rd : nat -> nat)
  (inbox : list recv_result) (s : session) :
  (forall bu bw rest,
     inbox = Received bu :: Received bw :: rest -> bu = "" \/ bw = "") ->
  let r := authenticate SHA256 log_opens rd inbox s in
  ((exists rest s', r = Returns (false, (rest, s')))
   \/ (exists s', r = Killed s'))
  /\ users_txt (session_after r) = users_txt s
  /\ logFile (session_after r) = logFile s.
Proof.
  intros Hfew r.
  destruct (authenticate_stages rd inbox s) as [H|H]; [exact H|].
  destruct H as (bu & bw & rest & s3 & Hin & Hbu & Hbw & _).
  destruct (Hfew _ _ _ Hin); contradiction.
Qed.

(** An answer changes the socket of the session and nothing else,
    whether its [send] returns or not. *)
Lemma reply_keeps (s : session) (data : string) :
  users_txt (final (reply s data)) = users_txt s
  /\ username (final (reply s data)) = username s
  /\ logFile (final (reply s data)) = logFile s
  /\ files_txt (final (reply s data)) = files_txt s.
Proof.
  destruct (AuthFacts.reply_cases s data) as [c [-> | ->]]; repeat split.
Qed.

(** What the rest of [authenticate] does to the store. *)
Lemma check_credentials_appends (rd : nat -> nat) (password : string)
  (s : session) :
  let r := check_credentials SHA256 log_opens rd password s in
  (exists suffix,
     store_text (users_txt (checked r)) = store_text (users_txt s) ++ suffix)
  /\ readable (users_txt (checked r)) = readable (users_txt s)
  /\ appendable (users_txt (checked r)) = appendable (users_txt s)
  /\ (forall s', r = Returns (false, s') -> users_txt s' = users_txt s).
Proof.
  intros r. subst r.
  pose proof (AuthFacts.check_credentials_cases SHA256 log_opens rd
                password s) as H.
  destruct (lookup SHA256 (username s) password (records_read (users_txt s))).
  - rewrite H.
    destruct (AuthFacts.checked_reply
                (log (open_log log_opens s) "User authenticated")
                ("Login successful" ++ nl) true) as [c ->].
    cbn [set_client users_txt].
    destruct (AuthFacts.log_keeps (open_log log_opens s)
                "User authenticated") as (_ & -> & _).
    destruct (AuthFacts.open_log_keeps log_opens s) as (_ & -> & _).
    repeat split; try (exists ""; now rewrite append_nil_r).
    intros s'.
    destruct (AuthFacts.reply_cases
                (log (open_log log_opens s) "User authenticated")
                ("Login successful" ++ nl)) as [c' [-> | ->]];
      discriminate.
  - rewrite H.
    destruct (AuthFacts.checked_reply s ("Incorrect password" ++ nl) false)
      as [c ->].
    cbn [set_client users_txt].
    repeat split; try (exists ""; now rewrite append_nil_r).
    intros s'.
    destruct (AuthFacts.reply_cases s ("Incorrect password" ++ nl))
      as [c' [-> | ->]]; [|discriminate].
    cbn [bind]. intros [= <-]. reflexivity.
  - rewrite H. destruct (appendable (users_txt s)) eqn:E.
    + match goal with
      | |- context [reply ?x ?d] =>
          destruct (AuthFacts.checked_reply x d true) as [c ->];
          pose proof (AuthFacts.reply_cases x d) as Hreply
      end.
      cbn [set_client users_txt].
      match goal with
      | |- context [log (open_log _ ?x) ?m] =>
          destruct (AuthFacts.log_keeps (open_log log_opens x) m)
            as (_ & -> & _);
          destruct (AuthFacts.open_log_keeps log_opens x) as (_ & -> & _)
      end.
      cbn [set_users users_txt with_record store_text text readable
           appendable].
      repeat split; try assumption.
      * eexists. reflexivity.
      * intros s'. destruct Hreply as [c' [-> | ->]]; discriminate.
    + cbn [checked]. repeat split; try assumption.
      * exists "". now rewrite append_nil_r.
      * intros s' [= <-]. reflexivity.
Qed.

(** X3. The credential store is only ever appended to: whatever the peer
    sends, and whether [authenticate] returns or the process is ended in
    it, the text of the store is then its former text followed by what was
    appended, and the store can be read and appended to as before. An
    attempt that returns false leaves the store as it was. *)
Theorem authentication_only_appends (rd : nat -> nat)
  (inbox : list recv_result) (s : session) :
  let r := authenticate SHA256 log_opens rd inbox s in
  (exists suffix,
     store_text (users_txt (session_after r))
     = store_text (users_txt s) ++ suffix)
  /\ readable (users_txt (session_after r)) = readable (users_txt s)
  /\ appendable (users_txt (session_after r)) = appendable (users_txt s)
  /\ (forall rest s',
        r = Returns (false, (rest, s')) -> users_txt s' = users_txt s).
Proof.
  intros r.
  destruct (authenticate_stages rd inbox s) as [H|H]; fold r in H.
  - destruct H as (Hends & Hstore & _). rewrite Hstore.
    repeat split; [exists ""; now rewrite append_nil_r|].
    intros rest s' E. rewrite E in Hstore. exact Hstore.
  - destruct H as (bu & bw & rest & s3 & _ & _ & _ & Hu & _ & _ & ->).
    rewrite AuthFacts.session_after_checked. rewrite <- Hu.
    destruct (check_credentials_appends rd (chomp bw) s3)
      as (H1 & H2 & H3 & H4).
    repeat split; try assumption.
    intros rest' s' E. apply H4.
    destruct (check_credentials SHA256 log_opens rd (chomp bw) s3)
      as [[ok s4]|s4]; [|discriminate].
    cbn [bind fst snd] in E. injection E as -> _ <-. reflexivity.
Qed.

(** X4. The first record of a user decides: when the store has a record
    whose user field is the name received and no record before it has, the
    attempt returns, to a peer that stays connected, and succeeds exactly
    when the salted digest of the password received is the hash of that
    record. Records after it are not looked at, and the store is left as it
    was. *)
Theorem first_record_decides (rd : nat -> nat) (bu bw : string)
  (rest : list recv_result) (s : session)
  (before later : list string) (line : string) :
  credit (client_fd s) = None ->
  0 < String.length bu -> 0 < String.length bw ->
  records_read (users_txt s) = (before ++ line :: later)%list ->
  ~ In (chomp bu) (map user_field before) ->
  user_field line = chomp bu ->
  exists s',
    authenticate SHA256 log_opens rd (Received bu :: Received bw :: rest) s
    = Returns (String.eqb (hashPassword SHA256
                             (chomp bw ++ snd (fst (parse_record line))))
                          (snd (parse_record line)),
               (rest, s'))
    /\ users_txt s' = users_txt s.
Proof.
  intros Hpeer Hu Hw Hrec Hnew Hline.
  rewrite (AuthFacts.authenticate_connected SHA256 log_opens rd bu bw rest s
             Hpeer Hu Hw).
  destruct (AuthFacts.prompted_fields s (chomp bu)) as (Hname & Hstore & Hc).
  assert (Hconn : credit (client_fd (prompted s (chomp bu))) = None)
    by (rewrite Hc; reflexivity).
  pose proof (AuthFacts.check_credentials_cases SHA256 log_opens rd
                (chomp bw) (prompted s (chomp bu))) as H.
  rewrite Hname, Hstore, Hrec in H.
  rewrite lookup_app in H by (apply lookup_not_found; exact Hnew).
  rewrite lookup_cons, Hline, String.eqb_refl in H.
  destruct (String.eqb _ (snd (parse_record line))); rewrite H.
  - rewrite (AuthFacts.reply_logged log_opens _ _ _ Hconn).
    cbn [bind fst snd]. eexists. split; [reflexivity|].
    cbn [set_client users_txt].
    destruct (AuthFacts.log_keeps
                (open_log log_opens (prompted s (chomp bu)))
                "User authenticated") as (_ & -> & _).
    destruct (AuthFacts.open_log_keeps log_opens (prompted s (chomp bu)))
      as (_ & -> & _).
    exact Hstore.
  - rewrite (CommandFacts.reply_connected _ _ Hconn).
    cbn [bind fst snd]. eexists. split; [reflexivity|exact Hstore].
Qed.

End Account.

(** The value of a hexadecimal digit. *)
Lemma hex_digit_value (k : nat) :
  k < 16 ->
  match String.index 0 (String (hex_digit k) "") "0123456789abcdef" with
  | Some i => i = k
  | None => False
  end.
Proof.
  intros H.
  do 16 (destruct k as [|k]; [vm_compute; reflexivity|]). lia.
Qed.

Lemma hex_digit_inj (i j : nat) :
  i < 16 -> j < 16 -> hex_digit i = hex_digit j -> i = j.
Proof.
  intros Hi Hj E.
  pose proof (hex_digit_value i Hi) as Vi.
  pose proof (hex_digit_value j Hj) as Vj.
  rewrite E in Vi.
  destruct (String.index 0 (String (hex_digit j) "") "0123456789abcdef");
    [congruence|contradiction].
Qed.

Lemma hex2_inj (a b : ascii) : hex2 a = hex2 b -> a = b.
Proof.
  unfold hex2.
  pose proof (nat_ascii_bounded a) as Ba.
  pose proof (nat_ascii_bounded b) as Bb.
  pose proof (Nat.div_mod_eq (nat_of_ascii a) 16) as Da.
  pose proof (Nat.div_mod_eq (nat_of_ascii b) 16) as Db.
  assert (Qa : nat_of_ascii a / 16 < 16)
    by (apply Nat.Div0.div_lt_upper_bound; lia).
  assert (Qb : nat_of_ascii b / 16 < 16)
    by (apply Nat.Div0.div_lt_upper_bound; lia).
  assert (Ra : nat_of_ascii a mod 16 < 16) by (apply Nat.mod_upper_bound; lia).
  assert (Rb : nat_of_ascii b mod 16 < 16) by (apply Nat.mod_upper_bound; lia).
  remember (nat_of_ascii a / 16) as qa. remember (nat_of_ascii a mod 16) as ra.
  remember (nat_of_ascii b / 16) as qb. remember (nat_of_ascii b mod 16) as rb.
  intros E. injection E as E1 E2.
  apply hex_digit_inj in E1; [|assumption|assumption].
  apply hex_digit_inj in E2; [|assumption|assumption].
  rewrite <- (ascii_nat_embedding a), <- (ascii_nat_embedding b).
  f_equal. lia.
Qed.

Lemma join_pairs_inj (f g : nat -> string) (l : list nat) :
  (forall i, String.length (f i) = 2 /\ String.length (g i) = 2) ->
  join (map f l) = join (map g l) ->
  forall i, In i l -> f i = g i.
Proof.
  intros Hlen. induction l as [|x l IH]; simpl; [contradiction|].
  intros E i Hi.
  destruct (Hlen x) as [Hf Hg].
  destruct (f x) as [|a1 [|a2 [|? ?]]] eqn:Ef; try discriminate.
  destruct (g x) as [|b1 [|b2 [|? ?]]] eqn:Eg; try discriminate.
  simpl in E. injection E as -> -> E.
  destruct Hi as [<-|Hi]; [congruence|].
  now apply IH.
Qed.

(** X5. The lowercase hexadecimal text that [hashPassword] makes of a digest
    loses nothing: two passwords with the same hash text have digests that
    agree on each of the 32 bytes printed. *)
Theorem hash_text_determines_the_digest
  (SHA256 : string -> option string) (p1 p2 d1 d2 : string) :
  SHA256 p1 = Some d1 -> SHA256 p2 = Some d2 ->
  hashPassword SHA256 p1 = hashPassword SHA256 p2 ->
  forall i, i < SHA256_DIGEST_LENGTH -> char_at d1 i = char_at d2 i.
Proof.
  intros H1 H2 E i Hi.
  rewrite (hashPassword_digest _ _ _ H1), (hashPassword_digest _ _ _ H2) in E.
  unfold hex_of in E.
  apply hex2_inj.
  apply (join_pairs_inj (fun i => hex2 (char_at d1 i))
                        (fun i => hex2 (char_at d2 i))
                        (seq 0 SHA256_DIGEST_LENGTH)).
  - intros k. split; reflexivity.
  - exact E.
  - apply in_seq. lia.
Qed.

End AccountFacts.

(** ** The command loop as a whole *)

Module SessionFacts.
Import Socket Posix Tree Props MoreProps StdString StringFacts SocketFacts.
Import DirectoryTraverser TraversalFacts ClientHandler.

Lemma same_account_refl (s : session) : same_account s s.
Proof. repeat split. Qed.

Lemma same_account_trans (a b c : session) :
  same_account a b -> same_account b c -> same_account a c.
Proof.
  intros (H1 & H2 & H3) (H4 & H5 & H6).
  repeat split; congruence.
Qed.

(** An answer, whether its [send] returns or not. *)
Lemma reply_same (s : session) (data : string) :
  same_account s (final (reply s data)).
Proof.
  destruct (AuthFacts.reply_cases s data) as [c [-> | ->]]; repeat split.
Qed.

Lemma bind_same (s : session) (r : run session session)
  (rest : session -> run session session) :
  same_account s (final r) ->
  (forall a, same_account a (final (rest a))) ->
  same_account s (final (a <- r ;; rest a)).
Proof.
  intros Hr Hrest. destruct r as [a|w]; cbn [bind]; [|exact Hr].
  exact (same_account_trans _ _ _ Hr (Hrest a)).
Qed.

Lemma reply_matches_same (matches : list string) :
  forall s, same_account s (final (reply_matches s matches)).
Proof.
  induction matches as [|file matches IH]; intros s;
    [apply same_account_refl|].
  cbn [reply_matches]. apply bind_same; [apply reply_same|exact IH].
Qed.

Lemma answered_same (s : session) (r : run session session) (f : flow) :
  same_account s (final r) ->
  answered r = Some f ->
  match f with
  | Next s' | Throw s' | Kill s' => same_account s s'
  | Break s' => s' = log s "Session ended"
  end.
Proof.
  intros H. destruct r as [a|w]; intros [= <-]; exact H.
Qed.

(** What one turn of the loop leaves of the account and of the log. *)
Lemma dispatch_keeps (fs : filesystem) (fuel : nat) (command : string)
  (s : session) (f : flow) :
  dispatch fs fuel command s = Some f ->
  match f with
  | Next s' | Throw s' | Kill s' => same_account s s'
  | Break s' => s' = log s "Session ended"
  end.
Proof.
  unfold dispatch.
  destruct (compare0 command 8 "TRAVERSE").
  { destruct (substr_from command 9) as [path|];
      [|intros [= <-]; apply same_account_refl].
    unfold traverse_command.
    destruct (run_traverse fs fuel path s) as [[t|t]|]; [| |discriminate].
    - apply answered_same.
      apply (same_account_trans _ (after_traverse s t));
        [repeat split|].
      apply bind_same; [apply reply_same|intros a; apply reply_same].
    - intros [= <-]. repeat split. }
  destruct (compare0 command 6 "SEARCH").
  { destruct (find_char " " 7 command) as [spacePos|];
      [|intros [= <-]; apply same_account_refl].
    destruct (substr command 7 (spacePos - 7)) as [path|];
      [|intros [= <-]; apply same_account_refl].
    destruct (substr_from command (spacePos + 1)) as [pattern|];
      [|intros [= <-]; apply same_account_refl].
    unfold search_command.
    destruct (run_traverse fs fuel path s) as [[t|t]|]; [| |discriminate].
    - cbv zeta. apply answered_same.
      apply (same_account_trans _ (after_traverse s t));
        [repeat split|].
      apply bind_same; [|intros a; apply reply_same].
      destruct (ContentScanner.scan fs (files_txt (after_traverse s t))
                  pattern) as [|m ms]; [apply reply_same|].
      apply bind_same; [apply reply_same|].
      intros a. apply reply_matches_same.
    - intros [= <-]. repeat split. }
  destruct (compare0 command 7 "INSPECT").
  { destruct (substr_from command 8) as [path|];
      [|intros [= <-]; apply same_account_refl].
    unfold inspect_command.
    destruct (FileInspector.inspect fs path (client_fd s));
      intros [= <-]; repeat split. }
  destruct (compare0 command 4 "EXIT"); [intros [= <-]; reflexivity|].
  apply answered_same.
  apply bind_same; [apply reply_same|intros a; apply reply_same].
Qed.

Lemma log_grows (s : session) (message : string) (written : list string) :
  logFile s = Some written ->
  logFile (log s message) = Some (written ++ [message])%list.
Proof. intros H. unfold log. rewrite H. reflexivity. Qed.

Lemma command_loop_keeps (fs : filesystem) (fuel : nat)
  (inbox : list recv_result) :
  forall s e s',
    command_loop fs fuel inbox s = Some (e, s') ->
    users_txt s' = users_txt s /\ username s' = username s
    /\ forall written, logFile s = Some written ->
         exists more, logFile s' = Some (written ++ more)%list.
Proof.
  induction inbox as [|r rest IH]; intros s e s'; cbn [command_loop].
  - intros [= _ <-]. repeat split. intros written H. exists [].
    now rewrite app_nil_r.
  - destruct (received r <=? 0)%Z.
    { intros [= _ <-]. repeat split. intros written H. exists [].
      now rewrite app_nil_r. }
    set (command := c_string (buffer_of r)).
    destruct (AuthFacts.log_keeps s ("Command: " ++ command))
      as (_ & Hu & Hn).
    destruct (dispatch fs fuel command (log s ("Command: " ++ command)))
      as [f|] eqn:E; [|discriminate].
    apply dispatch_keeps in E.
    assert (Hlog : forall written, logFile s = Some written ->
              logFile (log s ("Command: " ++ command))
              = Some (written ++ [("Command: " ++ command)%string])%list)
      by (intros written H; now apply log_grows).
    destruct f as [s1|s1|s1|s1].
    + destruct E as (Eu & En & El). intros H.
      destruct (IH _ _ _ H) as (-> & -> & Hmore).
      rewrite Eu, En, Hu, Hn. repeat split.
      intros written Hw. rewrite El in Hmore.
      destruct (Hmore _ (Hlog _ Hw)) as [more ->].
      exists (("Command: " ++ command) :: more). now rewrite <- app_assoc.
    + intros [= _ <-]. subst s1.
      destruct (AuthFacts.log_keeps (log s ("Command: " ++ command))
                  "Session ended") as (_ & -> & ->).
      rewrite Hu, Hn. repeat split.
      intros written Hw.
      rewrite (log_grows _ _ _ (Hlog _ Hw)).
      exists ["Command: " ++ command; "Session ended"].
      now rewrite <- app_assoc.
    + destruct E as (Eu & En & El). intros [= _ <-].
      rewrite Eu, En, Hu, Hn. repeat split.
      intros written Hw. rewrite El, (Hlog _ Hw). eexists. reflexivity.
    + destruct E as (Eu & En & El). intros [= _ <-].
      rewrite Eu, En, Hu, Hn. repeat split.
      intros written Hw. rewrite El, (Hlog _ Hw). eexists. reflexivity.
Qed.

(** X6. Commands never touch the account: whatever lines the loop of
    [handle] receives and however it ends, by a return, an exception or
    the signal of a [send], the credential store and the user name of the
    session are what they were when the loop began. *)
Theorem commands_leave_the_store_alone (fs : filesystem) (fuel : nat)
  (inbox : list recv_result) (s s' : session) (e : ending) :
  command_loop fs fuel inbox s = Some (e, s') ->
  users_txt s' = users_txt s /\ username s' = username s.
Proof.
  intros H. destruct (command_loop_keeps _ _ _ _ _ _ H) as (Hu & Hn & _).
  split; assumption.
Qed.

(** X7. Every line received is written to the session log before it is
    acted on: when the log is open, the line [Command: <line>] follows
    what was written before, whether the line is a known command, an
    unknown one, one that makes [handle] throw or one in whose answer the
    process is ended; what the log held is kept. *)
Theorem every_line_received_is_logged (fs : filesystem) (fuel : nat)
  (bytes : string) (rest : list recv_result) (s s' : session) (e : ending)
  (written : list string) :
  0 < String.length bytes ->
  logFile s = Some written ->
  command_loop fs fuel (Received bytes :: rest) s = Some (e, s') ->
  exists more,
    logFile s'
    = Some (written ++ ("Command: " ++ c_string bytes)%string :: more)%list.
Proof.
  intros Hdata Hlog. cbn [command_loop].
  rewrite (DispatchFacts.received_data _ Hdata). cbn [buffer_of].
  pose proof (log_grows s ("Command: " ++ c_string bytes) _ Hlog) as Hlog'.
  destruct (dispatch fs fuel (c_string bytes)
              (log s ("Command: " ++ c_string bytes))) as [f|] eqn:E;
    [|discriminate].
  apply dispatch_keeps in E. destruct f as [s1|s1|s1|s1].
  - destruct E as (_ & _ & El). intros H.
    destruct (command_loop_keeps _ _ _ _ _ _ H) as (_ & _ & Hmore).
    rewrite El in Hmore. destruct (Hmore _ Hlog') as [more ->].
    exists more. now rewrite <- app_assoc.
  - intros [= _ <-]. subst s1. rewrite (log_grows _ _ _ Hlog').
    exists ["Session ended"]. now rewrite <- app_assoc.
  - destruct E as (_ & _ & El). intros [= _ <-]. rewrite El, Hlog'.
    exists []. reflexivity.
  - destruct E as (_ & _ & El). intros [= _ <-]. rewrite El, Hlog'.
    exists []. reflexivity.
Qed.

(** The frames of a traversal write to a path list that is open and leave
    one that is not as it is. *)
Lemma put_truncate (s : string) (stream : option string * string) :
  truncate (fst (put s stream)) = truncate (fst stream).
Proof.
  unfold put. destruct (kept (snd stream) s); [reflexivity|].
  cbn [fst]. destruct (fst stream); reflexivity.
Qed.

Lemma written_truncate (t : tree) :
  forall p file, truncate (written t p file) = truncate file.
Proof.
  induction t as [bytes perm| | | |entries IH] using tree_induction;
    intros p file; try reflexivity.
  rewrite written_directory.
  assert (H : forall stream,
            truncate (fst (written_entries entries p stream))
            = truncate (fst stream)).
  { induction IH as [|e es He _ IHes]; intros stream; [reflexivity|].
    unfold written_entries. cbn [fold_left].
    fold (written_entries es p (written_entry p stream e)).
    rewrite IHes. unfold written_entry.
    pose proof (He (p ++ "/" ++ fst e) (fst stream)) as Hsub.
    destruct (snd e); cbn [fst]; try exact Hsub.
    rewrite !put_truncate. reflexivity. }
  specialize (H (file, "")). cbn [fst] in H.
  destruct (fst (written_entries entries p (file, ""))), file;
    cbn in *; congruence.
Qed.

(** X8. [TRAVERSE] starts from an empty path list each time: on a
    directory that shows the tree [T], to a peer that stays connected, the
    list after the command is what the frames of the traversal write to an
    empty list, whatever it held before, and the same command sent again
    gets the same answer and leaves the same list.  When the lines of
    every directory stay in the buffer of its stream, the list is the
    listing of the tree. *)
Theorem traverse_again_gives_the_same_answer
  (fs : filesystem) (T : tree) (root : string) (sep : ascii)
  (fuel : nat) (s : session) :
  root_at fs T root = true ->
  depth T <= fuel ->
  credit (client_fd s) = None ->
  exists s1 s2 answer,
    dispatch fs fuel ("TRAVERSE" ++ String sep root) s = Some (Next s1)
    /\ dispatch fs fuel ("TRAVERSE" ++ String sep root) s1 = Some (Next s2)
    /\ delivered (client_fd s1) = delivered (client_fd s) ++ answer
    /\ delivered (client_fd s2) = delivered (client_fd s1) ++ answer
    /\ files_txt s1 = written T root (truncate (files_txt s))
    /\ files_txt s2 = files_txt s1
    /\ (lines_fit T root = true ->
        files_txt s1
        = option_map (fun _ => text_of (listing T root)) (files_txt s)).
Proof.
  intros Hroot Hdepth Hpeer.
  assert (Hverb : compare0 ("TRAVERSE" ++ String sep root) 8 "TRAVERSE" = true)
    by (apply (compare0_prefix "TRAVERSE"); eexists; reflexivity).
  assert (Hpath : substr_from ("TRAVERSE" ++ String sep root) 9 = Some root).
  { change ("TRAVERSE" ++ String sep root)
      with (("TRAVERSE" ++ String sep "") ++ root).
    change 9 with (String.length ("TRAVERSE" ++ String sep "")).
    apply substr_from_append. }
  rewrite (DispatchFacts.dispatch_traverse _ _ _ _ _ Hverb Hpath).
  rewrite (CommandFacts.traverse_command_tree fs T root fuel s
             Hroot Hdepth Hpeer).
  eexists. eexists. eexists.
  split; [reflexivity|].
  rewrite (DispatchFacts.dispatch_traverse _ _ _ _ _ Hverb Hpath).
  rewrite (CommandFacts.traverse_command_tree fs T root fuel)
    by (try assumption; reflexivity).
  split; [reflexivity|].
  cbn [client_fd delivered files_txt].
  split; [reflexivity|]. split; [reflexivity|]. split; [reflexivity|].
  split; [rewrite written_truncate; destruct (files_txt s); reflexivity|].
  intros Hfit. rewrite (written_fit T root _ Hfit).
  destruct (files_txt s); reflexivity.
Qed.

End SessionFacts.

(** ** The traversal on any file system *)

Module WalkFacts.
Import Socket Posix Tree Props MoreProps StringFacts.
Import DirectoryTraverser TraversalFacts.

Section Shape.

Variable fs : filesystem.












Lemma after_connected (st : state) (msgs : list string) (n : Z)
  (file : option string) : credit (sock (after st msgs n file)) = None.
Proof. reflexivity. Qed.







End Shape.

End WalkFacts.

(** ** The scanner and the streamer when reads, closes and sends fail *)

Module FailureFacts.
Import Socket Posix Tree Props MoreProps StdString StringFacts SocketFacts StreamFacts.

(** What the [read] loop gathers is the beginning of the file, and the
    whole of it when the loop ends at end of file. *)
Lemma read_loop_prefix (bufsize : nat) :
  0 < bufsize ->
  forall (len k : nat) (err : option nat) (pending : string),
    String.length pending <= len ->
    exists rest,
      pending = join (fst (read_loop bufsize k err pending)) ++ rest
      /\ (snd (read_loop bufsize k err pending) = true -> rest = "").
Proof.
  intros Hpos. induction len as [|len IH]; intros k err pending Hlen;
    rewrite read_loop_unfold; destruct (fails_at err k);
    try (exists pending; split; [reflexivity|discriminate]);
    destruct bufsize as [|n]; try lia;
    destruct pending as [|a s];
    try (exists ""; split; reflexivity); try (simpl in Hlen; lia).
  cbv zeta. cbn [fst snd join fold_right].
  assert (Hs : String.length (drop n s) <= len)
    by (pose proof (drop_length n s); simpl in Hlen; lia).
  destruct (IH (S k) err (drop n s) Hs) as (rest & Hjoin & Hend).
  exists rest. split; [|exact Hend].
  fold (join (fst (read_loop (S n) (S k) err (drop n s)))).
  cbn [append]. rewrite append_assoc, <- Hjoin, take_drop. reflexivity.
Qed.

Lemma read_all_prefix (bufsize : nat) (fd : file_image) :
  0 < bufsize ->
  exists rest,
    f_bytes fd = join (fst (read_all bufsize fd)) ++ rest
    /\ (snd (read_all bufsize fd) = true -> rest = "").
Proof.
  intros Hpos. unfold read_all.
  apply (read_loop_prefix bufsize Hpos (String.length (f_bytes fd))).
  apply le_n.
Qed.

Lemma read_all_whole (bufsize : nat) (fd : file_image) :
  0 < bufsize -> snd (read_all bufsize fd) = true ->
  join (fst (read_all bufsize fd)) = f_bytes fd.
Proof.
  intros Hpos Hend.
  destruct (read_all_prefix bufsize fd Hpos) as (rest & Hjoin & Hrest).
  rewrite (Hrest Hend), append_nil_r in Hjoin. now symmetry.
Qed.

(** A file read to its end, as [scan] wants it. *)
Lemma scan_loop_sound (fs : filesystem) (pattern : string) :
  forall (paths matches : list string) (path : string),
    In path (ContentScanner.scan_loop fs pattern paths matches) ->
    In path matches
    \/ (In path paths
        /\ exists fd,
             open_rdonly fs path = Some fd
             /\ snd (read_all 4096 fd) = true
             /\ contains pattern (f_bytes fd)).
Proof.
  induction paths as [|p paths IH]; intros matches path;
    cbn [ContentScanner.scan_loop]; [tauto|].
  destruct (open_rdonly fs p) as [fd|] eqn:Eopen.
  2:{ intros H. destruct (IH _ _ H) as [H'|(H1 & H2)]; [tauto|].
      right. split; [right; exact H1|exact H2]. }
  destruct (read_all 4096 fd) as [chunks eof] eqn:Eread.
  destruct eof; cbn [negb]; [|tauto].
  assert (Hwhole : ContentScanner.concat_chunks chunks = f_bytes fd).
  { pose proof (read_all_whole 4096 fd) as H. rewrite Eread in H.
    apply H; [lia|reflexivity]. }
  rewrite Hwhole.
  assert (Hnew : forall m,
            In path match find pattern (f_bytes fd) with
                    | Some _ => (m ++ [p])%list
                    | None => m
                    end ->
            In path m
            \/ (In path (p :: paths)
                /\ exists fd',
                     open_rdonly fs path = Some fd'
                     /\ snd (read_all 4096 fd') = true
                     /\ contains pattern (f_bytes fd'))).
  { intros m Hin. destruct (find pattern (f_bytes fd)) eqn:Efind; [|tauto].
    apply in_app_or in Hin. destruct Hin as [Hin|[<-|[]]]; [tauto|].
    right. split; [left; reflexivity|]. exists fd.
    split; [exact Eopen|]. split; [now rewrite Eread|].
    apply find_contains. rewrite Efind. discriminate. }
  destruct (f_close_error fd); [apply Hnew|].
  intros H. destruct (IH _ _ H) as [H'|(H1 & H2)].
  - apply Hnew. exact H'.
  - right. split; [right; exact H1|exact H2].
Qed.

(** X11. [scan] reports nothing it has not read: every path of its result
    is a line of the path list, its file was opened and read to the end
    without a failing [read], and the bytes of the file hold the
    pattern. *)
Theorem scan_reports_only_what_it_read (fs : filesystem)
  (inputFile : option string) (pattern path : string) :
  In path (ContentScanner.scan fs inputFile pattern) ->
  exists text fd,
    inputFile = Some text
    /\ In path (lines text)
    /\ open_rdonly fs path = Some fd
    /\ snd (read_all 4096 fd) = true
    /\ contains pattern (f_bytes fd).
Proof.
  unfold ContentScanner.scan. destruct inputFile as [text|]; [|contradiction].
  intros H. apply scan_loop_sound in H.
  destruct H as [[]|(Hline & fd & Hopen & Hread & Hhold)].
  exists text, fd. repeat split; assumption.
Qed.

(** X12. A failure stops the scan: when a [read] of a listed file fails,
    [scan] returns the matches among the files listed before it, and when
    its [close] fails, those and the file itself if it matches.  The files
    listed after it are not searched, whatever they hold. *)
Theorem scan_stops_at_the_first_failure (fs : filesystem)
  (text pattern : string) (before later : list string) (bad : string)
  (fd : file_image) :
  lines text = (before ++ bad :: later)%list ->
  (forall path fd', In path before -> open_rdonly fs path = Some fd' ->
                    f_read_error fd' = None /\ f_close_error fd' = false) ->
  open_rdonly fs bad = Some fd ->
  (snd (read_all 4096 fd) = false ->
   ContentScanner.scan fs (Some text) pattern
   = filter (holds_pattern fs pattern) before)
  /\ (snd (read_all 4096 fd) = true -> f_close_error fd = true ->
      ContentScanner.scan fs (Some text) pattern
      = filter (holds_pattern fs pattern) (before ++ [bad])).
Proof.
  intros Hlines Hsound Hopen. unfold ContentScanner.scan. rewrite Hlines.
  assert (Hskip : forall tail matches,
            ContentScanner.scan_loop fs pattern (before ++ tail) matches
            = ContentScanner.scan_loop fs pattern tail
                (matches ++ filter (holds_pattern fs pattern) before)).
  { clear Hlines. induction before as [|p before IH]; intros tail matches.
    - cbn [app filter]. now rewrite app_nil_r.
    - change ((p :: before) ++ tail)%list with ([p] ++ (before ++ tail))%list.
      assert (Hone : forall rest m,
                ContentScanner.scan_loop fs pattern ([p] ++ rest) m
                = ContentScanner.scan_loop fs pattern rest
                    (m ++ filter (holds_pattern fs pattern) [p])).
      { intros rest m. cbn [app ContentScanner.scan_loop filter].
        unfold holds_pattern at 1.
        destruct (open_rdonly fs p) as [fp|] eqn:Ep;
          [|now rewrite app_nil_r].
        destruct (Hsound p fp (or_introl eq_refl) Ep) as [Hr Hc].
        destruct fp as [bytes read_error close_error].
        cbn [f_read_error f_close_error f_bytes] in *. subst.
        destruct (read_all_sound bytes false) as [chunks [Hchunks Hjoin]].
        change (read_all 4096 (mkFile bytes None false))
          with (read_all BUFFER_SIZE (mkFile bytes None false)).
        rewrite Hchunks. cbn [negb f_close_error].
        change (ContentScanner.concat_chunks chunks) with (join chunks).
        rewrite Hjoin.
        destruct (find pattern bytes); [reflexivity|now rewrite app_nil_r]. }
      rewrite Hone.
      rewrite IH by (intros q fq Hq; apply Hsound; right; exact Hq).
      change (p :: before) with ([p] ++ before)%list.
      now rewrite filter_app, app_assoc. }
  rewrite Hskip. cbn [app ContentScanner.scan_loop]. rewrite Hopen.
  destruct (read_all 4096 fd) as [chunks eof] eqn:Eread. cbn [snd].
  split.
  - intros ->. reflexivity.
  - intros -> Hclose. cbn [negb]. rewrite Hclose.
    assert (Hwhole : ContentScanner.concat_chunks chunks = f_bytes fd).
    { pose proof (read_all_whole 4096 fd) as H. rewrite Eread in H.
      apply H; [lia|reflexivity]. }
    rewrite Hwhole, filter_app. cbn [filter app].
    assert (Hbad : holds_pattern fs pattern bad
                   = match find pattern (f_bytes fd) with
                     | Some _ => true
                     | None => false
                     end)
      by (unfold holds_pattern; now rewrite Hopen).
    rewrite Hbad.
    destruct (find pattern (f_bytes fd));
      [reflexivity|now rewrite app_nil_r].
Qed.

(** X13. An empty pattern matches every file that is read: when no
    [read] and no [close] fails, [scan] with the empty pattern returns, in
    the order of the list, every listed path that can be opened. *)
Theorem an_empty_pattern_matches_every_file_read (fs : filesystem)
  (text : string) :
  (forall path fd, open_rdonly fs path = Some fd ->
                   f_read_error fd = None /\ f_close_error fd = false) ->
  ContentScanner.scan fs (Some text) ""
  = filter (fun path => match open_rdonly fs path with
                        | Some _ => true
                        | None => false
                        end) (lines text).
Proof.
  intros Hsound. unfold ContentScanner.scan.
  rewrite (ScanFacts.scan_loop_filter fs "" (lines text) [])
    by (intros path fd _; apply Hsound).
  cbn [app]. apply filter_ext. intros path. unfold holds_pattern.
  destruct (open_rdonly fs path) as [fd|]; [|reflexivity].
  rewrite find_unfold.
  assert (E : prefix "" (f_bytes fd) = true)
    by (apply prefix_spec; exists (f_bytes fd); reflexivity).
  now rewrite E.
Qed.

Lemma plain_scan_loop_acc (fs : filesystem) (pattern : string) :
  forall paths matches,
    ContentScannerPlain.scan_loop fs pattern paths matches
    = (matches ++ ContentScannerPlain.scan_loop fs pattern paths [])%list.
Proof.
  induction paths as [|p paths IH]; intros matches;
    cbn [ContentScannerPlain.scan_loop]; [now rewrite app_nil_r|].
  destruct (open_rdonly fs p) as [fd|]; [|apply IH].
  rewrite IH. symmetry. rewrite IH. symmetry.
  destruct (find pattern _); [|reflexivity].
  now rewrite <- app_assoc.
Qed.

Lemma plain_scan_loop_extends (fs : filesystem) (pattern : string) :
  forall paths matches,
    exists more,
      ContentScannerPlain.scan_loop fs pattern paths matches
      = (ContentScanner.scan_loop fs pattern paths matches ++ more)%list.
Proof.
  induction paths as [|p paths IH]; intros matches;
    cbn [ContentScannerPlain.scan_loop ContentScanner.scan_loop].
  - exists []. now rewrite app_nil_r.
  - destruct (open_rdonly fs p) as [fd|]; [|apply IH].
    destruct (read_all 4096 fd) as [chunks eof]. cbn [fst].
    set (matches' := match find pattern (ContentScanner.concat_chunks chunks)
                     with
                     | Some _ => (matches ++ [p])%list
                     | None => matches
                     end).
    assert (Hgrow : exists more, matches' = (matches ++ more)%list).
    { subst matches'. destruct (find pattern _); eexists;
        [reflexivity|symmetry; apply app_nil_r]. }
    destruct eof; cbn [negb].
    + destruct (f_close_error fd); [|apply IH].
      rewrite plain_scan_loop_acc. eexists. reflexivity.
    + rewrite plain_scan_loop_acc. destruct Hgrow as [more ->].
      rewrite <- app_assoc. eexists. reflexivity.
Qed.

(** X14. The exception handling of the later scanner only ever drops
    matches: on the same path list, what the scanner of DCDIU V2.0 returns
    begins with what the later one returns, in the same order, and the two
    results are the same when no [read] and no [close] of a listed file
    fails. *)
Theorem guarded_scan_is_a_prefix_of_the_plain_scan (fs : filesystem)
  (inputFile : option string) (pattern : string) :
  (exists more,
     ContentScannerPlain.scan fs inputFile pattern
     = (ContentScanner.scan fs inputFile pattern ++ more)%list)
  /\ ((forall path fd, open_rdonly fs path = Some fd ->
                       f_read_error fd = None /\ f_close_error fd = false) ->
      ContentScannerPlain.scan fs inputFile pattern
      = ContentScanner.scan fs inputFile pattern).
Proof.
  unfold ContentScannerPlain.scan, ContentScanner.scan.
  destruct inputFile as [text|]; [|split; [exists []|]; reflexivity].
  split; [apply plain_scan_loop_extends|].
  intros Hsound.
  rewrite (ScanFacts.scan_loop_filter fs pattern (lines text) [])
    by (intros path fd _; apply Hsound).
  generalize (lines text). intros paths.
  induction paths as [|p paths IH];
    cbn [ContentScannerPlain.scan_loop filter app]; [reflexivity|].
  unfold holds_pattern at 1.
  destruct (open_rdonly fs p) as [fd|] eqn:Ep; [|exact IH].
  destruct (Hsound p fd Ep) as [Hr Hc].
  destruct fd as [bytes read_error close_error].
  cbn [f_read_error f_close_error f_bytes] in *. subst.
  destruct (read_all_sound bytes false) as [chunks [Hchunks Hjoin]].
  change (read_all 4096 (mkFile bytes None false))
    with (read_all BUFFER_SIZE (mkFile bytes None false)).
  rewrite Hchunks. cbn [fst].
  change (ContentScanner.concat_chunks chunks) with (join chunks).
  rewrite Hjoin, plain_scan_loop_acc, IH.
  destruct (find pattern bytes); reflexivity.
Qed.

(** What the streaming loop delivers is the beginning of what it was
    given, and the whole of it when no [send] failed. *)
Lemma send_chunks_prefix (chunks : list string) :
  forall c,
    exists sent rest,
      join chunks = sent ++ rest
      /\ delivered (reached (FileInspector.send_chunks c chunks))
         = delivered c ++ sent
      /\ (forall c', FileInspector.send_chunks c chunks = Returns (true, c') ->
                     rest = "").
Proof.
  induction chunks as [|chunk chunks IH]; intros c.
  - exists "", "". cbn. now rewrite append_nil_r.
  - cbn [FileInspector.send_chunks join fold_right].
    fold (join chunks).
    destruct (send c chunk) as [c'|c'|] eqn:Esend.
    + destruct (IH c') as (sent & rest & Hjoin & Hdel & Hall).
      exists (chunk ++ sent), rest.
      assert (Hc' : delivered c' = delivered c ++ chunk).
      { unfold send in Esend. destruct (credit c) as [[[|n] [|e]]|];
          inversion Esend; reflexivity. }
      rewrite Hdel, Hc', Hjoin, !append_assoc. repeat split. exact Hall.
    + exists "", (chunk ++ join chunks).
      assert (Hc' : delivered c' = delivered c).
      { unfold send in Esend. destruct (credit c) as [[[|n] [|e]]|];
          inversion Esend; reflexivity. }
      cbn [reached]. rewrite Hc', append_nil_r.
      repeat split. discriminate.
    + exists "", (chunk ++ join chunks).
      cbn [reached]. rewrite append_nil_r. repeat split. discriminate.
Qed.

Lemma send_on_delivers (c : conn) (data : string) :
  delivered (final (send_on c data)) = delivered c
  \/ delivered (final (send_on c data)) = delivered c ++ data.
Proof.
  unfold send_on, send. destruct (credit c) as [[[|n] [|e]]|]; cbn; tauto.
Qed.

(** X15. [inspect] never sends the end marker after a part of a file: for
    a file that opens, what the peer has received when [inspect] has
    returned, or when the process was ended in it by the signal of a
    [send], is a beginning of the bytes of the file, or all of them
    followed by the marker, and the marker is only sent when every [read],
    the [close] and every [send] before it succeeded. *)
Theorem the_marker_follows_only_a_whole_file (fs : filesystem)
  (path : string) (c : conn) (fd : file_image) :
  open_rdonly fs path = Some fd ->
  exists sent,
    delivered (final (FileInspector.inspect fs path c)) = delivered c ++ sent
    /\ ((exists rest, f_bytes fd = sent ++ rest)
        \/ (sent = f_bytes fd ++ END_MARK
            /\ snd (read_all BUFFER_SIZE fd) = true
            /\ f_close_error fd = false)).
Proof.
  intros Hopen. unfold FileInspector.inspect. rewrite Hopen.
  assert (Hpos : 0 < BUFFER_SIZE) by (unfold BUFFER_SIZE; lia).
  destruct (read_all_prefix BUFFER_SIZE fd Hpos) as (tail & Hbytes & Hend).
  destruct (read_all BUFFER_SIZE fd) as [chunks eof]. cbn [fst snd] in *.
  destruct (send_chunks_prefix chunks c) as (sent & rest & Hjoin & Hdel & Hall).
  assert (Hpart : exists rest', f_bytes fd = sent ++ rest').
  { exists (rest ++ tail). now rewrite Hbytes, Hjoin, append_assoc. }
  destruct (FileInspector.send_chunks c chunks) as [[[|] c']|c'];
    cbn [bind final reached] in *; [|exists sent; tauto|exists sent; tauto].
  destruct eof; cbn [negb final]; [|exists sent; tauto].
  destruct (f_close_error fd) eqn:Eclose; [cbn [final]; exists sent; tauto|].
  rewrite (Hall c' eq_refl), append_nil_r in Hjoin.
  rewrite (Hend eq_refl), append_nil_r in Hbytes.
  destruct (send_on_delivers c' END_MARK) as [E|E]; rewrite E, Hdel.
  - exists sent. tauto.
  - exists (sent ++ END_MARK). rewrite append_assoc. split; [reflexivity|].
    right. repeat split. congruence.
Qed.

Lemma send_each_connected (chunks : list string) :
  forall c, credit c = None ->
    FileInspectorPlain.send_each c chunks
    = Returns (mkConn (delivered c ++ join chunks) None).
Proof.
  induction chunks as [|chunk chunks IH]; intros c H.
  - cbn. rewrite append_nil_r. destruct c as [d k]. cbn in H. subst k.
    reflexivity.
  - cbn [FileInspectorPlain.send_each]. rewrite (send_on_connected _ _ H).
    cbn [bind]. rewrite IH by reflexivity. cbn [delivered join fold_right].
    rewrite append_assoc. reflexivity.
Qed.

(** X16. The streamer without error handling always ends its answer: to a
    peer that stays connected it returns, having sent a beginning of the
    bytes of the file (all of them when no [read] fails) and then the end
    marker, also after a [read] or a [close] that failed; and it does what
    the later [inspect] does when nothing fails. *)
Theorem the_plain_streamer_always_ends_its_answer (fs : filesystem)
  (path : string) (c : conn) :
  credit c = None ->
  (forall fd, open_rdonly fs path = Some fd ->
     exists body rest,
       f_bytes fd = body ++ rest
       /\ (f_read_error fd = None -> rest = "")
       /\ FileInspectorPlain.inspect fs path c
          = Returns (mkConn (delivered c ++ body ++ END_MARK) None))
  /\ (open_rdonly fs path = None
      \/ (exists bytes, open_rdonly fs path = Some (mkFile bytes None false)) ->
      FileInspectorPlain.inspect fs path c = FileInspector.inspect fs path c).
Proof.
  intros Hpeer. assert (Hpos : 0 < BUFFER_SIZE) by (unfold BUFFER_SIZE; lia).
  split.
  - intros fd Hopen. unfold FileInspectorPlain.inspect. rewrite Hopen.
    destruct (read_all_prefix BUFFER_SIZE fd Hpos) as (rest & Hbytes & Hend).
    exists (join (fst (read_all BUFFER_SIZE fd))), rest.
    split; [exact Hbytes|]. split.
    + intros Hread. apply Hend. destruct fd as [bytes read_error close_error].
      cbn [f_read_error] in Hread. subst read_error.
      destruct (read_all_sound bytes close_error) as [chunks [-> _]].
      reflexivity.
    + rewrite (send_each_connected _ _ Hpeer). cbn [bind].
      rewrite send_on_connected by reflexivity. cbn [delivered].
      now rewrite append_assoc.
  - intros [Hopen|[bytes Hopen]].
    + unfold FileInspectorPlain.inspect, FileInspector.inspect.
      now rewrite Hopen.
    + rewrite (inspect_sound fs path bytes c Hpeer Hopen).
      unfold FileInspectorPlain.inspect. rewrite Hopen.
      destruct (read_all_sound bytes false) as [chunks [-> Hjoin]].
      cbn [fst]. rewrite (send_each_connected _ _ Hpeer). cbn [bind].
      rewrite send_on_connected by reflexivity. cbn [delivered].
      now rewrite Hjoin, append_assoc.
Qed.

End FailureFacts.

(** ** The traversal with exception handling *)

Module GuardedFacts.
Import Socket Posix Tree Props MoreProps StringFacts SocketFacts.
Import DirectoryTraverser TraversalFacts.
Import DirectoryTraverserGuarded.

(** A path list that opens stays one that opens. *)
Lemma put_open (s : string) (stream : option string * string) :
  fst stream <> None -> fst (put s stream) <> None.
Proof.
  unfold put. destruct (kept (snd stream) s); cbn [fst]; [easy|].
  destruct (fst stream); cbn; congruence.
Qed.

Lemma written_entries_open (p : string) (entries : list (string * tree)) :
  Forall (fun e => forall q f, f <> None -> written (snd e) q f <> None)
         entries ->
  forall stream,
    fst stream <> None -> fst (written_entries entries p stream) <> None.
Proof.
  induction 1 as [|e entries He _ IH]; intros stream Hs; [exact Hs|].
  unfold written_entries. cbn [fold_left].
  fold (written_entries entries p (written_entry p stream e)).
  apply IH. unfold written_entry.
  destruct (snd e); cbn [fst]; try (now apply He).
  now apply put_open, put_open.
Qed.

Lemma written_open (t : tree) :
  forall p file, file <> None -> written t p file <> None.
Proof.
  induction t as [| | | |entries IH] using tree_induction;
    intros p file Hf; try exact Hf.
  rewrite written_directory.
  pose proof (written_entries_open p entries IH (file, "") Hf) as H.
  destruct (fst (written_entries entries p (file, ""))); cbn; congruence.
Qed.

Section Guarded.

Variable strerror : string -> string.
Variable outputName : string.
Variable fs : filesystem.

Lemma guarded_traverse_unfold (fuel : nat) (p : string) (st : state) :
  traverse strerror outputName fs (S fuel) p st
  = match opendir fs p with
    | None =>
        Some (st1 <- send_to st ("ERROR: Cannot open directory: "
                                   ++ p ++ nl) ;;
              caught st1 ("opendir failed: " ++ strerror p))
    | Some names =>
        match outputFile st with
        | None =>
            Some (caught st
                    ("Failed to open output file: " ++ outputName))
        | Some _ =>
            match send (sock st) ("Directory: " ++ p ++ nl) with
            | Raised => Some (Killed st)
            | Refused c =>
                Some (caught
                        (set_sock st c)
                        "send() failed while sending directory info")
            | Taken c =>
                match entries_loop fs (traverse strerror outputName fs fuel)
                                   p names (set_sock st c) "" with
                | None => None
                | Some (Killed st') => Some (Killed st')
                | Some (Returns (st2, out)) =>
                    Some (Returns (close_out st2 out))
                end
            end
        end
    end.
Proof. reflexivity. Qed.

Lemma guarded_loop_cons
  (recurse : string -> state -> option (run state state))
  (base d_name : string) (rest : list string) (st : state) (out : string) :
  entries_loop fs recurse base (d_name :: rest) st out
  = if is_dot d_name then entries_loop fs recurse base rest st out
    else
      match stat fs (base ++ "/" ++ d_name) with
      | None => entries_loop fs recurse base rest st out
      | Some mode =>
          if S_ISDIR mode then
            match recurse (base ++ "/" ++ d_name) st with
            | None => None
            | Some (Killed st') => Some (Killed st')
            | Some (Returns st') => entries_loop fs recurse base rest st' out
            end
          else if S_ISREG mode then
            match send (sock (count_file st))
                       ("File: " ++ (base ++ "/" ++ d_name) ++ nl) with
            | Raised => Some (Killed (count_file st))
            | Refused c =>
                entries_loop fs recurse base rest
                  (set_sock (count_file st) c) out
            | Taken c =>
                let '(st2, out1) :=
                  insert (set_sock (count_file st) c) out
                         (base ++ "/" ++ d_name) in
                let '(st3, out2) := insert st2 out1 nl in
                entries_loop fs recurse base rest st3 out2
            end
          else entries_loop fs recurse base rest st out
      end.
Proof. reflexivity. Qed.

(** A [send] to a peer that stays connected is the [send] whose result the
    earlier traversal does not look at. *)
Lemma send_taken (st : state) (msg : string) :
  in_int (fileCount st) -> credit (sock st) = None ->
  exists c,
    send (sock st) msg = Taken c
    /\ set_sock st c = after st [msg] 0 (outputFile st).
Proof.
  intros Hc H. eexists. split; [apply (send_connected _ _ H)|].
  unfold set_sock, after. cbn [join fold_right delivered].
  now rewrite Z.add_0_r, (int_wrap_in_int _ Hc), append_nil_r.
Qed.

(** The traversal of a tree, to a peer that stays connected and with a path
    list that opens. *)
Lemma guarded_loop_tree (fuel : nat) (base : string) :
  forall (names : list string) (entries : list (string * tree))
         (st : state) (out : string),
    Forall (fun e => guarded_walks strerror outputName fs fuel (snd e)) entries ->
    map fst entries = real_names names ->
    forallb (fun e => entry_at fs (snd e) (base ++ "/" ++ fst e)) entries
    = true ->
    (forall e, In e entries -> depth (snd e) <= fuel) ->
    in_int (fileCount st) -> credit (sock st) = None ->
    outputFile st <> None ->
    entries_loop fs (traverse strerror outputName fs fuel) base names st out
    = Some (Returns
              (after st
                 (flat_map (fun e => guarded_messages strerror (snd e)
                                       (base ++ "/" ++ fst e)) entries)
                 (sum_files entries)
                 (fst (written_entries entries base (outputFile st, out))),
               snd (written_entries entries base (outputFile st, out)))).
Proof.
  induction names as [|d_name names IH];
    intros entries st out Hw Hn Hat Hd Hc Hpeer Hout.
  - destruct entries; [|discriminate]. simpl.
    rewrite (after_nothing _ Hc Hpeer). reflexivity.
  - rewrite guarded_loop_cons. unfold real_names in Hn. cbn [filter] in Hn.
    destruct (is_dot d_name) eqn:Edot; cbn [negb] in Hn.
    + apply IH; assumption.
    + destruct entries as [|[n t] entries]; [discriminate|].
      cbn [map fst] in Hn. injection Hn as -> Hn.
      cbn [forallb snd fst] in Hat. apply andb_prop in Hat.
      destruct Hat as [Ht Hat].
      inversion Hw as [|? ? Hwt Hw']; subst. cbn [snd] in Hwt.
      assert (Hdt : depth t <= fuel)
        by (apply (Hd (d_name, t)); left; reflexivity).
      assert (Hd' : forall e, In e entries -> depth (snd e) <= fuel)
        by (intros e He; apply Hd; right; exact He).
      pose proof (entry_at_root fs t _ Ht) as Hroot.
      cbn [flat_map sum_files fold_right snd fst].
      fold (sum_files entries).
      unfold written_entries. cbn [fold_left].
      fold (written_entries entries base
              (written_entry base (outputFile st, out) (d_name, t))).
      destruct t as [bytes perm| | | |sub].
      * rewrite Hroot. cbn [S_ISDIR S_ISREG].
        rewrite (count_file_after _ Hpeer).
        destruct (send_taken (after st [] 1 (outputFile st))
                    ("File: " ++ (base ++ "/" ++ d_name) ++ nl)
                    (after_in_int _ _ _ _) eq_refl) as (c & -> & ->).
        rewrite after_after, !insert_put.
        cbn [sock fileCount outputFile after fst snd].
        match goal with
        | |- entries_loop _ _ _ _ ?st3 _ = _ =>
            change st3
              with (after st ["File: " ++ (base ++ "/" ++ d_name) ++ nl] 1
                      (fst (put nl (put (base ++ "/" ++ d_name)
                                        (outputFile st, out)))))
        end.
        rewrite (IH entries); try assumption; try apply after_in_int;
          try reflexivity.
        -- rewrite after_after.
           cbn [guarded_messages regular_files app after outputFile].
           unfold written_entry. cbn [snd fst].
           rewrite <- surjective_pairing. reflexivity.
        -- cbn [after outputFile]. now apply put_open, put_open.
      * rewrite Hroot. cbn [S_ISDIR S_ISREG].
        rewrite (IH entries); try assumption.
        cbn [guarded_messages regular_files app]. reflexivity.
      * rewrite Hroot.
        rewrite (IH entries); try assumption.
        cbn [guarded_messages regular_files app]. reflexivity.
      * destruct Hroot as [Hstat Hroot]. rewrite Hstat. cbn [S_ISDIR].
        rewrite (Hwt _ st Hroot Hdt Hc Hpeer Hout).
        rewrite (IH entries); try assumption; try apply after_in_int;
          try reflexivity.
        rewrite after_after. reflexivity.
      * destruct Hroot as [Hstat Hroot]. rewrite Hstat. cbn [S_ISDIR].
        rewrite (Hwt _ st Hroot Hdt Hc Hpeer Hout).
        rewrite (IH entries); try assumption; try apply after_in_int;
          try reflexivity.
        -- rewrite after_after. reflexivity.
        -- cbn [after outputFile]. now apply written_open.
Qed.

Lemma guarded_traverse_tree (t : tree) :
  forall fuel, guarded_walks strerror outputName fs fuel t.
Proof.
  induction t as [bytes perm| | | |entries IH] using tree_induction;
    intros fuel p st Hroot Hdepth Hc Hpeer Hout; try discriminate.
  - destruct fuel as [|fuel]; [simpl in Hdepth; lia|].
    rewrite guarded_traverse_unfold. cbn [root_at] in Hroot.
    destruct (opendir fs p); [discriminate|].
    unfold caught.
    rewrite (send_to_after _ _ Hc Hpeer). cbn [bind].
    rewrite send_to_after by (try apply after_in_int; reflexivity).
    rewrite after_after. reflexivity.
  - destruct fuel as [|fuel]; [simpl in Hdepth; lia|].
    rewrite guarded_traverse_unfold. cbn [root_at] in Hroot.
    destruct (opendir fs p) as [names|]; [|discriminate].
    apply andb_prop in Hroot. destruct Hroot as [Hn Hat].
    apply names_eqb_eq in Hn.
    destruct (outputFile st) as [text|] eqn:Etext; [|contradiction].
    destruct (send_taken st ("Directory: " ++ p ++ nl) Hc Hpeer)
      as (c & -> & ->).
    rewrite (guarded_loop_tree fuel p names entries).
    + rewrite Etext, written_directory. unfold close_out, append_out.
      cbn [after sock fileCount outputFile].
      cbn [guarded_messages regular_files app join fold_right].
      fold (sum_files entries).
      rewrite Z.add_0_r, int_wrap_add.
      unfold after. cbn [sock fileCount delivered join fold_right].
      rewrite append_nil_r, !append_assoc. reflexivity.
    + apply Forall_forall. intros e He.
      rewrite Forall_forall in IH. apply IH. exact He.
    + exact Hn.
    + exact Hat.
    + intros e He. apply depth_entry in He. cbn [depth] in Hdepth. lia.
    + apply after_in_int.
    + reflexivity.
    + cbn [after outputFile]. rewrite Etext. discriminate.
Qed.

(** X17. The traversal with exception handling counts and lists what the
    earlier one does: on a directory that shows the tree [T], to a peer
    that stays connected and with a path list that opens, both return
    with the same counter and the same list, written through the streams
    of their frames; the later one sends, for a directory that cannot be
    opened, its path and the text of the exception. *)
Theorem the_guarded_traversal_agrees_on_trees
  (T : tree) (root : string) (fuel : nat) (st : state) :
  root_at fs T root = true ->
  depth T <= fuel ->
  in_int (fileCount st) ->
  credit (sock st) = None ->
  outputFile st <> None ->
  exists plain guarded,
    DirectoryTraverser.traverse fs fuel root st = Some (Returns plain)
    /\ traverse strerror outputName fs fuel root st = Some (Returns guarded)
    /\ fileCount guarded = fileCount plain
    /\ fileCount guarded = int_wrap (fileCount st + regular_files T)
    /\ outputFile guarded = outputFile plain
    /\ outputFile guarded = written T root (outputFile st)
    /\ delivered (sock plain)
       = delivered (sock st) ++ join (messages T root)
    /\ delivered (sock guarded)
       = delivered (sock st) ++ join (guarded_messages strerror T root).
Proof.
  intros Hroot Hdepth Hc Hpeer Hout.
  exists (after st (messages T root) (regular_files T)
                (written T root (outputFile st))),
         (after st (guarded_messages strerror T root) (regular_files T)
                (written T root (outputFile st))).
  split; [now apply traverse_tree|].
  split; [now apply guarded_traverse_tree|].
  unfold after. cbn [fileCount outputFile sock delivered]. repeat split.
Qed.

(** X18. The traversal with exception handling gives up a directory at
    once when the path list cannot be opened or the [send] of the
    [Directory:] line fails without a signal: it looks at no entry of the
    directory, so whatever the depth of what lies below, the call returns
    or the process is ended by the signal of the [send] of the error line,
    and the counter and the list are left as they were.  The peer has
    received at most the text of the exception then, and it has received
    it, and the call returns, when the peer stays connected. *)
Theorem the_guarded_traversal_gives_up
  (fuel : nat) (basePath : string) (names : list string) (st : state) :
  opendir fs basePath = Some names ->
  outputFile st = None
  \/ (exists c, send (sock st) ("Directory: " ++ basePath ++ nl)
                = Refused c) ->
  exists r,
    traverse strerror outputName fs (S fuel) basePath st = Some r
    /\ fileCount (final r) = fileCount st
    /\ outputFile (final r) = outputFile st
    /\ (outputFile st = None ->
        delivered (sock (final r)) = delivered (sock st)
        \/ delivered (sock (final r))
           = delivered (sock st)
             ++ "ERROR: Failed to open output file: " ++ outputName ++ nl)
    /\ (outputFile st <> None ->
        delivered (sock (final r)) = delivered (sock st)
        \/ delivered (sock (final r))
           = delivered (sock st)
             ++ "ERROR: send() failed while sending directory info" ++ nl)
    /\ (credit (sock st) = None ->
        r = Returns
              (mkState
                 (mkConn (delivered (sock st)
                          ++ "ERROR: Failed to open output file: "
                          ++ outputName ++ nl) None)
                 (fileCount st) None)).
Proof.
  intros Hopen Hbad. rewrite guarded_traverse_unfold, Hopen.
  destruct (outputFile st) as [text|] eqn:Etext.
  - destruct Hbad as [Hbad|[c Hsend]]; [discriminate|].
    rewrite Hsend. eexists. split; [reflexivity|].
    assert (Hc : delivered c = delivered (sock st)).
    { unfold send in Hsend. destruct (credit (sock st)) as [[[|n] [|e]]|];
        inversion Hsend; reflexivity. }
    unfold caught, send_to, send. cbn [set_sock sock fileCount outputFile].
    destruct (credit c) as [[[|n] [|e]]|];
      cbn [final set_sock sock fileCount outputFile delivered];
      rewrite ?Hc; repeat split; try tauto; try discriminate;
      try (intros Hpeer; unfold send in Hsend; rewrite Hpeer in Hsend;
           discriminate).
  - eexists. split; [reflexivity|].
    unfold caught, send_to, send. cbn [set_sock sock fileCount outputFile].
    destruct (credit (sock st)) as [[[|n] [|e]]|];
      cbn [final set_sock sock fileCount outputFile delivered];
      repeat split; try tauto; try congruence; try discriminate.
    intros _. unfold set_sock. now rewrite Etext.
Qed.

End Guarded.

End GuardedFacts.

(** ** The system logger *)

Module LoggerFacts.
Import Props MoreProps StringFacts Logger.

Lemma log_cases (now : string) (level : LogLevel)
  (operation message file : string) (line : Z) (function : string)
  (lg : logger) :
  let lg' := log now level operation message file line function lg in
  logFile lg' = logFile lg /\ currentLevel lg' = currentLevel lg
  /\ exists lines,
       cout lg' = cout lg ++ lines
       /\ forall p,
            disk lg' p
            = match logFile lg with
              | Some path => if String.eqb p path then disk lg p ++ lines
                             else disk lg p
              | None => disk lg p
              end.
Proof.
  unfold log. destruct (value level <=? value (currentLevel lg))%nat.
  - cbn [logFile currentLevel cout disk]. repeat split.
    eexists. split; [reflexivity|].
    intros p. destruct (logFile lg); reflexivity.
  - repeat split. exists "". split; [now rewrite append_nil_r|].
    intros p. destruct (logFile lg); [|reflexivity].
    destruct (String.eqb p s); [now rewrite append_nil_r|reflexivity].
Qed.

(** X20. The log file mirrors the console: over any sequence of [LOG]
    calls and changes of level, what is added to the file the logger has
    open is, byte for byte, what is written to [cout], and no other file
    is written; a logger whose file did not open writes to [cout]
    only. *)
Theorem the_log_file_mirrors_the_console (calls : list logger_call)
  (lg : logger) :
  let lg' := run_calls calls lg in
  logFile lg' = logFile lg
  /\ exists lines,
       cout lg' = cout lg ++ lines
       /\ forall p,
            disk lg' p
            = match logFile lg with
              | Some path => if String.eqb p path then disk lg p ++ lines
                             else disk lg p
              | None => disk lg p
              end.
Proof.
  revert lg. induction calls as [|call calls IH]; intros lg;
    cbn [run_calls fold_left].
  - split; [reflexivity|]. exists "". split; [now rewrite append_nil_r|].
    intros p. destruct (logFile lg); [|reflexivity].
    destruct (String.eqb p s); [now rewrite append_nil_r|reflexivity].
  - fold (run_calls calls (run_call lg call)).
    destruct (IH (run_call lg call)) as (Hfile & lines2 & Hcout & Hdisk).
    assert (Hcall : logFile (run_call lg call) = logFile lg
                    /\ exists lines1,
                         cout (run_call lg call) = cout lg ++ lines1
                         /\ forall p,
                              disk (run_call lg call) p
                              = match logFile lg with
                                | Some path =>
                                    if String.eqb p path
                                    then disk lg p ++ lines1
                                    else disk lg p
                                | None => disk lg p
                                end).
    { destruct call as [level|now level operation message file line function];
        cbn [run_call].
      - split; [reflexivity|]. exists "".
        cbn [setLogLevel cout disk logFile].
        split; [now rewrite append_nil_r|].
        intros p. destruct (logFile lg); [|reflexivity].
        destruct (String.eqb p s); [now rewrite append_nil_r|reflexivity].
      - destruct (log_cases now level operation message file line function lg)
          as (H1 & _ & H2). split; assumption. }
    destruct Hcall as (Hfile1 & lines1 & Hcout1 & Hdisk1).
    split; [now rewrite Hfile, Hfile1|].
    exists (lines1 ++ lines2). split.
    + now rewrite Hcout, Hcout1, append_assoc.
    + intros p. rewrite Hdisk, Hfile1, Hdisk1.
      destruct (logFile lg); [|reflexivity].
      destruct (String.eqb p s); [now rewrite append_assoc|reflexivity].
Qed.

(** X21. [ExceptionHandler::handle] reports at level WARNING: a logger
    whose level is FATAL or INFO drops the report and writes nothing, and
    so does the logger as its constructor makes it (level INFO).  With the
    level at WARNING or DEBUG, as the server and the client set it when
    they start, the report is written to [cout], and to the log file when
    one is open, and ends in the context, [ | Error: ] and the text of
    [errno]. *)
Theorem exception_reports_need_the_warning_level
  (can_open : string -> bool) (files : string -> string)
  (now errorMsg file : string) (line : Z) (context : string) :
  ExceptionHandler.handle now errorMsg file line context
    (Logger.Logger can_open files)
  = Logger.Logger can_open files
  /\ (forall lg,
        (value (currentLevel lg) < value WARNING)%nat ->
        ExceptionHandler.handle now errorMsg file line context lg = lg)
  /\ (forall lg,
        (value WARNING <= value (currentLevel lg))%nat ->
        exists head,
          cout (ExceptionHandler.handle now errorMsg file line context lg)
          = cout lg ++ head ++ context ++ " | Error: " ++ errorMsg ++ nl
          /\ forall path,
               logFile lg = Some path ->
               disk (ExceptionHandler.handle now errorMsg file line context lg)
                    path
               = disk lg path
                 ++ head ++ context ++ " | Error: " ++ errorMsg ++ nl).
Proof.
  split; [reflexivity|]. split.
  - intros lg Hlow. unfold ExceptionHandler.handle, log.
    destruct (Nat.leb_spec (value WARNING) (value (currentLevel lg)));
      [lia|reflexivity].
  - intros lg Hhigh. unfold ExceptionHandler.handle, log.
    destruct (Nat.leb_spec (value WARNING) (value (currentLevel lg)));
      [|lia].
    cbn [cout disk].
    exists ("[" ++ now ++ "] " ++ "[" ++ "EXCEPTION" ++ "] "
            ++ "[" ++ levelToString WARNING ++ "] "
            ++ "[" ++ file ++ ":" ++ StdString.to_string line ++ "] "
            ++ "[" ++ "handle" ++ "] ").
    split; [now rewrite !append_assoc|].
    intros path Hfile. rewrite Hfile. unfold write.
    rewrite String.eqb_refl. now rewrite !append_assoc.
Qed.

End LoggerFacts.

(** ** The client against the server *)

Module ClientFacts.
Import Socket Posix Props MoreProps StdString StringFacts ClientHandler.

(** [find] gives the first place where the pattern is. *)
Lemma find_split (pat : string) :
  forall s i,
    find pat s = Some i ->
    exists a b,
      s = a ++ pat ++ b /\ String.length a = i
      /\ (pat <> "" -> find pat a = None).
Proof.
  induction s as [|x s IH]; intros i; rewrite find_unfold.
  - destruct (prefix pat "") eqn:E; [|discriminate].
    intros [= <-]. apply prefix_spec in E. destruct E as [b E].
    exists "", b. repeat split; [exact E|].
    intros Hpat. destruct pat; [contradiction|discriminate].
  - destruct (prefix pat (String x s)) eqn:E.
    + intros [= <-]. apply prefix_spec in E. destruct E as [b E].
      exists "", b. repeat split; [exact E|].
      intros Hpat. rewrite find_unfold.
      destruct pat; [contradiction|reflexivity].
    + destruct (find pat s) as [j|] eqn:Efind; [|discriminate].
      intros [= <-].
      destruct (IH j eq_refl) as (a & b & -> & <- & Hleast).
      exists (String x a), b. repeat split.
      intros Hpat. rewrite find_unfold, (Hleast Hpat).
      destruct (prefix pat (String x a)) eqn:E'; [|reflexivity].
      apply prefix_spec in E'. destruct E' as [r E'].
      assert (prefix pat (String x (a ++ pat ++ b)) = true).
      { apply prefix_spec. exists (r ++ pat ++ b).
        change (String x (a ++ pat ++ b)) with (String x a ++ pat ++ b).
        now rewrite E', append_assoc. }
      congruence.
Qed.

(** The marker does not overlap itself: where a text without the marker is
    followed by the marker, the first marker is the one that follows. *)
Lemma marker_first (body : string) :
  find Client.END_MARK body = None ->
  forall tail,
    find Client.END_MARK (body ++ Client.END_MARK ++ tail)
    = Some (String.length body).
Proof.
  unfold Client.END_MARK. induction body as [|x body IH]; intros Hnone tail.
  - rewrite find_unfold.
    assert (E : prefix "<<END>>" ("" ++ "<<END>>" ++ tail) = true)
      by (apply prefix_spec; exists tail; reflexivity).
    now rewrite E.
  - rewrite find_unfold in Hnone.
    destruct (prefix "<<END>>" (String x body)) eqn:E; [discriminate|].
    destruct (find "<<END>>" body) eqn:Efind; [discriminate|].
    change (String x body ++ "<<END>>" ++ tail)
      with (String x (body ++ "<<END>>" ++ tail)).
    cbn [String.length]. rewrite find_unfold.
    destruct (prefix "<<END>>" (String x (body ++ "<<END>>" ++ tail))) eqn:E'.
    + exfalso. apply prefix_spec in E'. destruct E' as [r E'].
      cbn [append] in E'.
      assert (Hno : prefix "<<END>>" (String x body) = true);
        [|congruence].
      apply prefix_spec. clear IH Hnone E Efind.
      destruct body as [|c2 body]; [discriminate E'|].
      destruct body as [|c3 body]; [discriminate E'|].
      destruct body as [|c4 body]; [discriminate E'|].
      destruct body as [|c5 body]; [discriminate E'|].
      destruct body as [|c6 body]; [discriminate E'|].
      destruct body as [|c7 body]; [discriminate E'|].
      injection E' as -> -> -> -> -> -> -> _.
      exists body. reflexivity.
    + now rewrite (IH eq_refl tail).
Qed.

Lemma append_same_length (a b c d : string) :
  a ++ b = c ++ d -> String.length a = String.length c -> a = c /\ b = d.
Proof.
  revert c. induction a as [|x a IH]; intros [|y c]; simpl;
    try discriminate; intros E Hlen; [tauto|].
  injection E as -> E. injection Hlen as Hlen.
  destruct (IH _ E Hlen) as [-> ->]. tauto.
Qed.

Lemma join_nothing (chunks : list string) :
  Forall (fun chunk => chunk <> "") chunks -> join chunks = "" -> chunks = [].
Proof.
  destruct chunks as [|[|x c] chunks]; [reflexivity| |discriminate].
  intros H. inversion H. contradiction.
Qed.

Lemma response_loop_data (bytes : string) (rest : list Client.recv_event)
  (response : string) :
  bytes <> "" ->
  Client.response_loop (Client.Data bytes :: rest) response
  = match find Client.END_MARK (response ++ bytes) with
    | Some _ => Some (response ++ bytes, rest)
    | None => Client.response_loop rest (response ++ bytes)
    end.
Proof. destruct bytes; [contradiction|reflexivity]. Qed.

(** The response loop on the chunks of one framed answer. *)
Lemma response_loop_framed (body : string) (rest : list Client.recv_event) :
  find Client.END_MARK body = None ->
  forall chunks response,
    Forall (fun chunk => chunk <> "") chunks ->
    find Client.END_MARK response = None ->
    response ++ join chunks = body ++ Client.END_MARK ++ nl ->
    exists tail unread,
      Client.response_loop (map Client.Data chunks ++ rest) response
      = Some (body ++ Client.END_MARK ++ tail,
              (map Client.Data unread ++ rest)%list)
      /\ ((tail = "" /\ unread = [nl]) \/ (tail = nl /\ unread = [])).
Proof.
  intros Hbody. induction chunks as [|chunk chunks IH];
    intros response Hdata Hnone Hjoin.
  - cbn [join fold_right] in Hjoin. rewrite append_nil_r in Hjoin.
    rewrite Hjoin, (marker_first body Hbody nl) in Hnone. discriminate.
  - inversion Hdata as [|? ? Hchunk Hchunks]; subst.
    cbn [map app]. rewrite (response_loop_data _ _ _ Hchunk).
    cbn [join fold_right] in Hjoin. fold (join chunks) in Hjoin.
    rewrite <- append_assoc in Hjoin.
    destruct (find Client.END_MARK (response ++ chunk)) as [i|] eqn:Efind;
      [|now apply IH].
    destruct (find_split _ _ _ Efind) as (a & b & Eab & _ & Hleast).
    assert (Ha : find Client.END_MARK a = None)
      by (apply Hleast; discriminate).
    assert (Hw : a ++ Client.END_MARK ++ b ++ join chunks
                 = body ++ Client.END_MARK ++ nl)
      by (now rewrite <- Hjoin, Eab, !append_assoc).
    assert (Hsame : String.length a = String.length body).
    { pose proof (marker_first a Ha (b ++ join chunks)) as H1.
      pose proof (marker_first body Hbody nl) as H2.
      rewrite Hw in H1. congruence. }
    destruct (append_same_length _ _ _ _ Hw Hsame) as [-> Htail].
    apply append_inv_head in Htail.
    rewrite Eab.
    destruct b as [|x b].
    + exists "", chunks. split; [reflexivity|]. left. split; [reflexivity|].
      cbn [append] in Htail.
      destruct chunks as [|c chunks]; [discriminate|].
      inversion Hchunks as [|? ? Hc Hcs]; subst.
      cbn [join fold_right] in Htail. fold (join chunks) in Htail.
      destruct c as [|y c]; [contradiction|].
      unfold nl in Htail. injection Htail as -> Htail.
      destruct c; [|discriminate]. cbn [append] in Htail.
      now rewrite (join_nothing _ Hcs Htail).
    + unfold nl in Htail. injection Htail as -> Htail.
      destruct b; [|discriminate]. cbn [append] in Htail.
      rewrite (join_nothing _ Hchunks Htail).
      exists nl, []. split; [reflexivity|]. right. split; reflexivity.
Qed.

(** X22. The client shows the body of a framed answer, however the answer
    is cut into chunks: when the server sends a body that does not hold
    [<<END>>] followed by its end marker, the client shows the body.  The
    client's marker has no newline, so the newline of the server's marker
    may stay unread, to be taken as the beginning of the next answer. *)
Theorem the_client_shows_the_body (body : string) (chunks : list string)
  (rest : list Client.recv_event) :
  find Client.END_MARK body = None ->
  join chunks = body ++ END_MARK ->
  Forall (fun chunk => chunk <> "") chunks ->
  exists unread,
    Client.receive_response (map Client.Data chunks ++ rest)
    = Some (body, (map Client.Data unread ++ rest)%list)
    /\ (unread = [] \/ unread = [nl]).
Proof.
  intros Hbody Hjoin Hdata. unfold Client.receive_response.
  destruct (response_loop_framed body rest Hbody chunks "" Hdata eq_refl)
    as (tail & unread & -> & Hcases).
  { cbn [append]. rewrite Hjoin. unfold END_MARK, Client.END_MARK.
    reflexivity. }
  rewrite (marker_first body Hbody tail). unfold erase_from.
  rewrite substring_prefix.
  exists unread. split; [reflexivity|]. tauto.
Qed.

Lemma response_loop_gathers (events : list Client.recv_event) :
  forall response response' unread,
    Client.response_loop events response = Some (response', unread) ->
    exists got,
      response' = response ++ got
      /\ data_of events = got ++ data_of unread.
Proof.
  induction events as [|event events IH]; intros response response' unread.
  - intros [= <- <-]. exists "". now rewrite append_nil_r.
  - destruct event as [bytes| | |]; cbn [Client.response_loop data_of].
    + destruct bytes as [|x bytes].
      * intros [= <- <-]. exists "". now rewrite append_nil_r.
      * destruct (find Client.END_MARK (response ++ String x bytes)).
        -- intros [= <- <-]. exists (String x bytes). split; reflexivity.
        -- intros H. destruct (IH _ _ _ H) as (got & -> & ->).
           exists (String x bytes ++ got). now rewrite !append_assoc.
    + intros [= <- <-]. exists "". now rewrite append_nil_r.
    + apply IH.
    + discriminate.
Qed.

(** X23. The client never shows the marker: what it shows for an answer
    is the beginning of the bytes it received, up to the first [<<END>>]
    among them; what it drops begins with the marker.  So a body that
    holds [<<END>>] itself, as a file sent by [INSPECT] may, is cut
    there. *)
Theorem the_client_never_shows_the_marker
  (events unread : list Client.recv_event) (shown : string) :
  Client.receive_response events = Some (shown, unread) ->
  find Client.END_MARK shown = None
  /\ exists dropped,
       data_of events = shown ++ dropped ++ data_of unread
       /\ (dropped = "" \/ exists more, dropped = Client.END_MARK ++ more).
Proof.
  unfold Client.receive_response.
  destruct (Client.response_loop events "") as [[response rest]|] eqn:Eloop;
    [|discriminate].
  destruct (response_loop_gathers _ _ _ _ Eloop) as (got & Hgot & Hdata).
  cbn [append] in Hgot. subst got.
  destruct (find Client.END_MARK response) as [pos|] eqn:Efind.
  - intros [= <- <-].
    destruct (find_split _ _ _ Efind) as (a & b & -> & <- & Hleast).
    unfold erase_from. rewrite substring_prefix.
    split; [apply Hleast; discriminate|].
    exists (Client.END_MARK ++ b). split.
    + now rewrite Hdata, !append_assoc.
    + right. exists b. reflexivity.
  - intros [= <- <-]. split; [exact Efind|].
    exists "". split; [exact Hdata|left; reflexivity].
Qed.

(** X24. The server reads back what the client's menu asked for: the
    line built for choice 1 is dispatched as a traversal of the path
    typed, the one for choice 3 as an inspection of the path typed, any
    other choice as [EXIT], and the one for choice 2 as a search of the
    path for the pattern typed as long as the path holds no space. *)
Theorem the_server_reads_back_the_menu_choice
  (fs : filesystem) (fuel : nat) (path pattern : string) (s : session) :
  dispatch fs fuel (Client.command 1 path pattern) s
  = match run_traverse fs fuel path s with
    | None => None
    | Some (Killed t) => Some (Kill (after_traverse s t))
    | Some (Returns t) =>
        answered (s1 <- reply (after_traverse s t)
                          (nl ++ "Total Files: "
                              ++ to_string (DirectoryTraverser.fileCount t)
                              ++ nl) ;;
                  reply s1 END_MARK)
    end
  /\ (lacks " "%char path = true ->
      dispatch fs fuel (Client.command 2 path pattern) s
      = match run_traverse fs fuel path s with
        | None => None
        | Some (Killed t) => Some (Kill (after_traverse s t))
        | Some (Returns t) =>
            let s1 := after_traverse s t in
            let matches := ContentScanner.scan fs (files_txt s1) pattern in
            answered (s2 <- match matches with
                            | [] => reply s1 (nl ++ "No matches found" ++ nl)
                            | _ =>
                                s' <- reply s1
                                        (nl ++ "Matched Files:" ++ nl) ;;
                                reply_matches s' matches
                            end ;;
                      reply s2 END_MARK)
        end)
  /\ dispatch fs fuel (Client.command 3 path pattern) s
     = match FileInspector.inspect fs path (client_fd s) with
       | Returns c => Some (Next (set_client s c))
       | Killed c => Some (Kill (set_client s c))
       end
  /\ (forall choice : Z,
        choice <> 1%Z -> choice <> 2%Z -> choice <> 3%Z ->
        dispatch fs fuel (Client.command choice path pattern) s
        = Some (Break (log s "Session ended"))).
Proof.
  split; [|split; [|split]].
  - rewrite (DispatchFacts.dispatch_traverse fs fuel _ path);
      [reflexivity| |].
    + apply (compare0_prefix "TRAVERSE"). eexists. reflexivity.
    + change (Client.command 1 path pattern) with ("TRAVERSE " ++ path).
      change 9 with (String.length "TRAVERSE "). apply substr_from_append.
  - intros Hpath.
    destruct (ScanFacts.search_line_parts " " path pattern Hpath)
      as (Hverb & spacePos & Hspace & Hroot & Hpattern).
    now rewrite (DispatchFacts.dispatch_search fs fuel spacePos _ path
                   pattern).
  - rewrite (StreamFacts.dispatch_inspect fs fuel _ path); [reflexivity| |].
    + apply (compare0_prefix "INSPECT"). eexists. reflexivity.
    + change (Client.command 3 path pattern) with ("INSPECT " ++ path).
      change 8 with (String.length "INSPECT "). apply substr_from_append.
  - intros choice H1 H2 H3. unfold Client.command.
    destruct (Z.eqb_spec choice 1); [contradiction|].
    destruct (Z.eqb_spec choice 2); [contradiction|].
    destruct (Z.eqb_spec choice 3); [contradiction|].
    reflexivity.
Qed.

End ClientFacts.

(** ** safe_send when a send takes a part of the buffer *)

Module SendFacts.
Import Posix StringFacts StreamFacts.

(** X25. [safe_send] sends all of its data or reports that it did not:
    however the socket cuts the data into partial sends, the peer receives
    a beginning of the data, in order and once; [safe_send] returns true
    exactly when the peer has received all of it, and false when a [send]
    failed with a part of the data still unsent. *)
Theorem safe_send_sends_all_or_reports (room : list Z) :
  forall delivered data,
    exists sent rest,
      data = sent ++ rest
      /\ fst (snd (PartialSend.safe_send room delivered data))
         = delivered ++ sent
      /\ (fst (PartialSend.safe_send room delivered data) = true ->
          rest = "")
      /\ (fst (PartialSend.safe_send room delivered data) = false ->
          rest <> "").
Proof.
  assert (Hdone : forall (delivered : string) (calls : list Z),
            exists sent rest : string,
              "" = sent ++ rest
              /\ fst (snd (true, (delivered, calls))) = delivered ++ sent
              /\ (fst (true, (delivered, calls)) = true -> rest = "")
              /\ (fst (true, (delivered, calls)) = false -> rest <> "")).
  { intros delivered calls. exists "", "". cbn [fst snd].
    rewrite !append_nil_r.
    split; [reflexivity|]. split; [reflexivity|].
    split; [reflexivity|]. intros H. discriminate H. }
  assert (Hfail : forall (delivered : string) (calls : list Z) a data,
            exists sent rest : string,
              String a data = sent ++ rest
              /\ fst (snd (false, (delivered, calls))) = delivered ++ sent
              /\ (fst (false, (delivered, calls)) = true -> rest = "")
              /\ (fst (false, (delivered, calls)) = false -> rest <> "")).
  { intros delivered calls a data. exists "", (String a data).
    cbn [fst snd]. rewrite append_nil_r.
    split; [reflexivity|]. split; [reflexivity|].
    split; [intros H; discriminate H|]. intros _. discriminate. }
  induction room as [|r room IH]; intros delivered data.
  - destruct data as [|a data]; cbn [PartialSend.safe_send];
      [apply Hdone|apply Hfail].
  - destruct data as [|a data]; cbn [PartialSend.safe_send];
      [apply Hdone|].
    destruct (r <=? 0)%Z; [apply Hfail|].
    set (n := Nat.min (Z.to_nat r) (String.length (String a data))).
    destruct (IH (delivered ++ take n (String a data))
                 (drop n (String a data)))
      as (sent & rest & Hdata & Hdel & Hall & Hpart).
    exists (take n (String a data) ++ sent), rest.
    rewrite append_assoc, <- Hdata, take_drop, Hdel, append_assoc.
    repeat split; assumption.
Qed.

End SendFacts.

(** ** The two text formats: the path list and the credential record *)

Module FormatFacts.
Import Props MoreProps StdString StringFacts Tree ClientHandler StoreFacts.

Lemma lines_count (s : string) :
  List.length (lines s)
  = newlines s + (if fresh_line s then 0 else 1).
Proof.
  induction s as [|a s IH]; [reflexivity|].
  rewrite lines_unfold. cbn [newlines].
  destruct (Ascii.eqb_spec a "010") as [->|Ha].
  - cbn [List.length]. rewrite IH.
    destruct s as [|b s]; [reflexivity|].
    change (fresh_line (String "010" (String b s)))
      with (fresh_line (String b s)). lia.
  - assert (Hfresh : fresh_line (String a s)
                     = match s with "" => false | _ => fresh_line s end).
    { destruct s; simpl; [|reflexivity].
      destruct (Ascii.eqb_spec a "010"); [contradiction|reflexivity]. }
    rewrite Hfresh. destruct s as [|b s]; [reflexivity|].
    destruct (lines (String b s)) as [|l ls] eqn:E.
    + exfalso. now apply (lines_nonempty b s).
    + cbn [List.length] in *. lia.
Qed.

Lemma newlines_append (a b : string) :
  newlines (a ++ b) = newlines a + newlines b.
Proof. induction a as [|x a IH]; simpl; [reflexivity|]. rewrite IH. lia. Qed.

Lemma lacks_newlines (s : string) :
  lacks "010"%char s = true <-> newlines s = 0.
Proof.
  unfold lacks. induction s as [|a s IH]; simpl; [tauto|].
  destruct (Ascii.eqb a "010"); simpl; [split; [discriminate|lia]|exact IH].
Qed.

Lemma fresh_line_tail (a b : string) :
  b <> "" -> fresh_line (a ++ b) = fresh_line b.
Proof.
  intros Hb. induction a as [|x a IH]; [reflexivity|].
  cbn [append]. destruct (a ++ b) as [|y t] eqn:E.
  - destruct a; [cbn in E; contradiction|discriminate E].
  - exact IH.
Qed.

Lemma text_of_fresh (paths : list string) :
  fresh_line (text_of paths) = true.
Proof.
  induction paths as [|path paths IH]; [reflexivity|].
  cbn [text_of fold_right]. fold (text_of paths).
  destruct paths as [|q paths].
  - exact (fresh_line_append "" path).
  - rewrite <- append_assoc, fresh_line_tail; [exact IH|].
    cbn [text_of fold_right]. destruct q; discriminate.
Qed.

Lemma text_of_newlines (paths : list string) :
  newlines (text_of paths)
  = List.length paths + list_sum (map newlines paths).
Proof.
  unfold list_sum. induction paths as [|path paths IH]; [reflexivity|].
  cbn [text_of fold_right map List.length].
  fold (text_of paths). rewrite !newlines_append, IH.
  change (newlines nl) with 1. lia.
Qed.

(** X26. The path list is read back as it was written exactly when no
    path holds a newline: the lines that [scan] reads from the text that
    [traverse] wrote, one path and a newline each, are the paths written,
    in order, if and only if none of them holds a newline. *)
Theorem the_path_list_reads_back (paths : list string) :
  lines (text_of paths) = paths
  <-> Forall (fun path => lacks "010"%char path = true) paths.
Proof.
  split; [|apply ScanFacts.lines_text_of].
  intros Hback.
  assert (Hsum : list_sum (map newlines paths) = 0).
  { pose proof (lines_count (text_of paths)) as Hcount.
    rewrite Hback, text_of_fresh, text_of_newlines in Hcount. lia. }
  clear Hback. induction paths as [|path paths IH]; [constructor|].
  change (newlines path + list_sum (map newlines paths) = 0) in Hsum.
  constructor.
  - apply lacks_newlines. lia.
  - apply IH. lia.
Qed.

Lemma until_delim_lacks (c : ascii) (s : string) :
  lacks c (fst (until_delim c s)) = true.
Proof.
  unfold lacks. induction s as [|a s IH]; [reflexivity|].
  cbn [until_delim]. destruct (Ascii.eqb a c) eqn:E; [reflexivity|].
  destruct (until_delim c s) as [l r]. cbn [fst all_chars] in *.
  now rewrite E, IH.
Qed.

(** X27. A record reads back with the fields it was written with exactly
    when the user name holds neither a colon nor a newline: the line that
    [authenticate] appends to the store at a registration is read back by
    its [getline] loop as one record whose three fields are the user name,
    the salt and the hash if and only if the user name holds no [:] and no
    newline. *)
Theorem a_record_reads_back (SHA256 : string -> option string)
  (rd : nat -> nat) (user password : string) :
  map parse_record
      (lines (user ++ ":" ++ generateSalt rd ++ ":"
                   ++ hashPassword SHA256 (password ++ generateSalt rd)
                   ++ nl))
  = [(user, generateSalt rd,
      hashPassword SHA256 (password ++ generateSalt rd))]
  <-> lacks ":"%char user = true /\ lacks "010"%char user = true.
Proof.
  pose proof (generateSalt_shape rd) as [_ Hsalt].
  pose proof (hashPassword_chars SHA256 (password ++ generateSalt rd))
    as Hhash.
  set (salt := generateSalt rd) in *.
  set (hashed := hashPassword SHA256 (password ++ salt)) in *.
  assert (Hline : lacks "010"%char user = true ->
                  lines (user ++ ":" ++ salt ++ ":" ++ hashed ++ nl)
                  = [user ++ ":" ++ salt ++ ":" ++ hashed]).
  { intros Huser.
    pose proof (lines_cons _ "" (written_record_one_line
                                   user salt hashed Huser Hsalt Hhash)) as H.
    rewrite append_nil_r, !append_assoc in H. exact H. }
  split.
  - intros Hback.
    assert (Hnl : lacks "010"%char user = true).
    { apply lacks_newlines.
      pose proof (lines_count
                    (user ++ ":" ++ salt ++ ":" ++ hashed ++ nl)) as Hcount.
      rewrite <- (length_map parse_record), Hback in Hcount.
      replace (user ++ ":" ++ salt ++ ":" ++ hashed ++ nl)
        with (user ++ (":" ++ salt ++ ":" ++ hashed) ++ nl) in Hcount
        by now rewrite !append_assoc.
      rewrite fresh_line_append, !newlines_append in Hcount.
      cbn [List.length] in Hcount.
      change (newlines nl) with 1 in Hcount. lia. }
    split; [|exact Hnl].
    rewrite (Hline Hnl) in Hback. cbn [map] in Hback.
    pose proof (until_delim_lacks ":"
                  (user ++ ":" ++ salt ++ ":" ++ hashed)) as H.
    unfold parse_record in Hback.
    destruct (until_delim ":" (user ++ ":" ++ salt ++ ":" ++ hashed))
      as [storedUser rest1].
    destruct (until_delim ":" rest1) as [storedSalt storedHash].
    injection Hback as -> _ _. exact H.
  - intros [Huser Hnl]. rewrite (Hline Hnl). cbn [map].
    now rewrite (parse_written_record _ _ _ Huser Hsalt).
Qed.

End FormatFacts.

(** ** The further properties on the samples *)

Module MoreExamples.
Import Socket Posix Tree Props MoreProps StdString ClientHandler.
Import Samples MoreSamples.

(** X1 on the name [bob] followed by CR LF. *)
Lemma chomp_strips_the_line_ending_witness :
  lacks "000"%char ("bo" ++ "b") = true
  /\ is_crlf "b"%char = false
  /\ all_chars is_crlf crlf = true
  /\ chomp ("bo" ++ String "b"%char crlf) = "bo" ++ "b"
  /\ chomp crlf = crlf.
Proof.
  split; [reflexivity|]. split; [reflexivity|]. split; [reflexivity|].
  apply (AccountFacts.chomp_strips_the_line_ending "bo" "b"%char crlf);
    reflexivity.
Defined.

(** X2 when the peer closes after the user name. *)
Lemma authentication_needs_both_answers_witness :
  (forall bu bw rest,
     [Received "bob"; PeerClosed] = Received bu :: Received bw :: rest ->
     bu = "" \/ bw = "")
  /\ let r := authenticate toy_digest true toy_rd [Received "bob"; PeerClosed]
                fresh_session in
     ((exists rest s', r = Returns (false, (rest, s')))
      \/ (exists s', r = Killed s'))
     /\ users_txt (session_after r) = users_txt fresh_session
     /\ logFile (session_after r) = logFile fresh_session.
Proof.
  split; [intros bu bw rest H; discriminate H|].
  apply (AccountFacts.authentication_needs_both_answers toy_digest true toy_rd
           [Received "bob"; PeerClosed] fresh_session).
  intros bu bw rest H. discriminate H.
Defined.

(** X4 on the store with a record for [a]: the digest of the password
    tried is not the hash of the record. *)
Lemma first_record_decides_witness :
  credit (client_fd (stored true)) = None
  /\ records_read (users_txt (stored true))
     = ([] ++ ["a:0123456789ABCDEF:00"])%list
  /\ user_field "a:0123456789ABCDEF:00" = chomp "a"
  /\ exists s',
       authenticate toy_digest true toy_rd
         [Received "a"; Received "pw"] (stored true)
       = Returns
           (String.eqb
              (hashPassword toy_digest
                 (chomp "pw"
                  ++ snd (fst (parse_record "a:0123456789ABCDEF:00"))))
              (snd (parse_record "a:0123456789ABCDEF:00")),
            ([], s'))
       /\ users_txt s' = users_txt (stored true).
Proof.
  split; [reflexivity|]. split; [reflexivity|]. split; [reflexivity|].
  apply (AccountFacts.first_record_decides toy_digest true toy_rd "a" "pw" []
           (stored true) [] [] "a:0123456789ABCDEF:00").
  - reflexivity.
  - simpl. lia.
  - simpl. lia.
  - reflexivity.
  - simpl. tauto.
  - reflexivity.
Defined.

(** X5 on two passwords whose digests differ after the bytes printed. *)
Lemma hash_text_determines_the_digest_witness :
  hashPassword toy_digest (long_password "x")
  = hashPassword toy_digest (long_password "y")
  /\ char_at (long_password "x") 31 = char_at (long_password "y") 31.
Proof.
  split; [vm_compute; reflexivity|].
  apply (AccountFacts.hash_text_determines_the_digest toy_digest
           (long_password "x") (long_password "y")
           (long_password "x") (long_password "y")).
  - reflexivity.
  - reflexivity.
  - vm_compute. reflexivity.
  - unfold SHA256_DIGEST_LENGTH. lia.
Defined.

(** X6 on a session that sends an unknown line, a traversal and
    [EXIT]. *)
Lemma commands_leave_the_store_alone_witness :
  exists e s',
    command_loop srv_fs 2
      [Received "HELLO"; Received "TRAVERSE /srv"; Received "EXIT"]
      logged_session
    = Some (e, s')
    /\ users_txt s' = users_txt logged_session
    /\ username s' = username logged_session.
Proof.
  eexists. eexists. split; [vm_compute; reflexivity|].
  apply (SessionFacts.commands_leave_the_store_alone srv_fs 2
           [Received "HELLO"; Received "TRAVERSE /srv"; Received "EXIT"]
           logged_session _ Closed).
  vm_compute. reflexivity.
Defined.

(** X7 on a line that makes [handle] throw. *)
Lemma every_line_received_is_logged_witness :
  exists e s' more,
    command_loop srv_fs 2 [Received "TRAVERSE"; Received "EXIT"]
      logged_session
    = Some (e, s')
    /\ logFile s'
       = Some (["User authenticated"]
               ++ ("Command: " ++ c_string "TRAVERSE")%string :: more)%list.
Proof.
  eexists. eexists.
  assert (H : command_loop srv_fs 2 [Received "TRAVERSE"; Received "EXIT"]
                logged_session
              = Some (Uncaught, log logged_session "Command: TRAVERSE"))
    by (vm_compute; reflexivity).
  destruct (SessionFacts.every_line_received_is_logged srv_fs 2 "TRAVERSE"
              [Received "EXIT"] logged_session _ Uncaught
              ["User authenticated"] ltac:(simpl; lia) eq_refl H)
    as [more Hmore].
  exists more. split; [exact H|exact Hmore].
Defined.

(** X8 on [/srv]. *)
Lemma traverse_again_gives_the_same_answer_witness :
  root_at srv_fs srv_tree "/srv" = true
  /\ depth srv_tree <= 2
  /\ credit (client_fd fresh_session) = None
  /\ exists s1 s2 answer,
       dispatch srv_fs 2 "TRAVERSE /srv" fresh_session = Some (Next s1)
       /\ dispatch srv_fs 2 "TRAVERSE /srv" s1 = Some (Next s2)
       /\ delivered (client_fd s1)
          = delivered (client_fd fresh_session) ++ answer
       /\ delivered (client_fd s2) = delivered (client_fd s1) ++ answer
       /\ files_txt s1
          = written srv_tree "/srv" (truncate (files_txt fresh_session))
       /\ files_txt s2 = files_txt s1
       /\ (lines_fit srv_tree "/srv" = true ->
           files_txt s1
           = option_map (fun _ => text_of (listing srv_tree "/srv"))
                        (files_txt fresh_session)).
Proof.
  split; [vm_compute; reflexivity|].
  split; [vm_compute; lia|].
  split; [reflexivity|].
  apply (SessionFacts.traverse_again_gives_the_same_answer
           srv_fs srv_tree "/srv" " "%char 2 fresh_session).
  - vm_compute. reflexivity.
  - vm_compute. lia.
  - reflexivity.
Defined.



(** X11 on the list of [/srv] and the pattern [hello]. *)
Lemma scan_reports_only_what_it_read_witness :
  In "/srv/a.txt" (ContentScanner.scan srv_fs (Some srv_list) "hello")
  /\ exists text fd,
       Some srv_list = Some text
       /\ In "/srv/a.txt" (lines text)
       /\ open_rdonly srv_fs "/srv/a.txt" = Some fd
       /\ snd (read_all 4096 fd) = true
       /\ contains "hello" (f_bytes fd).
Proof.
  assert (H : In "/srv/a.txt"
                 (ContentScanner.scan srv_fs (Some srv_list) "hello"))
    by (vm_compute; tauto).
  split; [exact H|].
  exact (FailureFacts.scan_reports_only_what_it_read srv_fs (Some srv_list)
           "hello" "/srv/a.txt" H).
Defined.

(** X12 on [/odd]: the first [read] of [bad] fails, and [good], which
    holds the pattern, is not reported. *)
Lemma scan_stops_at_the_first_failure_witness :
  lines odd_list = ([] ++ "/odd/bad" :: ["/odd/good"])%list
  /\ open_rdonly odd_fs "/odd/bad" = Some (mkFile "key" (Some 0) false)
  /\ snd (read_all 4096 (mkFile "key" (Some 0) false)) = false
  /\ holds_pattern odd_fs "key" "/odd/good" = true
  /\ ContentScanner.scan odd_fs (Some odd_list) "key"
     = filter (holds_pattern odd_fs "key") [].
Proof.
  split; [reflexivity|]. split; [reflexivity|].
  split; [vm_compute; reflexivity|]. split; [vm_compute; reflexivity|].
  apply (FailureFacts.scan_stops_at_the_first_failure odd_fs odd_list "key"
           [] ["/odd/good"] "/odd/bad" (mkFile "key" (Some 0) false)).
  - reflexivity.
  - intros path fd' [].
  - reflexivity.
  - vm_compute. reflexivity.
Defined.

(** X3 on a first connection, which registers [bob]. *)
Lemma authentication_only_appends_witness :
  let r := authenticate toy_digest true toy_rd
             [Received "bob"; Received "pw"] fresh_session in
  (exists suffix,
     store_text (users_txt (session_after r))
     = store_text (users_txt fresh_session) ++ suffix)
  /\ readable (users_txt (session_after r))
     = readable (users_txt fresh_session)
  /\ appendable (users_txt (session_after r))
     = appendable (users_txt fresh_session)
  /\ (forall rest s',
        r = Returns (false, (rest, s')) ->
        users_txt s' = users_txt fresh_session).
Proof.
  exact (AccountFacts.authentication_only_appends toy_digest true toy_rd
           [Received "bob"; Received "pw"] fresh_session).
Defined.

(** No [read] and no [close] of a file of [/srv] fails. *)
Lemma srv_files_are_sound (path : string) (fd : file_image) :
  open_rdonly srv_fs path = Some fd ->
  f_read_error fd = None /\ f_close_error fd = false.
Proof.
  unfold srv_fs, assoc. cbn [open_rdonly List.find fst snd].
  destruct (String.eqb "/srv/a.txt" path);
    [intros [= <-]; split; reflexivity|].
  destruct (String.eqb "/srv/docs/c.txt" path);
    [intros [= <-]; split; reflexivity|].
  discriminate.
Qed.

(** X14 on [/srv], and on [/odd] where the earlier scanner goes on after
    the [read] that fails. *)
Lemma guarded_scan_is_a_prefix_of_the_plain_scan_witness :
  ContentScannerPlain.scan srv_fs (Some srv_list) "hello"
  = ContentScanner.scan srv_fs (Some srv_list) "hello"
  /\ ContentScannerPlain.scan odd_fs (Some odd_list) "key"
     = (ContentScanner.scan odd_fs (Some odd_list) "key" ++ ["/odd/good"])%list.
Proof.
  split; [|vm_compute; reflexivity].
  apply (FailureFacts.guarded_scan_is_a_prefix_of_the_plain_scan srv_fs
           (Some srv_list) "hello").
  exact srv_files_are_sound.
Defined.

(** X15 on a file of [/odd] whose first [read] fails: nothing is sent. *)
Lemma the_marker_follows_only_a_whole_file_witness :
  open_rdonly odd_fs "/odd/bad" = Some (mkFile "key" (Some 0) false)
  /\ exists sent,
       delivered (final (FileInspector.inspect odd_fs "/odd/bad"
                           (mkConn "" None)))
       = delivered (mkConn "" None) ++ sent
       /\ ((exists rest, f_bytes (mkFile "key" (Some 0) false) = sent ++ rest)
           \/ (sent = f_bytes (mkFile "key" (Some 0) false) ++ END_MARK
               /\ snd (read_all BUFFER_SIZE (mkFile "key" (Some 0) false))
                  = true
               /\ f_close_error (mkFile "key" (Some 0) false) = false)).
Proof.
  split; [reflexivity|].
  apply (FailureFacts.the_marker_follows_only_a_whole_file odd_fs "/odd/bad"
           (mkConn "" None) (mkFile "key" (Some 0) false)).
  reflexivity.
Defined.

(** X16 on the same file and on a file of [/srv]. *)
Lemma the_plain_streamer_always_ends_its_answer_witness :
  credit (mkConn "" None) = None
  /\ FileInspectorPlain.inspect odd_fs "/odd/bad" (mkConn "" None)
     = Returns (mkConn END_MARK None)
  /\ FileInspectorPlain.inspect srv_fs "/srv/a.txt" (mkConn "" None)
     = FileInspector.inspect srv_fs "/srv/a.txt" (mkConn "" None).
Proof.
  split; [reflexivity|]. split; [vm_compute; reflexivity|].
  apply (FailureFacts.the_plain_streamer_always_ends_its_answer srv_fs
           "/srv/a.txt" (mkConn "" None) eq_refl).
  right. exists "hello world". reflexivity.
Defined.

(** X17 on [/srv], whose directory [vault] cannot be opened. *)
Lemma the_guarded_traversal_agrees_on_trees_witness :
  root_at srv_fs srv_tree "/srv" = true
  /\ depth srv_tree <= 2
  /\ in_int (DirectoryTraverser.fileCount walk_start)
  /\ credit (DirectoryTraverser.sock walk_start) = None
  /\ DirectoryTraverser.outputFile walk_start <> None
  /\ exists plain guarded,
       DirectoryTraverser.traverse srv_fs 2 "/srv" walk_start
       = Some (Returns plain)
       /\ DirectoryTraverserGuarded.traverse denied "data/files.txt" srv_fs 2
            "/srv" walk_start
          = Some (Returns guarded)
       /\ DirectoryTraverser.fileCount guarded
          = DirectoryTraverser.fileCount plain
       /\ DirectoryTraverser.fileCount guarded
          = int_wrap (DirectoryTraverser.fileCount walk_start
                      + regular_files srv_tree)
       /\ DirectoryTraverser.outputFile guarded
          = DirectoryTraverser.outputFile plain
       /\ DirectoryTraverser.outputFile guarded
          = written srv_tree "/srv"
                    (DirectoryTraverser.outputFile walk_start)
       /\ delivered (DirectoryTraverser.sock plain)
          = delivered (DirectoryTraverser.sock walk_start)
            ++ join (messages srv_tree "/srv")
       /\ delivered (DirectoryTraverser.sock guarded)
          = delivered (DirectoryTraverser.sock walk_start)
            ++ join (guarded_messages denied srv_tree "/srv").
Proof.
  assert (Hint : in_int (DirectoryTraverser.fileCount walk_start))
    by (unfold in_int, INT_MAX; simpl; lia).
  split; [vm_compute; reflexivity|].
  split; [vm_compute; lia|].
  split; [exact Hint|].
  split; [reflexivity|].
  split; [discriminate|].
  apply (GuardedFacts.the_guarded_traversal_agrees_on_trees denied
           "data/files.txt" srv_fs srv_tree "/srv" 2 walk_start).
  - vm_compute. reflexivity.
  - vm_compute. lia.
  - exact Hint.
  - reflexivity.
  - discriminate.
Defined.

(** X18 on [/srv] after the connection was reset: the [send] of the
    [Directory:] line fails, the one of the error line ends the process,
    and nothing was counted, listed or received. *)
Lemma the_guarded_traversal_gives_up_witness :
  opendir srv_fs "/srv"
  = Some ["."; ".."; "a.txt"; "docs"; "b.log"; "gone"; "pipe"; "vault"]
  /\ send (DirectoryTraverser.sock walk_reset) ("Directory: " ++ "/srv" ++ nl)
     = Refused (mkConn "" (Some (0, 0)))
  /\ DirectoryTraverserGuarded.traverse denied "data/files.txt" srv_fs 1
       "/srv" walk_reset
     = Some (Killed (DirectoryTraverser.mkState (mkConn "" (Some (0, 0))) 0
                       (Some "")))
  /\ exists r,
       DirectoryTraverserGuarded.traverse denied "data/files.txt" srv_fs 1
         "/srv" walk_reset
       = Some r
       /\ DirectoryTraverser.fileCount (final r)
          = DirectoryTraverser.fileCount walk_reset
       /\ DirectoryTraverser.outputFile (final r)
          = DirectoryTraverser.outputFile walk_reset.
Proof.
  split; [reflexivity|]. split; [reflexivity|]. split; [reflexivity|].
  destruct (GuardedFacts.the_guarded_traversal_gives_up denied
              "data/files.txt" srv_fs 0 "/srv"
              ["."; ".."; "a.txt"; "docs"; "b.log"; "gone"; "pipe"; "vault"]
              walk_reset eq_refl
              (or_intror (ex_intro _ (mkConn "" (Some (0, 0))) eq_refl)))
    as (r & Hr & Hcount & Hlist & _).
  exists r. repeat split; assumption.
Defined.

(** X22 on an answer that arrives in two chunks, the marker cut in
    two. *)
Lemma the_client_shows_the_body_witness :
  find Client.END_MARK "Total Files: 3" = None
  /\ join ["Total Files: 3<<EN"; "D>>" ++ nl] = "Total Files: 3" ++ END_MARK
  /\ exists unread,
       Client.receive_response
         (map Client.Data ["Total Files: 3<<EN"; "D>>" ++ nl] ++ [])
       = Some ("Total Files: 3", (map Client.Data unread ++ [])%list)
       /\ (unread = [] \/ unread = [nl]).
Proof.
  split; [vm_compute; reflexivity|]. split; [reflexivity|].
  apply (ClientFacts.the_client_shows_the_body "Total Files: 3"
           ["Total Files: 3<<EN"; "D>>" ++ nl] []).
  - vm_compute. reflexivity.
  - reflexivity.
  - repeat constructor; discriminate.
Defined.

(** X23 on a file that holds the marker: the client shows what is before
    it. *)
Lemma the_client_never_shows_the_marker_witness :
  Client.receive_response [Client.Data ("a<<END>>b" ++ END_MARK)]
  = Some ("a", [])
  /\ find Client.END_MARK "a" = None
  /\ exists dropped,
       data_of [Client.Data ("a<<END>>b" ++ END_MARK)]
       = "a" ++ dropped ++ data_of []
       /\ (dropped = "" \/ exists more, dropped = Client.END_MARK ++ more).
Proof.
  assert (H : Client.receive_response
                [Client.Data ("a<<END>>b" ++ END_MARK)]
              = Some ("a", [])) by (vm_compute; reflexivity).
  split; [exact H|].
  exact (ClientFacts.the_client_never_shows_the_marker _ _ _ H).
Defined.

(** X24 on [/srv] and the pattern [hello]. *)
Lemma the_server_reads_back_the_menu_choice_witness :
  lacks " "%char "/srv" = true
  /\ dispatch srv_fs 2 (Client.command 2 "/srv" "hello") fresh_session
     = dispatch srv_fs 2 "SEARCH /srv hello" fresh_session
  /\ dispatch srv_fs 2 (Client.command 4 "" "") fresh_session
     = Some (Break (log fresh_session "Session ended")).
Proof.
  split; [reflexivity|]. split; [reflexivity|].
  apply (ClientFacts.the_server_reads_back_the_menu_choice srv_fs 2 "" ""
           fresh_session); lia.
Defined.

(** X13 on the list of [/srv]: the two files that open. *)
Lemma an_empty_pattern_matches_every_file_read_witness :
  ContentScanner.scan srv_fs (Some srv_list) ""
  = filter (fun path => match open_rdonly srv_fs path with
                        | Some _ => true
                        | None => false
                        end) (lines srv_list).
Proof.
  apply (FailureFacts.an_empty_pattern_matches_every_file_read srv_fs
           srv_list).
  exact srv_files_are_sound.
Defined.


(** X21 on the logger of the server, for a file list that does not
    open. *)
Lemma exception_reports_need_the_warning_level_witness :
  (Logger.value Logger.WARNING
   <= Logger.value (Logger.currentLevel server_logger))%nat
  /\ Logger.logFile server_logger = Some "logs/server.log"
  /\ exists head,
       Logger.cout (ExceptionHandler.handle "2026-02-12 14:30:45"
                      "No such file or directory" "ExceptionHandler.cpp" 137
                      "Cannot open file list" server_logger)
       = Logger.cout server_logger
         ++ head ++ "Cannot open file list" ++ " | Error: "
         ++ "No such file or directory" ++ nl
       /\ forall path,
            Logger.logFile server_logger = Some path ->
            Logger.disk (ExceptionHandler.handle "2026-02-12 14:30:45"
                           "No such file or directory" "ExceptionHandler.cpp"
                           137 "Cannot open file list" server_logger) path
            = Logger.disk server_logger path
              ++ head ++ "Cannot open file list" ++ " | Error: "
              ++ "No such file or directory" ++ nl.
Proof.
  split; [vm_compute; lia|]. split; [reflexivity|].
  apply (LoggerFacts.exception_reports_need_the_warning_level
           (fun _ => true) (fun _ => "") "2026-02-12 14:30:45"
           "No such file or directory" "ExceptionHandler.cpp" 137
           "Cannot open file list").
  vm_compute. lia.
Defined.

End MoreExamples.
